(** * AiChecker: the text-analysis engine of [aichecker/analyzer.py]

    A shallow embedding of the analyzer (segmenter, readability wrapper,
    spelling, style and repetition analyses, aggregator) and the proofs of
    the properties its specification states.

    Text is a Python [str]: a sequence of Unicode code points, modelled as
    [list N].  Everything the analyzer decides on ASCII characters is
    written out; what CPython reads from its Unicode tables for code points
    above 127 is a parameter ([UnicodeData]).  The two libraries the
    analyzer imports, [textstat] and [spellchecker], are parameters too.

    The command line of [aichecker/__main__.py] follows the analyzer: the
    input it reads, the human-readable report and [main], with the
    argument parser, the files and the standard input as parameters. *)

From Stdlib Require Import ZArith NArith List Ascii String Floats Sorted Permutation Lia Bool.
From stdpp Require Import base decidable option list sorting sets gmap pretty.

Local Open Scope N_scope.

#[local] Set Warnings "-clear-no-such-hyp".

(** ** Characters and strings *)

Abbreviation str := (list N).

(** A Rocq string literal read as a Python string (one code point per
    character, all below 256). *)
Definition s2l (s : string) : str := map N_of_ascii (list_ascii_of_string s).

Definition c_space : N := 32.
Definition c_underscore : N := 95.
Definition c_hyphen : N := 45.
Definition c_apostrophe : N := 39.
Definition c_capital_sigma : N := 931.
Definition c_final_sigma : N := 962.
Definition c_small_sigma : N := 963.

(** ASCII character classes, as the regular expressions of the analyzer and
    CPython's tables for code points below 128 have them. *)
Definition ascii_upper (c : N) : bool := (65 <=? c) && (c <=? 90).
Definition ascii_lower_letter (c : N) : bool := (97 <=? c) && (c <=? 122).
(** [[A-Za-z]] *)
Definition ascii_letter (c : N) : bool := ascii_upper c || ascii_lower_letter c.
Definition ascii_digit (c : N) : bool := (48 <=? c) && (c <=? 57).
(** [str.isspace] below 128: TAB, LF, VT, FF, CR, FS, GS, RS, US, SPACE. *)
Definition ascii_space (c : N) : bool :=
  ((9 <=? c) && (c <=? 13)) || ((28 <=? c) && (c <=? 32)).
Definition ascii_tolower (c : N) : N := if ascii_upper c then c + 32 else c.

(** Lower-casing of one code point other than capital sigma: ASCII is
    written out, the rest comes from the full lower-case table. *)
Definition lower_char_with (tbl : N → list N) (c : N) : list N :=
  if c <? 128 then [ascii_tolower c] else tbl c.

(** CPython's Unicode database above code point 127.  The two laws are
    the fact of the Unicode tables that the proofs below rely on: a
    lower-cased character is not lower-cased any further. *)
Record UnicodeData := {
  u_isspace : N → bool;
  u_isalpha : N → bool;
  u_isalnum : N → bool;
  u_isupper : N → bool;
  (** simple lower-case mapping, used by [re.IGNORECASE] *)
  u_tolower : N → N;
  (** full lower-case mapping, used by [str.lower] *)
  u_tolower_full : N → list N;
  (** is a capital sigma in Final_Sigma context, given the (reversed) text
      before it and the text after it *)
  u_final_sigma : str → str → bool;
  u_lower_stable : ∀ c x, c ≠ c_capital_sigma →
    x ∈ lower_char_with u_tolower_full c →
    x ≠ c_capital_sigma ∧ lower_char_with u_tolower_full x = [x];
  u_sigma_stable :
    lower_char_with u_tolower_full c_final_sigma = [c_final_sigma] ∧
    lower_char_with u_tolower_full c_small_sigma = [c_small_sigma];
}.

(** Tables that know ASCII only: every code point above 127 is
    unclassified and caseless. *)
Program Definition ascii_only : UnicodeData := {|
  u_isspace := λ _, false;
  u_isalpha := λ _, false;
  u_isalnum := λ _, false;
  u_isupper := λ _, false;
  u_tolower := λ c, c;
  u_tolower_full := λ c, [c];
  u_final_sigma := λ _ _, false;
|}.
Next Obligation.
  intros c x Hc Hx. unfold lower_char_with in *.
  destruct (N.ltb_spec c 128) as [Hlt|Hge].
  - apply list_elem_of_singleton in Hx. subst x.
    unfold ascii_tolower, ascii_upper, c_capital_sigma.
    destruct (N.leb_spec 65 c), (N.leb_spec c 90); simpl;
      repeat match goal with
             | |- context [?a <? ?b] => destruct (N.ltb_spec a b)
             | |- context [?a <=? ?b] => destruct (N.leb_spec a b)
             end; simpl; try lia; (split; [lia|done]).
  - apply list_elem_of_singleton in Hx. subst x. split; [done|].
    destruct (N.ltb_spec c 128); [lia|done].
Qed.
Next Obligation. done. Qed.

(** ** Python containers *)

(** [sorted(l, key=...)] (also [list.sort]): a stable sort, here by
    insertion, for the order [leb] that the keys induce. *)
Fixpoint sort_insert {A} (leb : A → A → bool) (x : A) (l : list A) : list A :=
  match l with
  | [] => [x]
  | y :: l' => if leb x y then x :: y :: l' else y :: sort_insert leb x l'
  end.
Definition sorted {A} (leb : A → A → bool) (l : list A) : list A :=
  foldr (sort_insert leb) [] l.

(** Order of Python strings: lexicographic by code point. *)
Fixpoint str_leb (a b : str) : bool :=
  match a, b with
  | [], _ => true
  | _ :: _, [] => false
  | x :: a', y :: b' => (x <? y) || ((x =? y) && str_leb a' b')
  end.

(** Order of the sort keys [(-n, word)]: tuples compare component-wise. *)
Definition key_leb (k1 k2 : Z * str) : bool :=
  (k1.1 <? k2.1)%Z || ((k1.1 =? k2.1)%Z && str_leb k1.2 k2.2).

(** [collections.Counter(l)]: a dict from element to number of
    occurrences, its items in order of first occurrence. *)
Fixpoint counter_incr (w : str) (cs : list (str * nat)) : list (str * nat) :=
  match cs with
  | [] => [(w, 1%nat)]
  | (k, n) :: cs' =>
      if decide (k = w) then (k, S n) :: cs' else (k, n) :: counter_incr w cs'
  end.
Definition Counter (l : list str) : list (str * nat) :=
  foldl (λ cs w, counter_incr w cs) [] l.
(** [counts[k]]: a missing key counts 0. *)
Fixpoint counter_get (cs : list (str * nat)) (w : str) : nat :=
  match cs with
  | [] => 0%nat
  | (k, n) :: cs' => if decide (k = w) then n else counter_get cs' w
  end.

(** [d[w].append(i)] on a [defaultdict(list)], its items in order of
    insertion. *)
Fixpoint dd_append (w : str) (i : nat) (d : list (str * list nat)) : list (str * list nat) :=
  match d with
  | [] => [(w, [i])]
  | (k, pos) :: d' =>
      if decide (k = w) then (k, pos ++ [i]) :: d' else (k, pos) :: dd_append w i d'
  end.

(** ** Regular expressions

    The patterns that the analyzer hands to [re], as syntax. *)
Inductive regex : Type :=
  (** the empty pattern *)
  | Eps
  (** one character of a class: [[...]], [\s], [\w], or a literal *)
  | Chr (p : N → bool)
  | Seq (r1 r2 : regex)
  (** [r1|r2] *)
  | Alt (r1 r2 : regex)
  (** [r*], greedy *)
  | Star (r : regex)
  (** [(?<=[...])] *)
  | LookBehind (p : N → bool)
  (** [\b] *)
  | WordBoundary.
(** [r+], greedy *)
Definition Plus (r : regex) : regex := Seq r (Star r).

(** ** The imported libraries and the report *)

(** The functions of [textstat] that the analyzer calls.  [None] stands
    for a raised exception. *)
Record TextStat := {
  textstat_flesch_reading_ease : str → option float;
  textstat_flesch_kincaid_grade : str → option float;
  textstat_gunning_fog : str → option float;
  textstat_smog_index : str → option float;
  textstat_automated_readability_index : str → option float;
  textstat_coleman_liau_index : str → option float;
  textstat_dale_chall_readability_score : str → option float;
  textstat_difficult_words : str → option Z;
  textstat_polysyllabcount : str → option Z;
  (** [lexicon_count(text, removepunct)] *)
  textstat_lexicon_count : str → bool → option Z;
  textstat_sentence_count : str → option Z;
}.

(** A [SpellChecker] object of [spellchecker]. *)
Record SpellCheckerT := {
  (** [spell.unknown(words)]: a set *)
  spell_unknown : list str → gset str;
  (** [spell.correction(word)]: a word or [None] *)
  spell_correction : str → option str;
}.

Record CheckerOptions := {
  lang : str;
  long_sentence_threshold : Z;
  max_duplicate_sentences : Z;
}.

(** The dictionaries of the report, one record per shape. *)
Record Readability := {
  flesch_reading_ease : option float;
  flesch_kincaid_grade : option float;
  gunning_fog : option float;
  smog_index : option float;
  automated_readability_index : option float;
  coleman_liau_index : option float;
  dale_chall : option float;
  difficult_words : option Z;
  polysyllables : option Z;
  lexicon_count : Z;
  sentence_count : Z;
}.

Record SpellingIssue := { si_word : str; si_suggestion : option str }.
Record Spelling := { total_unknown : nat; issues : list SpellingIssue }.

Record LongSentence := { ls_index : nat; ls_word_count : nat; ls_text : str }.
Record PassiveHit := { pv_index : nat; pv_match : str; pv_sentence : str }.
Record Adverb := { adv_word : str; adv_count : nat }.
Record Style := {
  long_sentences : list LongSentence;
  passive_voice : list PassiveHit;
  adverbs : list Adverb;
}.

Record DuplicateWord := { dw_word : str; dw_occurrences : list nat }.
Record DuplicateSentence := { ds_sentence : str; ds_count : nat }.
Record Repetition := {
  duplicate_words : list DuplicateWord;
  duplicate_sentences : list DuplicateSentence;
}.

Record Summary := { characters : nat; words : nat; sentences : nat }.

Record Report := {
  summary : Summary;
  readability : Readability;
  spelling : Spelling;
  style : Style;
  repetition : Repetition;
  options : CheckerOptions;
}.

Section Analyzer.

Context (U : UnicodeData).
(** the module [textstat] *)
Context (textstat : TextStat).
(** the constructor [SpellChecker(language=lang)]; [None] stands for the
    exception it raises on a language it has no dictionary for *)
Context (SpellChecker : str → option SpellCheckerT).

(** ** Python's [str] methods *)

(** [c.isspace()], also the class [\s] of [re] *)
Definition isspace (c : N) : bool :=
  if c <? 128 then ascii_space c else u_isspace U c.
Definition isalpha (c : N) : bool :=
  if c <? 128 then ascii_letter c else u_isalpha U c.
Definition isalnum (c : N) : bool :=
  if c <? 128 then ascii_letter c || ascii_digit c else u_isalnum U c.
(** [c.isupper()] of a one-character string *)
Definition isupper (c : N) : bool :=
  if c <? 128 then ascii_upper c else u_isupper U c.
(** the class [\w] of [re]: alphanumeric or underscore *)
Definition is_word (c : N) : bool := isalnum c || (c =? c_underscore).

Definition lower_char : N → list N := lower_char_with (u_tolower_full U).

(** [s.lower()]: character by character, capital sigma by its context. *)
Fixpoint lower_from (before : str) (s : str) : str :=
  match s with
  | [] => []
  | c :: s' =>
      (if c =? c_capital_sigma
       then [if u_final_sigma U before s' then c_final_sigma else c_small_sigma]
       else lower_char c) ++ lower_from (c :: before) s'
  end.
Definition lower (s : str) : str := lower_from [] s.

(** [t.isalpha()]: non-empty and every character alphabetic *)
Definition str_isalpha (t : str) : bool :=
  match t with [] => false | _ => forallb isalpha t end.

Fixpoint drop_while (p : N → bool) (s : str) : str :=
  match s with
  | [] => []
  | c :: s' => if p c then drop_while p s' else s
  end.

Definition lstrip (s : str) : str := drop_while isspace s.
Definition rstrip (s : str) : str := rev (drop_while isspace (rev s)).
(** [s.strip()] *)
Definition strip (s : str) : str := rstrip (lstrip s).

(** [s.endswith(suffix)] *)
Definition endswith (s suffix : str) : bool :=
  bool_decide (drop (length s - length suffix)%nat s = suffix).

(** ** Character classes of the patterns *)

(** [[.!?]], the characters of the look-behind [(?<=[.!?])] *)
Definition is_terminator (c : N) : bool := (c =? 46) || (c =? 33) || (c =? 63).
(** [[-']] *)
Definition is_joiner (c : N) : bool := (c =? c_hyphen) || (c =? c_apostrophe).

(** the class [[\s\W_]] *)
Definition is_separator (c : N) : bool :=
  isspace c || negb (is_word c) || (c =? c_underscore).

(** ** The matcher of [re]

    A position in a text is the text before it, last character first, and
    the text after it.  [re_ends r b s] lists the positions at which a
    match of [r] that starts at position [(b, s)] can end, in the order in
    which the backtracking matcher of [re] tries them: the first one is the
    match that [re] reports. *)
Definition is_word_at (s : str) : bool :=
  match s with c :: _ => is_word c | [] => false end.

(** [r*]: one more round of [r] that consumes something and then [r*]
    again, or else stop here. *)
Fixpoint star_ends (step : str → str → list (str * str)) (fuel : nat)
    (b s : str) : list (str * str) :=
  match fuel with
  | O => [(b, s)]
  | S fuel' =>
      flat_map (λ p : str * str,
                  if (length p.2 <? length s)%nat
                  then star_ends step fuel' p.1 p.2 else [])
               (step b s)
      ++ [(b, s)]
  end.

Fixpoint re_ends (r : regex) (b s : str) : list (str * str) :=
  match r with
  | Eps => [(b, s)]
  | Chr p =>
      match s with
      | c :: s' => if p c then [(c :: b, s')] else []
      | [] => []
      end
  | Seq r1 r2 => flat_map (λ p : str * str, re_ends r2 p.1 p.2) (re_ends r1 b s)
  | Alt r1 r2 => re_ends r1 b s ++ re_ends r2 b s
  | Star r1 => star_ends (re_ends r1) (length s) b s
  | LookBehind p =>
      match b with
      | c :: _ => if p c then [(b, s)] else []
      | [] => []
      end
  | WordBoundary => if xorb (is_word_at b) (is_word_at s) then [(b, s)] else []
  end.

(** [pattern.search]: the leftmost position at which [r] matches.  The
    result is the text skipped, the text matched, and the position after
    the match. *)
Fixpoint re_search (r : regex) (b s : str) : option (str * str * (str * str)) :=
  match head (re_ends r b s) with
  | Some (b', s') => Some ([], take (length s - length s') s, (b', s'))
  | None =>
      match s with
      | [] => None
      | c :: s0 =>
          match re_search r (c :: b) s0 with
          | Some (gap, m, p) => Some (c :: gap, m, p)
          | None => None
          end
      end
  end.

(** The successive matches of [r] in a text, each with the text between
    it and the match before, and the text after the last match.  The
    patterns of the analyzer do not match the empty string; the iteration
    stops if one did. *)
Fixpoint re_pieces (r : regex) (fuel : nat) (b s : str) : list (str * str) * str :=
  match fuel with
  | O => ([], s)
  | S fuel' =>
      match re_search r b s with
      | Some (gap, c :: m, (b', s')) =>
          let rest := re_pieces r fuel' b' s' in
          ((gap, c :: m) :: rest.1, rest.2)
      | _ => ([], s)
      end
  end.

(** [re.findall(r, s)] for a pattern without group, also the
    [m.group(0)] of [re.finditer(r, s)] *)
Definition re_findall (r : regex) (s : str) : list str :=
  map snd (re_pieces r (length s) [] s).1.
(** [re.split(r, s)] *)
Definition re_split (r : regex) (s : str) : list str :=
  let pieces := re_pieces r (length s) [] s in
  map fst pieces.1 ++ [pieces.2].
(** [re.sub(r, repl, s)] *)
Definition re_sub (r : regex) (repl : str) (s : str) : str :=
  let pieces := re_pieces r (length s) [] s in
  concat (map (λ gm : str * str, gm.1 ++ repl) pieces.1) ++ pieces.2.

(** [(?<=[.!?])\s+] *)
Definition sentence_boundary_re : regex :=
  Seq (LookBehind is_terminator) (Plus (Chr isspace)).
(** [[A-Za-z]+(?:[-'][A-Za-z]+)*] *)
Definition token_re : regex :=
  Seq (Plus (Chr ascii_letter))
      (Star (Seq (Chr is_joiner) (Plus (Chr ascii_letter)))).
(** [[\s\W_]+] *)
Definition separators_re : regex := Plus (Chr is_separator).
(** [\s+] *)
Definition spaces_re : regex := Plus (Chr isspace).
(** [\b\w+\b] *)
Definition word_re : regex := Seq WordBoundary (Seq (Plus (Chr is_word)) WordBoundary).

(** ** Segmenter *)

Definition split_sentences (text : str) : list str :=
  let sentences :=
    match strip text with
    | [] => []
    | _ => re_split sentence_boundary_re (strip text)
    end in
  List.filter (λ s, match s with [] => false | _ => true end) sentences.

Definition tokenize (text : str) : list str := re_findall token_re text.

Definition normalize_sentence (s : str) : str :=
  strip (re_sub spaces_re [c_space] (re_sub separators_re [c_space] (lower s))).

(** Normalization in the words of the specification (4.1): lower-case,
    replace every run of white space or non-word characters with a single
    space, trim.  The underscore is a word character. *)
Definition is_space_or_nonword (c : N) : bool := isspace c || negb (is_word c).
Definition normalize_sentence_spec (s : str) : str :=
  strip (re_sub (Plus (Chr is_space_or_nonword)) [c_space] (lower s)).

(** ** Readability *)

Definition readability_blank : Readability := {|
  flesch_reading_ease := None;
  flesch_kincaid_grade := None;
  gunning_fog := None;
  smog_index := None;
  automated_readability_index := None;
  coleman_liau_index := None;
  dale_chall := None;
  difficult_words := Some 0%Z;
  polysyllables := Some 0%Z;
  lexicon_count := 0%Z;
  sentence_count := 0%Z;
|}.

(** The body of the [try]: [None] as soon as one call raises. *)
Definition readability_textstat (text : str) : option Readability :=
  a ← textstat_flesch_reading_ease textstat text;
  b ← textstat_flesch_kincaid_grade textstat text;
  c ← textstat_gunning_fog textstat text;
  d ← textstat_smog_index textstat text;
  e ← textstat_automated_readability_index textstat text;
  f ← textstat_coleman_liau_index textstat text;
  g ← textstat_dale_chall_readability_score textstat text;
  h ← textstat_difficult_words textstat text;
  i ← textstat_polysyllabcount textstat text;
  j ← textstat_lexicon_count textstat text true;
  k ← textstat_sentence_count textstat text;
  Some {|
    flesch_reading_ease := Some a;
    flesch_kincaid_grade := Some b;
    gunning_fog := Some c;
    smog_index := Some d;
    automated_readability_index := Some e;
    coleman_liau_index := Some f;
    dale_chall := Some g;
    difficult_words := Some h;
    polysyllables := Some i;
    lexicon_count := j;
    sentence_count := k;
  |}.

(** The [except Exception] branch. *)
Definition readability_fallback (text : str) : Readability := {|
  flesch_reading_ease := None;
  flesch_kincaid_grade := None;
  gunning_fog := None;
  smog_index := None;
  automated_readability_index := None;
  coleman_liau_index := None;
  dale_chall := None;
  difficult_words := None;
  polysyllables := None;
  lexicon_count := Z.of_nat (length (tokenize text));
  sentence_count := Z.of_nat (length (split_sentences text));
|}.

Definition analyze_readability (text : str) : Readability :=
  match strip text with
  | [] => readability_blank
  | _ => default (readability_fallback text) (readability_textstat text)
  end.

(** ** Spelling *)

(** [lower_tokens]: the words handed to the spell checker. *)
Definition spelling_lower_tokens (text : str) : list str :=
  let tokens := re_findall word_re text in
  map lower
    (List.filter (λ t, str_isalpha t && negb (existsb isupper t)) tokens).

Definition analyze_spelling (text : str) (lang : str) : option Spelling :=
  let lower_tokens := spelling_lower_tokens text in
  spell ← SpellChecker lang;
  let unknown := spell_unknown spell lower_tokens in
  let issues :=
    map (λ w, {| si_word := w; si_suggestion := spell_correction spell w |})
        (sorted str_leb (elements unknown)) in
  Some {| total_unknown := length issues; issues := issues |}.

(** ** Style *)

(** [re.IGNORECASE] on a cased literal [p] of the pattern: [re] lower-cases
    the character of the text with the simple mapping and compares; for
    [i] and [s] it also accepts dotless i (U+0131) and long s (U+017F). *)
Definition sre_lower (c : N) : N :=
  if c <? 128 then ascii_tolower c else u_tolower U c.
Definition ci_char (p c : N) : bool :=
  let l := sre_lower c in
  (l =? p) || ((p =? 105) && (l =? 305)) || ((p =? 115) && (l =? 383)).
(** A literal of the pattern under [re.IGNORECASE]. *)
Definition literal_ci (w : string) : regex :=
  foldr (λ c r, Seq (Chr (ci_char c)) r) Eps (s2l w).

(** [am|is|are|was|were|be|been|being] *)
Definition be_verbs_re : regex :=
  Alt (literal_ci "am") (Alt (literal_ci "is") (Alt (literal_ci "are")
  (Alt (literal_ci "was") (Alt (literal_ci "were") (Alt (literal_ci "be")
  (Alt (literal_ci "been") (literal_ci "being"))))))).

(** [\b(?:am|is|are|was|were|be|been|being)\b\s+\b(\w+ed)\b] with
    [re.IGNORECASE] *)
Definition passive_re : regex :=
  Seq WordBoundary (Seq be_verbs_re (Seq WordBoundary
  (Seq (Plus (Chr isspace)) (Seq WordBoundary
  (Seq (Seq (Plus (Chr is_word)) (literal_ci "ed")) WordBoundary))))).

(** [m.group(0)] for [m] in [passive_re.finditer(s)] *)
Definition passive_finditer (s : str) : list str := re_findall passive_re s.

Definition skip : list str :=
  map s2l ["family"; "only"; "supply"; "reply"; "apply"; "imply"]%string.

Definition analyze_style (text : str) (long_sentence_threshold : Z) : Style :=
  let sentences := split_sentences text in
  let long_sentences :=
    List.filter (λ f, (long_sentence_threshold <? Z.of_nat (ls_word_count f))%Z)
      (imap (λ i s, {| ls_index := i;
                       ls_word_count := length (tokenize s);
                       ls_text := s |}) sentences) in
  let passive_hits :=
    concat (imap (λ i s, map (λ m, {| pv_index := i; pv_match := m; pv_sentence := s |})
                             (passive_finditer s)) sentences) in
  let words := map lower (tokenize text) in
  let adverb_counts :=
    Counter (List.filter (λ w, (3 <? length w)%nat && endswith w (s2l "ly")) words) in
  let adverbs :=
    map (λ wc, {| adv_word := wc.1; adv_count := wc.2 |})
        (List.filter (λ wc, negb (bool_decide (wc.1 ∈ skip))) adverb_counts) in
  {| long_sentences := long_sentences;
     passive_voice := passive_hits;
     adverbs := sorted (λ x y, key_leb (- Z.of_nat (adv_count x), adv_word x)%Z
                                      (- Z.of_nat (adv_count y), adv_word y)%Z) adverbs |}.

(** ** Repetition *)

(** The loop over [enumerate(words)], from index [i] on. *)
Fixpoint duplicate_scan (prev : option str) (i : nat) (words : list str)
    (positions : list (str * list nat)) : list (str * list nat) :=
  match words with
  | [] => positions
  | w :: words' =>
      duplicate_scan (Some w) (S i) words'
        (if decide (prev = Some w) then dd_append w i positions else positions)
  end.

(** The loop that drops the entries whose normalized sentence was seen. *)
Fixpoint dedup_sentences (seen : gset str) (items : list DuplicateSentence)
    : list DuplicateSentence :=
  match items with
  | [] => []
  | item :: items' =>
      let key := normalize_sentence (ds_sentence item) in
      if decide (key ∈ seen) then dedup_sentences seen items'
      else item :: dedup_sentences ({[key]} ∪ seen) items'
  end.

Definition analyze_repetition (text : str) (max_duplicate_sentences : Z) : Repetition :=
  let words := map lower (tokenize text) in
  let duplicate_words_positions := duplicate_scan None 0 words [] in
  let dup_words :=
    map (λ kv, {| dw_word := kv.1; dw_occurrences := kv.2 |})
      (List.filter (λ kv, match kv.2 with [] => false | _ => true end)
         (sorted (λ x y, key_leb (- Z.of_nat (length x.2), x.1)%Z
                                 (- Z.of_nat (length y.2), y.1)%Z)
                 duplicate_words_positions)) in
  let sentences := split_sentences text in
  let normalized := map normalize_sentence sentences in
  let counts := Counter (List.filter (λ n, match n with [] => false | _ => true end) normalized) in
  let dup_sentences :=
    flat_map (λ i,
      match sentences !! i, normalized !! i with
      | Some s, Some n =>
          if match n with [] => false | _ => true end
             && (max_duplicate_sentences <? Z.of_nat (counter_get counts n))%Z
          then [{| ds_sentence := s; ds_count := counter_get counts n |}]
          else []
      | _, _ => []
      end) (seq 0 (length sentences)) in
  {| duplicate_words := dup_words;
     duplicate_sentences := dedup_sentences ∅ dup_sentences |}.

(** ** Aggregator *)

(** [None] stands for the exception of [SpellChecker], the only one that
    leaves [analyze_text]. *)
Definition analyze_text (text : str) (opts : CheckerOptions) : option Report :=
  let readability := analyze_readability text in
  spelling ← analyze_spelling text (lang opts);
  let style := analyze_style text (long_sentence_threshold opts) in
  let repetition := analyze_repetition text (max_duplicate_sentences opts) in
  let summary := {| characters := length text;
                    words := length (tokenize text);
                    sentences := length (split_sentences text) |} in
  Some {| summary := summary;
          readability := readability;
          spelling := spelling;
          style := style;
          repetition := repetition;
          options := opts |}.

(** ** One-pass scanners

    What the matcher makes of the patterns of the segmenter, written as
    scanners that read the text once; the properties section proves them
    equal to [re_split], [re_findall] and [re_sub] on these patterns. *)

(** State of [re.split(r"(?<=[.!?])\s+", s)]: inside a piece, remembering
    whether the character just read is a terminator, or inside the white
    space of a separator. *)
Inductive split_state :=
  | InPiece (after_terminator : bool)
  | InSeparator.

(** [cur] is the piece read so far, last character first.  A separator
    starts at a white-space character that follows a terminator and takes
    all the white space after it. *)
Fixpoint re_split_from (st : split_state) (cur : str) (s : str) : list str :=
  match s with
  | [] => [rev cur]
  | c :: s' =>
      match st with
      | InPiece after_terminator =>
          if after_terminator && isspace c
          then rev cur :: re_split_from InSeparator [] s'
          else re_split_from (InPiece (is_terminator c)) (c :: cur) s'
      | InSeparator =>
          if isspace c
          then re_split_from InSeparator cur s'
          else re_split_from (InPiece (is_terminator c)) (c :: cur) s'
      end
  end.
Definition re_split_sentences (s : str) : list str :=
  re_split_from (InPiece false) [] s.

(** State of [re.findall(r"[A-Za-z]+(?:[-'][A-Za-z]+)*", s)]. *)
Inductive token_state :=
  | Outside
    (** the match so far (last character first), ending in a letter *)
  | InToken (acc : str)
    (** a match ending in a letter, then one joiner that counts only if a
        letter follows *)
  | AfterJoiner (acc : str) (joiner : N).

Fixpoint re_findall_tokens (st : token_state) (s : str) : list str :=
  match s with
  | [] =>
      match st with
      | Outside => []
      | InToken acc | AfterJoiner acc _ => [rev acc]
      end
  | c :: s' =>
      match st with
      | Outside =>
          if ascii_letter c then re_findall_tokens (InToken [c]) s'
          else re_findall_tokens Outside s'
      | InToken acc =>
          if ascii_letter c then re_findall_tokens (InToken (c :: acc)) s'
          else if is_joiner c then re_findall_tokens (AfterJoiner acc c) s'
          else rev acc :: re_findall_tokens Outside s'
      | AfterJoiner acc j =>
          if ascii_letter c then re_findall_tokens (InToken (c :: j :: acc)) s'
          else rev acc :: re_findall_tokens Outside s'
      end
  end.

(** [re.sub(r"[...]+", " ", s)] for a character class [cls]: every maximal
    run of characters of the class becomes one space.  [in_run] tells that
    the previous character was of the class. *)
Fixpoint re_sub_runs (cls : N → bool) (in_run : bool) (s : str) : str :=
  match s with
  | [] => []
  | c :: s' =>
      if cls c
      then (if in_run then re_sub_runs cls true s'
            else c_space :: re_sub_runs cls true s')
      else c :: re_sub_runs cls false s'
  end.

(** [re.findall(r"\b\w+\b", s)]: the maximal runs of word characters.
    [acc] is the run being read, last character first. *)
Fixpoint re_findall_words (acc : str) (s : str) : list str :=
  match s with
  | [] => match acc with [] => [] | _ => [rev acc] end
  | c :: s' =>
      if is_word c then re_findall_words (c :: acc) s'
      else match acc with
           | [] => re_findall_words [] s'
           | _ => rev acc :: re_findall_words [] s'
           end
  end.

(** ** Vocabulary of the statements about the matcher *)

Fixpoint take_while (p : N → bool) (s : str) : str :=
  match s with
  | [] => []
  | c :: s' => if p c then c :: take_while p s' else []
  end.

(** The ends of [[p]*] from a position, longest first. *)
Fixpoint run_ends (p : N → bool) (b s : str) : list (str * str) :=
  match s with
  | [] => [(b, [])]
  | c :: s' => (if p c then run_ends p (c :: b) s' else []) ++ [(b, s)]
  end.

(** The end of the longest [(?:[-'][A-Za-z]+)*] from a position. *)
Fixpoint token_tail (fuel : nat) (b s : str) : str * str :=
  match fuel with
  | O => (b, s)
  | S fuel' =>
      match s with
      | j :: c :: s' =>
          if is_joiner j && ascii_letter c
          then token_tail fuel' (rev (take_while ascii_letter s') ++ c :: j :: b)
                          (drop_while ascii_letter s')
          else (b, s)
      | _ => (b, s)
      end
  end.

Definition is_terminator_at (b : str) : bool :=
  match b with c :: _ => is_terminator c | [] => false end.

(** ** Vocabulary of the statements about characters *)

(** A string without runs to replace: its separators are single spaces.
    [after_space] tells that the previous character was a separator. *)
Fixpoint tidy_from (after_space : bool) (t : str) : bool :=
  match t with
  | [] => true
  | c :: t' =>
      if is_separator c
      then (c =? c_space) && negb after_space && tidy_from true t'
      else tidy_from false t'
  end.

(** A character that lower-casing leaves alone. *)
Definition lower_stable (c : N) : Prop :=
  c ≠ c_capital_sigma ∧ lower_char c = [c].

(** A character of a text on which [re.findall(r"\b\w+\b", text)] and
    [tokenize] agree: an ASCII letter, or a non-word character other than
    the hyphen and the apostrophe. *)
Definition plain_char (c : N) : bool :=
  ascii_letter c || (negb (is_word c) && negb (is_joiner c)).

(** ** Vocabulary of the further properties *)

(** A string that is not empty and has no white space at either end. *)
Definition trimmed (s : str) : Prop :=
  s ≠ [] ∧
  (∀ c, head s = Some c → isspace c = false) ∧
  (∀ c, last s = Some c → isspace c = false).

(** A string that ends in [.], [!] or [?]. *)
Definition terminated (s : str) : Prop :=
  ∃ c, last s = Some c ∧ is_terminator c = true.

(** Every element of a list but the last one. *)
Definition all_but_last {A} (P : A → Prop) (l : list A) : Prop :=
  ∀ i x, l !! i = Some x → (S i < length l)%nat → P x.


(** A piece that [re.split] does not cut: no white space follows a
    terminator in it.  [t] tells that the character before is a
    terminator. *)
Fixpoint unsplit (t : bool) (p : str) : bool :=
  match p with
  | [] => true
  | c :: p' => negb (t && isspace c) && unsplit (is_terminator c) p'
  end.


(** A string of ASCII letters, hyphens and apostrophes that begins and
    ends with a letter. *)
Definition token_shaped (t : str) : Prop :=
  t ≠ [] ∧
  (∀ c, head t = Some c → ascii_letter c = true) ∧
  (∀ c, last t = Some c → ascii_letter c = true) ∧
  Forall (λ c, ascii_letter c || is_joiner c = true) t.

(** What the token scanner has read when it is in a state: a token in
    progress is shaped like a token. *)
Definition token_state_shaped (st : token_state) : Prop :=
  match st with
  | Outside => True
  | InToken acc => token_shaped (rev acc)
  | AfterJoiner acc j => token_shaped (rev acc) ∧ is_joiner j = true
  end.

(** Reading the token in progress from the start leads to the state. *)
Definition token_state_reached (st : token_state) : Prop :=
  match st with
  | Outside => True
  | InToken acc =>
      ∀ rest, re_findall_tokens Outside (rev acc ++ rest)
              = re_findall_tokens (InToken acc) rest
  | AfterJoiner acc j =>
      (∀ rest, re_findall_tokens Outside (rev acc ++ rest)
               = re_findall_tokens (InToken acc) rest) ∧
      (∀ rest, re_findall_tokens Outside (rev acc ++ j :: rest)
               = re_findall_tokens (AfterJoiner acc j) rest)
  end.


(** Every call of the [try] block of [analyze_readability] returns. *)
Definition textstat_answers (text : str) : Prop :=
  is_Some (textstat_flesch_reading_ease textstat text) ∧
  is_Some (textstat_flesch_kincaid_grade textstat text) ∧
  is_Some (textstat_gunning_fog textstat text) ∧
  is_Some (textstat_smog_index textstat text) ∧
  is_Some (textstat_automated_readability_index textstat text) ∧
  is_Some (textstat_coleman_liau_index textstat text) ∧
  is_Some (textstat_dale_chall_readability_score textstat text) ∧
  is_Some (textstat_difficult_words textstat text) ∧
  is_Some (textstat_polysyllabcount textstat text) ∧
  is_Some (textstat_lexicon_count textstat text true) ∧
  is_Some (textstat_sentence_count textstat text).


(** ** Vocabulary of the statements about matches *)

(** [re_match r b m s]: the pattern [r] matches [m] between the text
    before it [b], last character first, and the text after it [s]. *)
Inductive re_match : regex → str → str → str → Prop :=
  | match_Eps b s : re_match Eps b [] s
  | match_Chr (p : N → bool) c b s : p c = true → re_match (Chr p) b [c] s
  | match_Seq r1 r2 b m1 m2 s :
      re_match r1 b m1 (m2 ++ s) → re_match r2 (rev m1 ++ b) m2 s →
      re_match (Seq r1 r2) b (m1 ++ m2) s
  | match_Alt_l r1 r2 b m s : re_match r1 b m s → re_match (Alt r1 r2) b m s
  | match_Alt_r r1 r2 b m s : re_match r2 b m s → re_match (Alt r1 r2) b m s
  | match_Star_nil r b s : re_match (Star r) b [] s
  | match_Star_cons r b m1 m2 s :
      re_match r b m1 (m2 ++ s) → re_match (Star r) (rev m1 ++ b) m2 s →
      re_match (Star r) b (m1 ++ m2) s
  | match_LookBehind (p : N → bool) c b s :
      p c = true → re_match (LookBehind p) (c :: b) [] s
  | match_WordBoundary b s :
      xorb (is_word_at b) (is_word_at s) = true → re_match WordBoundary b [] s.

(** A text that a literal of a pattern with [re.IGNORECASE] matches. *)
Definition matches_ci (w : string) (m : str) : Prop :=
  Forall2 (λ p c, ci_char p c = true) (s2l w) m.


End Analyzer.

(** ** Toy instances of the libraries, for closed examples *)

(** A [textstat] that scores every text 0. *)
Definition textstat_zero : TextStat := {|
  textstat_flesch_reading_ease := λ _, Some 0%float;
  textstat_flesch_kincaid_grade := λ _, Some 0%float;
  textstat_gunning_fog := λ _, Some 0%float;
  textstat_smog_index := λ _, Some 0%float;
  textstat_automated_readability_index := λ _, Some 0%float;
  textstat_coleman_liau_index := λ _, Some 0%float;
  textstat_dale_chall_readability_score := λ _, Some 0%float;
  textstat_difficult_words := λ _, Some 0%Z;
  textstat_polysyllabcount := λ _, Some 0%Z;
  textstat_lexicon_count := λ _ _, Some 0%Z;
  textstat_sentence_count := λ _, Some 0%Z;
|}.

(** A [textstat] whose every call raises. *)
Definition textstat_raising : TextStat := {|
  textstat_flesch_reading_ease := λ _, None;
  textstat_flesch_kincaid_grade := λ _, None;
  textstat_gunning_fog := λ _, None;
  textstat_smog_index := λ _, None;
  textstat_automated_readability_index := λ _, None;
  textstat_coleman_liau_index := λ _, None;
  textstat_dale_chall_readability_score := λ _, None;
  textstat_difficult_words := λ _, None;
  textstat_polysyllabcount := λ _, None;
  textstat_lexicon_count := λ _ _, None;
  textstat_sentence_count := λ _, None;
|}.

(** A spell checker that knows the words of [dict] and corrects nothing. *)
Definition toy_known (dict : list str) (w : str) : bool := bool_decide (w ∈ dict).
Definition toy_spell (dict : list str) : SpellCheckerT := {|
  spell_unknown := λ ws, list_to_set (List.filter (λ w, negb (toy_known dict w)) ws);
  spell_correction := λ _, None;
|}.
(** It has an English dictionary only. *)
Definition toy_SpellChecker (language : str) : option SpellCheckerT :=
  if decide (language = s2l "en")
  then Some (toy_spell (map s2l ["the"; "cat"; "sat"; "a"]%string))
  else None.

Definition default_options : CheckerOptions := {|
  lang := s2l "en";
  long_sentence_threshold := 30;
  max_duplicate_sentences := 1;
|}.

(** ** Vocabulary of the statements *)

(** Number of occurrences of [w] in [l]. *)
Definition count_of (w : str) (l : list str) : nat :=
  length (List.filter (λ x, bool_decide (x = w)) l).

(** "By descending count, then ascending word". *)
Definition count_word_order (k1 k2 : nat * str) : Prop :=
  (k2.1 < k1.1)%nat ∨ (k1.1 = k2.1 ∧ str_leb k1.2 k2.2 = true).

(** [i] is the position of a word [w] that repeats the word before it. *)
Definition adjacent_dup (ws : list str) (i : nat) (w : str) : Prop :=
  ws !! i = Some w ∧ ∃ j, i = S j ∧ ws !! j = Some w.

(** [d[w]] on the positions dictionary; a missing key has no position. *)
Fixpoint dd_get (d : list (str * list nat)) (w : str) : list nat :=
  match d with
  | [] => []
  | (k, pos) :: d' => if decide (k = w) then pos else dd_get d' w
  end.

(** What the positions dictionary holds once the words [pre] are
    scanned. *)
Definition positions_of (pre : list str) (d : list (str * list nat)) : Prop :=
  NoDup (map fst d) ∧
  (∀ w pos, (w, pos) ∈ d → pos ≠ []) ∧
  (∀ w, StronglySorted lt (dd_get d w)) ∧
  (∀ w k, k ∈ dd_get d w ↔ adjacent_dup pre k w).


(** * The command line of [aichecker/__main__.py] *)

(** What the program finds around it. *)
Record World := {
  (** [open(path, "r", encoding="utf-8")] and [f.read()]; [None] when
      one of them raises *)
  file_read : str → option str;
  (** [sys.stdin.isatty()] *)
  stdin_isatty : bool;
  (** [sys.stdin.read()]; [None] when it raises *)
  stdin_read : option str;
  (** the standard output can encode the string: [print] of a string it
      cannot encode raises [UnicodeEncodeError] and writes nothing *)
  stdout_encodes : str → bool;
}.

(** The namespace that [parser.parse_args] returns. *)
Record Namespace := {
  (** [args.command]: [None] without a subcommand *)
  args_command : option str;
  args_file : option str;
  args_json : bool;
  args_lang : str;
  args_long_sentence_threshold : Z;
  args_max_duplicates : Z;
}.

(** How a call of [main] ends. *)
Inductive Outcome :=
  (** [parse_args] printed its message and raised [SystemExit] *)
  | ParserExit
  (** an exception left [main]; nothing was printed before *)
  | Raises
  (** [main] returned [status]; [stdout] and [stderr] hold what each call
      of [print] wrote, without the line end that [print] adds *)
  | Returns (status : Z) (stdout stderr : list str).

(** [None] stands for an exception. *)
Definition read_input_text (file_path : option str) (w : World) : option str :=
  match file_path with
  | Some (c :: path) => file_read w (c :: path)
  | _ => if stdin_isatty w then Some [] else stdin_read w
  end.

Definition ascii_toupper (c : N) : N := if ascii_lower_letter c then c - 32 else c.

(** [k.replace("_", " ")] *)
Definition replace_underscores (k : str) : str :=
  map (λ c, if c =? c_underscore then c_space else c) k.

(** [s.title()] on ASCII text, which the keys are: a letter that follows
    a letter is lowered, another letter is capitalized. *)
Fixpoint title_from (previous_is_cased : bool) (s : str) : str :=
  match s with
  | [] => []
  | c :: s' =>
      (if ascii_letter c
       then (if previous_is_cased then ascii_tolower c else ascii_toupper c)
       else c) :: title_from (ascii_letter c) s'
  end.
Definition title (s : str) : str := title_from false s.

(** [sep.join(parts)] *)
Fixpoint join (sep : str) (parts : list str) : str :=
  match parts with
  | [] => []
  | p :: parts' =>
      match parts' with
      | [] => p
      | _ => p ++ sep ++ join sep parts'
      end
  end.

(** An [int] in an f-string *)
Definition str_int (n : nat) : str := s2l (pretty n).
(** A list of [int] in an f-string *)
Definition str_int_list (l : list nat) : str :=
  s2l "[" ++ join (s2l ", ") (map str_int l) ++ s2l "]".
(** A word or [None] in an f-string *)
Definition str_optional (o : option str) : str := default (s2l "None") o.

(** The keys of the scores that [format_human] shows, each with the
    field it reads. *)
Definition shown_scores : list (string * (Readability → option float)) :=
  [("flesch_reading_ease", flesch_reading_ease);
   ("flesch_kincaid_grade", flesch_kincaid_grade);
   ("gunning_fog", gunning_fog);
   ("smog_index", smog_index);
   ("automated_readability_index", automated_readability_index)]%string.

(** [if items: lines.append(header); for item in items[:cap]:
    lines.append(line(item))] *)
Definition capped_section {A} (header : string) (cap : nat) (line : A → str)
    (items : list A) : list str :=
  match items with
  | [] => []
  | _ => s2l header :: map line (take cap items)
  end.

Section CommandLine.

Context (U : UnicodeData).
Context (textstat : TextStat).
Context (SpellChecker : str → option SpellCheckerT).
(** [f"{v:.2f}"] *)
Context (format_2f : float → str).
(** [json.dumps(result, ensure_ascii=False, indent=2)] *)
Context (json_dumps : Report → str).
(** [parser.parse_args(argv)]; [None] when it raises [SystemExit] *)
Context (parse_args : list str → option Namespace).
(** what [parser.print_help()] prints *)
Context (format_help : str).

(** The list [lines] of [format_human] when it is joined. *)
Definition format_human_lines (result : Report) : list str :=
  let s := summary result in
  let r := readability result in
  let sp := spelling result in
  let st := style result in
  let rep := repetition result in
  [s2l "Summary: " ++ str_int (words s) ++ s2l " words, "
     ++ str_int (sentences s) ++ s2l " sentences, "
     ++ str_int (characters s) ++ s2l " chars"]
  ++ [s2l "Readability:"]
  ++ flat_map (λ kf : string * (Readability → option float),
       match kf.2 r with
       | Some v => [s2l "  - " ++ title (replace_underscores (s2l kf.1))
                      ++ s2l ": " ++ format_2f v]
       | None => []
       end) shown_scores
  ++ [s2l "Spelling: " ++ str_int (total_unknown sp) ++ s2l " potential issue(s)"]
  ++ map (λ issue, s2l "  - '" ++ si_word issue ++ s2l "' -> suggestion: "
                     ++ str_optional (si_suggestion issue))
         (take 20 (issues sp))
  ++ (if (20 <? total_unknown sp)%nat
      then [s2l "  ... and " ++ str_int (total_unknown sp - 20) ++ s2l " more"]
      else [])
  ++ capped_section "Style: Long sentences" 10
       (λ item, s2l "  - #" ++ str_int (ls_index item) ++ s2l " ("
                  ++ str_int (ls_word_count item) ++ s2l " words): " ++ ls_text item)
       (long_sentences st)
  ++ capped_section "Style: Possible passive voice" 10
       (λ item, s2l "  - #" ++ str_int (pv_index item) ++ s2l ": " ++ pv_match item)
       (passive_voice st)
  ++ capped_section "Style: Adverbs (-ly)" 10
       (λ item, s2l "  - " ++ adv_word item ++ s2l " x" ++ str_int (adv_count item))
       (adverbs st)
  ++ capped_section "Repetition: Immediate duplicate words" 10
       (λ item, s2l "  - '" ++ dw_word item ++ s2l "' at positions "
                  ++ str_int_list (take 5 (dw_occurrences item)))
       (duplicate_words rep)
  ++ capped_section "Repetition: Duplicate sentences" 5
       (λ item, s2l "  - x" ++ str_int (ds_count item) ++ s2l ": " ++ ds_sentence item)
       (duplicate_sentences rep).

Definition format_human (result : Report) : str :=
  join [10] (format_human_lines result).

Definition no_input_message : str :=
  s2l "No input text provided. Use --file or pipe text via stdin.".

(** The report is the one output that carries characters of the input
    text, so its [print] is the one that the encoding of the standard
    output can refuse; the help and the message about missing input are
    fixed ASCII text. *)
Definition main (argv : list str) (w : World) : Outcome :=
  match parse_args argv with
  | None => ParserExit
  | Some args =>
      if negb (bool_decide (args_command args = Some (s2l "check")))
      then Returns 1 [format_help] []
      else
        match read_input_text (args_file args) w with
        | None => Raises
        | Some text =>
            match strip U text with
            | [] => Returns 2 [] [no_input_message]
            | _ =>
                let options :=
                  {| lang := args_lang args;
                     long_sentence_threshold := args_long_sentence_threshold args;
                     max_duplicate_sentences := args_max_duplicates args |} in
                match analyze_text U textstat SpellChecker text options with
                | None => Raises
                | Some result =>
                    let printed :=
                      if args_json args then json_dumps result
                      else format_human result in
                    if stdout_encodes w printed
                    then Returns 0 [printed] []
                    else Raises
                end
            end
        end
  end.

End CommandLine.

(** A command line that knows [check] with the options taken as given,
    for closed examples: [check] alone, or [check --file PATH]. *)
Definition toy_parse_args (argv : list str) : option Namespace :=
  match argv with
  | [] => Some {| args_command := None; args_file := None; args_json := false;
                  args_lang := s2l "en"; args_long_sentence_threshold := 30;
                  args_max_duplicates := 1 |}
  | cmd :: rest =>
      if decide (cmd = s2l "check")
      then
        match rest with
        | [] => Some {| args_command := Some cmd; args_file := None;
                        args_json := false; args_lang := s2l "en";
                        args_long_sentence_threshold := 30;
                        args_max_duplicates := 1 |}
        | [flag; path] =>
            if decide (flag = s2l "--file")
            then Some {| args_command := Some cmd; args_file := Some path;
                         args_json := false; args_lang := s2l "en";
                         args_long_sentence_threshold := 30;
                         args_max_duplicates := 1 |}
            else None
        | _ => None
        end
      else None
  end.

(** A terminal without files. *)
Definition toy_terminal : World :=
  {| file_read := λ _, None; stdin_isatty := true; stdin_read := Some [];
     stdout_encodes := λ _, true |}.
(** A pipe that delivers [text], with a standard output that encodes
    every string. *)
Definition toy_pipe (text : str) : World :=
  {| file_read := λ _, None; stdin_isatty := false; stdin_read := Some text;
     stdout_encodes := λ _, true |}.
(** The same pipe with a standard output in ASCII. *)
Definition toy_ascii_pipe (text : str) : World :=
  {| file_read := λ _, None; stdin_isatty := false; stdin_read := Some text;
     stdout_encodes := forallb (λ c, c <? 128) |}.

(** * Properties *)

(** Comparisons of code points, settled by case analysis and [lia]. *)
Ltac cases_N :=
  repeat match goal with
         | |- context [N.ltb ?a ?b] => destruct (N.ltb_spec a b)
         | |- context [N.leb ?a ?b] => destruct (N.leb_spec a b)
         | |- context [N.eqb ?a ?b] => destruct (N.eqb_spec a b)
         | H : context [N.ltb ?a ?b] |- _ => destruct (N.ltb_spec a b)
         | H : context [N.leb ?a ?b] |- _ => destruct (N.leb_spec a b)
         | H : context [N.eqb ?a ?b] |- _ => destruct (N.eqb_spec a b)
         end.
Ltac char_class :=
  unfold is_separator, is_word, isspace, isalnum, isalpha, isupper,
    is_terminator, is_joiner, ascii_letter, ascii_lower_letter, ascii_upper,
    ascii_digit, ascii_space, c_space, c_underscore, c_hyphen, c_apostrophe in *;
  cases_N; simpl in *; try lia; try done.

(** *** Sorting *)

Section Sorting.

Context {A : Type} (leb : A → A → bool).

Lemma sort_insert_perm x l : sort_insert leb x l ≡ₚ x :: l.
Proof.
  induction l as [|y l IH]; simpl; [done|].
  destruct (leb x y); [done|]. rewrite IH. apply Permutation_swap.
Qed.

Lemma sorted_perm l : sorted leb l ≡ₚ l.
Proof.
  induction l as [|x l IH]; simpl; [done|].
  rewrite sort_insert_perm. by f_equiv.
Qed.

Lemma elem_of_sorted x l : x ∈ sorted leb l ↔ x ∈ l.
Proof. by rewrite sorted_perm. Qed.

Hypothesis leb_total : ∀ x y, leb x y = true ∨ leb y x = true.
Hypothesis leb_trans : ∀ x y z, leb x y = true → leb y z = true → leb x z = true.

Lemma sort_insert_sorted x l :
  StronglySorted (λ a b, leb a b = true) l →
  StronglySorted (λ a b, leb a b = true) (sort_insert leb x l).
Proof.
  induction 1 as [|y l Hl IH Hy]; simpl.
  - repeat constructor.
  - destruct (leb x y) eqn:Hxy.
    + constructor; [by constructor|].
      constructor; [done|]. eapply Forall_impl; [exact Hy|]. eauto.
    + constructor; [done|].
      rewrite sort_insert_perm. constructor; [|done].
      destruct (leb_total x y); congruence.
Qed.

Lemma sorted_sorted l : StronglySorted (λ a b, leb a b = true) (sorted leb l).
Proof.
  induction l as [|x l IH]; simpl; [constructor|]. by apply sort_insert_sorted.
Qed.

End Sorting.

Lemma str_leb_total a b : str_leb a b = true ∨ str_leb b a = true.
Proof.
  revert b. induction a as [|x a IH]; intros [|y b]; simpl; auto.
  destruct (IH b) as [H|H]; rewrite H; cases_N; simpl; auto; lia.
Qed.

Lemma str_leb_trans a b c :
  str_leb a b = true → str_leb b c = true → str_leb a c = true.
Proof.
  revert b c. induction a as [|x a IH]; intros [|y b] [|z c]; simpl; try done.
  intros H1 H2.
  apply orb_true_iff in H1 as [H1|[H1 H1']%andb_true_iff];
    apply orb_true_iff in H2 as [H2|[H2 H2']%andb_true_iff];
    apply orb_true_iff;
    repeat match goal with
           | H : (_ <? _) = true |- _ => apply N.ltb_lt in H
           | H : (_ =? _) = true |- _ => apply N.eqb_eq in H
           end.
  - left. apply N.ltb_lt. lia.
  - left. apply N.ltb_lt. lia.
  - left. apply N.ltb_lt. lia.
  - right. apply andb_true_iff. split; [apply N.eqb_eq; lia|]. eauto.
Qed.

Lemma key_leb_total k1 k2 : key_leb k1 k2 = true ∨ key_leb k2 k1 = true.
Proof.
  unfold key_leb. destruct k1 as [n1 w1], k2 as [n2 w2]. simpl.
  destruct (Z.ltb_spec n1 n2), (Z.ltb_spec n2 n1),
    (Z.eqb_spec n1 n2), (Z.eqb_spec n2 n1); simpl; auto; try lia.
  apply str_leb_total.
Qed.

Lemma key_leb_trans k1 k2 k3 :
  key_leb k1 k2 = true → key_leb k2 k3 = true → key_leb k1 k3 = true.
Proof.
  unfold key_leb. destruct k1 as [n1 w1], k2 as [n2 w2], k3 as [n3 w3]. simpl.
  destruct (Z.ltb_spec n1 n2), (Z.ltb_spec n2 n3), (Z.ltb_spec n1 n3),
    (Z.eqb_spec n1 n2), (Z.eqb_spec n2 n3), (Z.eqb_spec n1 n3);
    simpl; auto; try lia.
  apply str_leb_trans.
Qed.

Lemma key_leb_count_word n1 w1 n2 w2 :
  key_leb (- Z.of_nat n1, w1)%Z (- Z.of_nat n2, w2)%Z = true
  ↔ count_word_order (n1, w1) (n2, w2).
Proof.
  unfold key_leb, count_word_order. cbn [fst snd].
  rewrite orb_true_iff, andb_true_iff, Z.ltb_lt, Z.eqb_eq.
  split; (intros [H|[H1 H2]]; [left|right; split]; [lia..|done]).
Qed.

Lemma StronglySorted_weaken {A} (R1 R2 : A → A → Prop) l :
  (∀ x y, R1 x y → R2 x y) → StronglySorted R1 l → StronglySorted R2 l.
Proof.
  intros HR. induction 1 as [|x l Hl IH Hx]; constructor; [done|].
  eapply Forall_impl; [exact Hx|]. auto.
Qed.

(** Sorting by the key [(-count, word)] puts a list in
    [count_word_order]. *)
Lemma sorted_count_word {A} (key : A → nat * str) (l : list A) :
  StronglySorted (λ x y, count_word_order (key x) (key y))
    (sorted (λ x y, key_leb (- Z.of_nat (key x).1, (key x).2)%Z
                            (- Z.of_nat (key y).1, (key y).2)%Z) l).
Proof.
  eapply StronglySorted_weaken; [|apply sorted_sorted].
  - intros x y H. apply key_leb_count_word in H.
    by destruct (key x), (key y).
  - intros x y. apply key_leb_total.
  - intros x y z. apply key_leb_trans.
Qed.

(** *** Lists *)

Lemma elem_of_map {A B} (f : A → B) (l : list A) (y : B) :
  y ∈ map f l ↔ ∃ x, y = f x ∧ x ∈ l.
Proof.
  rewrite list_elem_of_In, in_map_iff. setoid_rewrite list_elem_of_In.
  naive_solver.
Qed.

Lemma elem_of_lfilter {A} (p : A → bool) (l : list A) (x : A) :
  x ∈ List.filter p l ↔ x ∈ l ∧ p x = true.
Proof. by rewrite !list_elem_of_In, filter_In. Qed.

Lemma NoDup_map_perm {A B} (f : A → B) (l1 l2 : list A) :
  l1 ≡ₚ l2 → NoDup (map f l2) → NoDup (map f l1).
Proof. intros H. by rewrite (Permutation_map f H). Qed.

Lemma NoDup_map_filter {A B} (f : A → B) (p : A → bool) (l : list A) :
  NoDup (map f l) → NoDup (map f (List.filter p l)).
Proof.
  induction l as [|x l IH]; simpl; [done|].
  intros [Hx Hl]%NoDup_cons. destruct (p x); simpl; [|auto].
  apply NoDup_cons. split; [|auto].
  rewrite elem_of_map in *. intros (y & Hy & Hin).
  apply elem_of_lfilter in Hin as [Hin _]. eauto.
Qed.

Lemma StronglySorted_filter {A} (R : A → A → Prop) (p : A → bool) l :
  StronglySorted R l → StronglySorted R (List.filter p l).
Proof.
  induction 1 as [|x l Hl IH Hx]; simpl; [constructor|].
  destruct (p x); [|done]. constructor; [done|].
  apply Forall_forall. intros y Hy%elem_of_lfilter.
  rewrite Forall_forall in Hx. apply Hx. tauto.
Qed.


Lemma lookup_map {A B} (f : A → B) (l : list A) (i : nat) :
  map f l !! i = f <$> l !! i.
Proof. revert i. induction l as [|x l IH]; intros [|i]; simpl; auto. Qed.

Lemma flat_map_seq_lookup {A B} (g : A → list B) (f : nat → list B) (l : list A) k :
  (∀ i x, l !! i = Some x → f (k + i)%nat = g x) →
  flat_map f (seq k (length l)) = flat_map g l.
Proof.
  revert k. induction l as [|x l IH]; intros k Hf; simpl; [done|].
  f_equal.
  - rewrite <- (Hf 0%nat x) by done. f_equal. lia.
  - apply IH. intros i y Hi. rewrite <- (Hf (S i) y) by done. f_equal. lia.
Qed.

Lemma count_of_filter (p : str → bool) (w : str) (l : list str) :
  p w = true → count_of w (List.filter p l) = count_of w l.
Proof.
  intros Hw. unfold count_of. induction l as [|x l IH]; simpl; [done|].
  destruct (p x) eqn:Hx; simpl.
  - case_bool_decide; simpl; auto.
  - case_bool_decide; simpl; [congruence|auto].
Qed.

(** *** Counters *)

Lemma counter_get_incr w cs k :
  counter_get (counter_incr w cs) k
  = if decide (k = w) then S (counter_get cs k) else counter_get cs k.
Proof.
  induction cs as [|[k' n] cs IH]; simpl.
  - repeat case_decide; congruence.
  - repeat (case_decide; simpl; subst); try congruence.
Qed.

Lemma counter_keys_incr w cs k :
  k ∈ map fst (counter_incr w cs) ↔ k = w ∨ k ∈ map fst cs.
Proof.
  induction cs as [|[k' n] cs IH]; simpl.
  - rewrite list_elem_of_singleton, elem_of_nil. naive_solver.
  - case_decide; simpl; rewrite !elem_of_cons; [|rewrite IH]; naive_solver.
Qed.

Lemma counter_incr_NoDup w cs :
  NoDup (map fst cs) → NoDup (map fst (counter_incr w cs)).
Proof.
  induction cs as [|[k' n] cs IH]; simpl.
  - intros _. apply NoDup_singleton.
  - intros [Hk Hcs]%NoDup_cons. case_decide; simpl.
    + apply NoDup_cons. done.
    + apply NoDup_cons. split; [|auto].
      rewrite counter_keys_incr. naive_solver.
Qed.

Lemma counter_elem cs k n :
  NoDup (map fst cs) →
  (k, n) ∈ cs ↔ k ∈ map fst cs ∧ counter_get cs k = n.
Proof.
  induction cs as [|[k' n'] cs IH]; simpl.
  - intros _. rewrite !elem_of_nil. naive_solver.
  - intros [Hk Hcs]%NoDup_cons. rewrite !elem_of_cons, (IH Hcs).
    case_decide; subst; [|naive_solver].
    split.
    + intros [[= ->]|[? _]]; [auto|done].
    + intros [_ ->]. auto.
Qed.

Lemma counter_from_get cs l k :
  counter_get (foldl (λ cs w, counter_incr w cs) cs l) k
  = (counter_get cs k + count_of k l)%nat.
Proof.
  revert cs. unfold count_of.
  induction l as [|x l IH]; intros cs; simpl; [lia|].
  rewrite IH, counter_get_incr.
  case_decide; case_bool_decide; simpl; try congruence; lia.
Qed.

Lemma counter_from_keys cs l k :
  k ∈ map fst (foldl (λ cs w, counter_incr w cs) cs l) ↔ k ∈ map fst cs ∨ k ∈ l.
Proof.
  revert cs. induction l as [|x l IH]; intros cs; simpl.
  - rewrite elem_of_nil. naive_solver.
  - rewrite IH, counter_keys_incr, elem_of_cons. naive_solver.
Qed.

Lemma counter_from_NoDup cs l :
  NoDup (map fst cs) → NoDup (map fst (foldl (λ cs w, counter_incr w cs) cs l)).
Proof.
  revert cs. induction l as [|x l IH]; intros cs; simpl; [done|].
  intros H. by apply IH, counter_incr_NoDup.
Qed.

Lemma Counter_NoDup l : NoDup (map fst (Counter l)).
Proof. apply counter_from_NoDup. simpl. apply NoDup_nil_2. Qed.

Lemma Counter_get l k : counter_get (Counter l) k = count_of k l.
Proof. unfold Counter. by rewrite counter_from_get. Qed.

(** A counter holds each element of the list with its number of
    occurrences, and nothing else. *)
Lemma Counter_elem l k n : (k, n) ∈ Counter l ↔ k ∈ l ∧ n = count_of k l.
Proof.
  rewrite (counter_elem _ _ _ (Counter_NoDup l)), Counter_get.
  unfold Counter. rewrite counter_from_keys. simpl. rewrite elem_of_nil.
  naive_solver.
Qed.

(** *** The positions dictionary *)

Lemma dd_get_append w i d k :
  dd_get (dd_append w i d) k
  = if decide (k = w) then dd_get d k ++ [i] else dd_get d k.
Proof.
  induction d as [|[k' pos] d IH]; simpl.
  - repeat case_decide; congruence.
  - repeat (case_decide; simpl; subst); try congruence.
Qed.

Lemma dd_keys_append w i d k :
  k ∈ map fst (dd_append w i d) ↔ k = w ∨ k ∈ map fst d.
Proof.
  induction d as [|[k' pos] d IH]; simpl.
  - rewrite list_elem_of_singleton, elem_of_nil. naive_solver.
  - case_decide; simpl; rewrite !elem_of_cons; [|rewrite IH]; naive_solver.
Qed.

Lemma dd_append_NoDup w i d :
  NoDup (map fst d) → NoDup (map fst (dd_append w i d)).
Proof.
  induction d as [|[k' pos] d IH]; simpl.
  - intros _. apply NoDup_singleton.
  - intros [Hk Hd]%NoDup_cons. case_decide; simpl.
    + apply NoDup_cons. done.
    + apply NoDup_cons. split; [|auto].
      rewrite dd_keys_append. naive_solver.
Qed.

Lemma dd_append_nonempty w i d :
  (∀ k pos, (k, pos) ∈ d → pos ≠ []) →
  ∀ k pos, (k, pos) ∈ dd_append w i d → pos ≠ [].
Proof.
  induction d as [|[k' pos'] d IH]; simpl; intros Hd k pos.
  - intros [= -> ->]%list_elem_of_singleton. done.
  - case_decide; rewrite elem_of_cons.
    + intros [[= -> ->]|Hin]; [by destruct pos'|].
      apply (Hd k). by right.
    + intros [[= -> ->]|Hin].
      * apply (Hd k'). by left.
      * eapply IH; [|exact Hin]. intros k0 p0 H0. apply (Hd k0). by right.
Qed.

Lemma dd_elem d k pos :
  NoDup (map fst d) →
  (k, pos) ∈ d ↔ k ∈ map fst d ∧ dd_get d k = pos.
Proof.
  induction d as [|[k' pos'] d IH]; simpl.
  - intros _. rewrite !elem_of_nil. naive_solver.
  - intros [Hk Hd]%NoDup_cons. rewrite !elem_of_cons, (IH Hd).
    case_decide; subst; [|naive_solver].
    split.
    + intros [[= ->]|[? _]]; [auto|done].
    + intros [_ ->]. auto.
Qed.

Lemma dd_get_key d k : dd_get d k ≠ [] → k ∈ map fst d.
Proof.
  induction d as [|[k' pos'] d IH]; simpl; [done|].
  case_decide; subst; rewrite elem_of_cons; auto.
Qed.

(** *** Adjacent repetitions *)

Lemma adjacent_dup_lt ws i w : adjacent_dup ws i w → (i < length ws)%nat.
Proof. intros [H _]. by apply lookup_lt_Some in H. Qed.

Lemma adjacent_dup_snoc pre w k w' :
  adjacent_dup (pre ++ [w]) k w'
  ↔ adjacent_dup pre k w' ∨ (k = length pre ∧ w' = w ∧ last pre = Some w).
Proof.
  unfold adjacent_dup. split.
  - intros [Hk (j & -> & Hj)].
    destruct (decide (S j < length pre)%nat) as [Hlt|Hge].
    + left. rewrite lookup_app_l in Hk by done.
      rewrite lookup_app_l in Hj by lia. eauto.
    + right. pose proof (lookup_lt_Some _ _ _ Hk) as Hlen.
      rewrite length_app in Hlen. simpl in Hlen.
      assert (S j = length pre) as Heq by lia.
      rewrite Heq, list_lookup_middle in Hk by done.
      injection Hk as <-.
      rewrite lookup_app_l in Hj by lia.
      rewrite last_lookup, <- Heq. simpl. done.
  - intros [[Hk (j & -> & Hj)]|(-> & -> & Hlast)].
    + split; [by apply lookup_app_l_Some|].
      exists j. split; [done|]. by apply lookup_app_l_Some.
    + rewrite last_lookup in Hlast.
      destruct pre as [|x pre]; [done|]. simpl in Hlast.
      split; [by apply list_lookup_middle|].
      exists (length pre). split; [done|].
      by apply lookup_app_l_Some.
Qed.

Lemma positions_of_step pre w d :
  positions_of pre d →
  positions_of (pre ++ [w])
    (if decide (last pre = Some w) then dd_append w (length pre) d else d).
Proof.
  intros (Hnd & Hne & Hsorted & Hpos).
  case_decide as Hlast.
  - split; [by apply dd_append_NoDup|].
    split; [by apply dd_append_nonempty|]. split.
    + intros w'. rewrite dd_get_append. case_decide; [|done].
      apply StronglySorted_app. split; [|split]; [|done|repeat constructor].
      intros x y Hx ->%list_elem_of_singleton.
      apply Hpos in Hx. by apply adjacent_dup_lt in Hx.
    + intros w' k. rewrite dd_get_append, adjacent_dup_snoc.
      case_decide; subst.
      * rewrite elem_of_app, list_elem_of_singleton, Hpos. naive_solver.
      * rewrite Hpos. naive_solver.
  - split; [done|]. split; [done|]. split; [done|].
    intros w' k. rewrite adjacent_dup_snoc, Hpos. naive_solver.
Qed.

Lemma duplicate_scan_positions pre rest d :
  positions_of pre d →
  positions_of (pre ++ rest) (duplicate_scan (last pre) (length pre) rest d).
Proof.
  revert pre d. induction rest as [|w rest IH]; intros pre d Hd; simpl.
  - by rewrite app_nil_r.
  - replace (pre ++ w :: rest) with ((pre ++ [w]) ++ rest)
      by (by rewrite <- app_assoc).
    replace (Some w) with (last (pre ++ [w])) at 1 by apply last_snoc.
    replace (S (length pre)) with (length (pre ++ [w]))
      by (rewrite length_app; simpl; lia).
    apply IH. by apply positions_of_step.
Qed.

Lemma duplicate_scan_spec ws :
  positions_of ws (duplicate_scan None 0 ws []).
Proof.
  apply (duplicate_scan_positions [] ws []).
  split; [apply NoDup_nil_2|]. split; [by intros ?? ?%elem_of_nil|].
  split; [constructor|].
  intros w k. simpl. rewrite elem_of_nil. unfold adjacent_dup.
  split; [done|]. by intros [? _].
Qed.

Section Properties.

Context (U : UnicodeData).
Context (textstat : TextStat).
Context (SpellChecker : str → option SpellCheckerT).

(** *** The matcher *)

Lemma drop_while_head p s :
  match drop_while p s with [] => True | c :: _ => p c = false end.
Proof.
  induction s as [|c s IH]; simpl; [done|].
  destruct (p c) eqn:E; [done|]. simpl. done.
Qed.

Lemma take_drop_while p s : take_while p s ++ drop_while p s = s.
Proof.
  induction s as [|c s IH]; simpl; [done|].
  destruct (p c); simpl; [by f_equal|done].
Qed.

Lemma drop_while_length p s : (length (drop_while p s) ≤ length s)%nat.
Proof.
  induction s as [|c s IH]; simpl; [done|]. destruct (p c); simpl; lia.
Qed.

Lemma take_while_all p s : Forall (λ c, p c = true) (take_while p s).
Proof.
  induction s as [|c s IH]; simpl; [constructor|].
  destruct (p c) eqn:E; by constructor.
Qed.

Lemma head_app_cons {A} (x : A) (l k : list A) : head ((x :: l) ++ k) = Some x.
Proof. done. Qed.

Lemma head_app_nonempty {A} (l k : list A) : l ≠ [] → head (l ++ k) = head l.
Proof. by destruct l. Qed.

Lemma run_ends_nonempty p b s : run_ends p b s ≠ [].
Proof. destruct s; simpl; [done|]. by destruct (if p n then _ else _). Qed.

Lemma head_run_ends p b s :
  head (run_ends p b s) = Some (rev (take_while p s) ++ b, drop_while p s).
Proof.
  revert b. induction s as [|c s IH]; intros b; simpl; [done|].
  destruct (p c); [|done].
  rewrite head_app_nonempty by apply run_ends_nonempty.
  rewrite IH. simpl. by rewrite <- app_assoc.
Qed.

Lemma star_ends_chr p fuel b s :
  (length s ≤ fuel)%nat → star_ends (re_ends U (Chr p)) fuel b s = run_ends p b s.
Proof.
  revert b s. induction fuel as [|fuel IH]; intros b [|c s] Hlen; simpl in *;
    try done; try lia.
  destruct (p c); simpl; [|done].
  rewrite app_nil_r.
  destruct (Nat.ltb_spec (length s) (S (length s))); [|lia].
  rewrite IH by lia. done.
Qed.

Lemma re_ends_plus_chr p b s :
  re_ends U (Plus (Chr p)) b s
  = match s with
    | c :: s' => if p c then run_ends p (c :: b) s' else []
    | [] => []
    end.
Proof.
  unfold Plus. simpl. destruct s as [|c s]; simpl; [done|].
  destruct (p c); simpl; [|done]. rewrite app_nil_r.
  by apply star_ends_chr.
Qed.

Lemma head_plus_chr p b s :
  head (re_ends U (Plus (Chr p)) b s)
  = match s with
    | c :: s' =>
        if p c then Some (rev (take_while p s') ++ c :: b, drop_while p s')
        else None
    | [] => None
    end.
Proof.
  rewrite re_ends_plus_chr. destruct s as [|c s]; [done|].
  destruct (p c); [|done]. apply head_run_ends.
Qed.

Lemma re_search_unfold r b s :
  re_search U r b s
  = match head (re_ends U r b s) with
    | Some (b', s') => Some ([], take (length s - length s') s, (b', s'))
    | None =>
        match s with
        | [] => None
        | c :: s0 =>
            match re_search U r (c :: b) s0 with
            | Some (gap, m, p) => Some (c :: gap, m, p)
            | None => None
            end
        end
    end.
Proof. by destruct s. Qed.

(** What [re.sub], [re.findall] and [re.split] make of a text, given what
    one search does to a scanner [F] of the text. *)
Section Pieces.

Context (r : regex) (Inv : str → str → Prop).

Lemma re_pieces_sub (repl : str) (F : str → str) :
  (∀ b s, Inv b s →
     match re_search U r b s with
     | None => F s = s
     | Some (gap, m, (b', s')) =>
         m ≠ [] ∧ (length s' < length s)%nat ∧
         F s = gap ++ repl ++ F s' ∧ Inv b' s'
     end) →
  ∀ s, Inv [] s → re_sub U r repl s = F s.
Proof.
  intros Hstep s Hs. unfold re_sub.
  assert (H : ∀ fuel b s, (length s ≤ fuel)%nat → Inv b s →
    concat (map (λ gm : str * str, gm.1 ++ repl) (re_pieces U r fuel b s).1)
      ++ (re_pieces U r fuel b s).2 = F s); [|by apply H].
  clear s Hs. induction fuel as [|fuel IH]; intros b s Hlen Hinv;
    specialize (Hstep b s Hinv); simpl.
  - destruct s; [|simpl in Hlen; lia].
    destruct (re_search U r b []) as [[[gap m] [b' s']]|];
      [simpl in Hstep; lia|done].
  - destruct (re_search U r b s) as [[[gap m] [b' s']]|]; [|done].
    destruct Hstep as (Hm & Hlt & HF & Hinv').
    destruct m as [|c m]; [done|]. simpl.
    rewrite <- app_assoc, IH by (done || lia). by rewrite HF, <- app_assoc.
Qed.

Lemma re_pieces_findall (F : str → list str) :
  (∀ b s, Inv b s →
     match re_search U r b s with
     | None => F s = []
     | Some (gap, m, (b', s')) =>
         m ≠ [] ∧ (length s' < length s)%nat ∧
         F s = m :: F s' ∧ Inv b' s'
     end) →
  ∀ s, Inv [] s → re_findall U r s = F s.
Proof.
  intros Hstep s Hs. unfold re_findall.
  assert (H : ∀ fuel b s, (length s ≤ fuel)%nat → Inv b s →
    map snd (re_pieces U r fuel b s).1 = F s); [|by apply H].
  clear s Hs. induction fuel as [|fuel IH]; intros b s Hlen Hinv;
    specialize (Hstep b s Hinv); simpl.
  - destruct s; [|simpl in Hlen; lia].
    destruct (re_search U r b []) as [[[gap m] [b' s']]|];
      [simpl in Hstep; lia|done].
  - destruct (re_search U r b s) as [[[gap m] [b' s']]|]; [|done].
    destruct Hstep as (Hm & Hlt & HF & Hinv').
    destruct m as [|c m]; [done|]. simpl.
    rewrite IH by (done || lia). by rewrite HF.
Qed.

Lemma re_pieces_split (F : str → list str) :
  (∀ b s, Inv b s →
     match re_search U r b s with
     | None => F s = [s]
     | Some (gap, m, (b', s')) =>
         m ≠ [] ∧ (length s' < length s)%nat ∧
         F s = gap :: F s' ∧ Inv b' s'
     end) →
  ∀ s, Inv [] s → re_split U r s = F s.
Proof.
  intros Hstep s Hs. unfold re_split.
  assert (H : ∀ fuel b s, (length s ≤ fuel)%nat → Inv b s →
    map fst (re_pieces U r fuel b s).1 ++ [(re_pieces U r fuel b s).2] = F s);
    [|by apply H].
  clear s Hs. induction fuel as [|fuel IH]; intros b s Hlen Hinv;
    specialize (Hstep b s Hinv); simpl.
  - destruct s; [|simpl in Hlen; lia].
    destruct (re_search U r b []) as [[[gap m] [b' s']]|];
      [simpl in Hstep; lia|done].
  - destruct (re_search U r b s) as [[[gap m] [b' s']]|]; [|done].
    destruct Hstep as (Hm & Hlt & HF & Hinv').
    destruct m as [|c m]; [done|]. simpl.
    rewrite IH by (done || lia). by rewrite HF.
Qed.

End Pieces.

(** *** [re.sub] of runs of a class *)

Lemma re_sub_runs_in_run cls s :
  re_sub_runs cls true s = re_sub_runs cls false (drop_while cls s).
Proof.
  induction s as [|c s IH]; simpl; [done|].
  destruct (cls c) eqn:E; [done|]. simpl. by rewrite E.
Qed.

Lemma take_match_nonempty (c : N) (s s' : str) :
  (length s' ≤ length s)%nat → take (length (c :: s) - length s') (c :: s) ≠ [].
Proof.
  intros H. simpl. replace (S (length s) - length s')%nat
    with (S (length s - length s')) by lia. done.
Qed.

Lemma sub_runs_search cls s b :
  match re_search U (Plus (Chr cls)) b s with
  | None => re_sub_runs cls false s = s
  | Some (gap, m, (b', s')) =>
      m ≠ [] ∧ (length s' < length s)%nat ∧
      re_sub_runs cls false s = gap ++ [c_space] ++ re_sub_runs cls false s' ∧ True
  end.
Proof.
  revert b. induction s as [|c s IH]; intros b;
    rewrite re_search_unfold, head_plus_chr; [done|].
  destruct (cls c) eqn:Hc.
  - pose proof (drop_while_length cls s).
    split; [by apply take_match_nonempty|]. split; [simpl; lia|].
    split; [|done]. simpl. rewrite Hc. f_equal. apply re_sub_runs_in_run.
  - specialize (IH (c :: b)).
    destruct (re_search U (Plus (Chr cls)) (c :: b) s) as [[[gap m] [b' s']]|].
    + destruct IH as (Hm & Hlt & HF & _).
      split; [done|]. split; [simpl; lia|]. split; [|done].
      simpl. rewrite Hc. by rewrite HF.
    + simpl. rewrite Hc. by rewrite IH.
Qed.

(** [re.sub(r"[...]+", " ", s)] is the one-pass substitution. *)
Lemma re_sub_plus_chr cls s :
  re_sub U (Plus (Chr cls)) [c_space] s = re_sub_runs cls false s.
Proof.
  apply (re_pieces_sub (Plus (Chr cls)) (λ _ _, True)); [|done].
  intros b s' _. apply sub_runs_search.
Qed.

Lemma take_match (m s' : str) : take (length (m ++ s') - length s') (m ++ s') = m.
Proof.
  rewrite length_app. replace (length m + length s' - length s')%nat
    with (length m) by lia. by rewrite take_app_length.
Qed.

Lemma take_match_run p (c : N) (s : str) :
  take (length (c :: s) - length (drop_while p s)) (c :: s) = c :: take_while p s.
Proof.
  pose proof (take_match (c :: take_while p s) (drop_while p s)) as H.
  cbn [app] in H. by rewrite take_drop_while in H.
Qed.

Lemma head_rev_snoc (P : N → Prop) (l b : str) (c : N) :
  Forall P l → P c →
  match rev l ++ c :: b with x :: _ => P x | [] => False end.
Proof.
  intros Hl Hc. destruct l as [|x l _] using rev_ind; simpl; [done|].
  rewrite rev_app_distr. simpl. apply Forall_app in Hl as [_ Hx].
  by inversion Hx.
Qed.

(** *** [re.split] at the sentence boundaries *)

Lemma head_sentence_boundary b s :
  head (re_ends U (sentence_boundary_re U) b s)
  = if is_terminator_at b then head (re_ends U (Plus (Chr (isspace U))) b s)
    else None.
Proof.
  unfold sentence_boundary_re. cbn [re_ends]. unfold is_terminator_at.
  destruct b as [|c0 b]; [done|].
  destruct (is_terminator c0); [|done].
  cbn [flat_map fst snd]. by rewrite app_nil_r.
Qed.

Lemma isspace_not_terminator c : isspace U c = true → is_terminator c = false.
Proof. char_class. Qed.

Lemma re_split_in_separator s :
  re_split_from U InSeparator [] s
  = re_split_from U (InPiece false) [] (drop_while (isspace U) s).
Proof.
  induction s as [|c s IH]; simpl; [done|].
  destruct (isspace U c) eqn:E; [done|]. simpl. done.
Qed.

Lemma split_search s b cur :
  match re_search U (sentence_boundary_re U) b s with
  | None =>
      re_split_from U (InPiece (is_terminator_at b)) cur s = [rev cur ++ s]
  | Some (gap, m, (b', s')) =>
      m ≠ [] ∧ (length s' < length s)%nat ∧
      re_split_from U (InPiece (is_terminator_at b)) cur s
      = (rev cur ++ gap) :: re_split_from U (InPiece false) [] s' ∧
      is_terminator_at b' = false
  end.
Proof.
  revert b cur. induction s as [|c s IH]; intros b cur;
    rewrite re_search_unfold, head_sentence_boundary, head_plus_chr.
  - simpl. destruct (is_terminator_at b); by rewrite app_nil_r.
  - assert (Hskip :
      is_terminator_at b && isspace U c = false →
      match
        match re_search U (sentence_boundary_re U) (c :: b) s with
        | Some (gap, m, p) => Some (c :: gap, m, p)
        | None => None
        end
      with
      | None =>
          re_split_from U (InPiece (is_terminator_at b)) cur (c :: s)
          = [rev cur ++ c :: s]
      | Some (gap, m, (b', s')) =>
          m ≠ [] ∧ (length s' < length (c :: s))%nat ∧
          re_split_from U (InPiece (is_terminator_at b)) cur (c :: s)
          = (rev cur ++ gap) :: re_split_from U (InPiece false) [] s' ∧
          is_terminator_at b' = false
      end).
    { intros Hno. specialize (IH (c :: b) (c :: cur)).
      destruct (re_search U (sentence_boundary_re U) (c :: b) s)
        as [[[gap m] [b' s']]|]; simpl in *; rewrite Hno.
      - destruct IH as (Hm & Hlt & HF & Hb').
        split; [done|]. split; [lia|]. split; [|done].
        by rewrite HF, <- app_assoc.
      - by rewrite IH, <- app_assoc. }
    destruct (is_terminator_at b) eqn:Hterm; [|by apply Hskip].
    destruct (isspace U c) eqn:Hsp; [|by apply Hskip].
    pose proof (drop_while_length (isspace U) s).
    split; [by apply take_match_nonempty|]. split; [simpl; lia|]. split.
    + simpl. rewrite Hsp. simpl. rewrite app_nil_r. f_equal.
      apply re_split_in_separator.
    + pose proof (head_rev_snoc (λ x, isspace U x = true)
                    (take_while (isspace U) s) b c
                    (take_while_all _ _) Hsp) as Hhead.
      unfold is_terminator_at.
      destruct (rev (take_while (isspace U) s) ++ c :: b); [done|].
      by apply isspace_not_terminator.
Qed.

(** [re.split(r"(?<=[.!?])\s+", s)] is the one-pass split. *)
Lemma re_split_sentence_boundary s :
  re_split U (sentence_boundary_re U) s = re_split_sentences U s.
Proof.
  apply (re_pieces_split (sentence_boundary_re U)
           (λ b _, is_terminator_at b = false)); [|done].
  intros b s' Hb. pose proof (split_search s' b []) as H.
  rewrite Hb in H. exact H.
Qed.

(** *** [re.findall] of the words *)

Lemma is_word_at_drop_while s : is_word_at U (drop_while (is_word U) s) = false.
Proof.
  pose proof (drop_while_head (is_word U) s) as H.
  by destruct (drop_while (is_word U) s).
Qed.

Lemma head_word_re b s :
  head (re_ends U (word_re U) b s)
  = match s with
    | c :: s0 =>
        if is_word U c && negb (is_word_at U b)
        then Some (rev (take_while (is_word U) s0) ++ c :: b,
                   drop_while (is_word U) s0)
        else None
    | [] => None
    end.
Proof.
  unfold word_re.
  change (re_ends U (Seq WordBoundary ?r) b s)
    with (flat_map (λ p : str * str, re_ends U r p.1 p.2) (re_ends U WordBoundary b s)).
  cbn [re_ends].
  destruct s as [|c s0].
  - destruct (xorb (is_word_at U b) (is_word_at U [])); [|done].
    cbn [flat_map fst snd]. rewrite re_ends_plus_chr. done.
  - cbn [is_word_at]. destruct (is_word U c) eqn:Hc.
    + destruct (is_word_at U b) eqn:Hb; [done|]. simpl xorb. cbn [flat_map fst snd].
      rewrite app_nil_r.
      change (re_ends U (Seq (Plus (Chr (is_word U))) WordBoundary) b (c :: s0))
        with (flat_map (λ p : str * str, re_ends U WordBoundary p.1 p.2)
                (re_ends U (Plus (Chr (is_word U))) b (c :: s0))).
      rewrite re_ends_plus_chr, Hc.
      pose proof (head_run_ends (is_word U) (c :: b) s0) as Hhead.
      destruct (run_ends (is_word U) (c :: b) s0) as [|[b1 s1] tl]; [done|].
      injection Hhead as -> ->. cbn [flat_map fst snd re_ends].
      rewrite is_word_at_drop_while.
      pose proof (head_rev_snoc (λ x, is_word U x = true)
                    (take_while (is_word U) s0) b c
                    (take_while_all _ _) Hc) as Hw.
      unfold is_word_at at 1.
      destruct (rev (take_while (is_word U) s0) ++ c :: b) eqn:E; [done|].
      rewrite Hw. done.
    + simpl andb. destruct (xorb (is_word_at U b) false); [|done].
      cbn [flat_map fst snd]. rewrite app_nil_r.
      change (re_ends U (Seq (Plus (Chr (is_word U))) WordBoundary) b (c :: s0))
        with (flat_map (λ p : str * str, re_ends U WordBoundary p.1 p.2)
                (re_ends U (Plus (Chr (is_word U))) b (c :: s0))).
      rewrite re_ends_plus_chr, Hc. done.
Qed.

Lemma findall_words_run acc s :
  acc ≠ [] →
  re_findall_words U acc s
  = (rev acc ++ take_while (is_word U) s)
      :: re_findall_words U [] (drop_while (is_word U) s).
Proof.
  revert acc. induction s as [|c s IH]; intros acc Hacc; simpl.
  - destruct acc; [done|]. by rewrite app_nil_r.
  - destruct (is_word U c) eqn:Hc.
    + rewrite IH by done. simpl. by rewrite <- app_assoc.
    + simpl. rewrite Hc, app_nil_r. by destruct acc.
Qed.

Lemma words_search s b :
  is_word_at U b && is_word_at U s = false →
  match re_search U (word_re U) b s with
  | None => re_findall_words U [] s = []
  | Some (gap, m, (b', s')) =>
      m ≠ [] ∧ (length s' < length s)%nat ∧
      re_findall_words U [] s = m :: re_findall_words U [] s' ∧
      is_word_at U b' && is_word_at U s' = false
  end.
Proof.
  revert b. induction s as [|c s IH]; intros b Hinv;
    rewrite re_search_unfold, head_word_re; [done|].
  simpl in Hinv. destruct (is_word U c) eqn:Hc.
  - rewrite andb_true_r in Hinv. rewrite Hinv. cbn [andb negb].
    pose proof (drop_while_length (is_word U) s).
    split; [by apply take_match_nonempty|]. split; [simpl; lia|]. split.
    + rewrite take_match_run. cbn [re_findall_words]. rewrite Hc.
      by rewrite findall_words_run.
    + by rewrite is_word_at_drop_while, andb_false_r.
  - simpl. specialize (IH (c :: b)). simpl in IH. rewrite Hc in IH.
    specialize (IH eq_refl).
    destruct (re_search U (word_re U) (c :: b) s) as [[[gap m] [b' s']]|].
    + destruct IH as (Hm & Hlt & HF & Hinv').
      split; [done|]. split; [simpl; lia|]. rewrite Hc. done.
    + by rewrite Hc.
Qed.

(** [re.findall(r"\b\w+\b", s)] is the one-pass scan for runs of word
    characters. *)
Lemma re_findall_word_re s :
  re_findall U (word_re U) s = re_findall_words U [] s.
Proof.
  apply (re_pieces_findall (word_re U)
           (λ b s, is_word_at U b && is_word_at U s = false)); [|done].
  intros b s'. apply words_search.
Qed.

(** *** [re.findall] of the tokens *)

Lemma star_ends_nonempty step fuel b s : star_ends step fuel b s ≠ [].
Proof. destruct fuel; simpl; [done|]. by destruct (flat_map _ _). Qed.

Lemma re_ends_joined b s :
  re_ends U (Seq (Chr is_joiner) (Plus (Chr ascii_letter))) b s
  = match s with
    | j :: c :: s' =>
        if is_joiner j && ascii_letter c
        then run_ends ascii_letter (c :: j :: b) s' else []
    | _ => []
    end.
Proof.
  change (re_ends U (Seq ?r1 ?r2) b s)
    with (flat_map (λ p : str * str, re_ends U r2 p.1 p.2) (re_ends U r1 b s)).
  destruct s as [|j s]; [done|]. cbn [re_ends].
  destruct (is_joiner j); [|by destruct s].
  cbn [flat_map fst snd]. rewrite app_nil_r, re_ends_plus_chr.
  destruct s as [|c s']; [done|]. by destruct (ascii_letter c).
Qed.

Lemma head_star_joined fuel b s :
  (length s ≤ fuel)%nat →
  head (star_ends (re_ends U (Seq (Chr is_joiner) (Plus (Chr ascii_letter))))
                  fuel b s)
  = Some (token_tail fuel b s).
Proof.
  revert b s. induction fuel as [|fuel IH]; intros b s Hlen; [done|].
  cbn [star_ends token_tail]. rewrite re_ends_joined.
  destruct s as [|j [|c s']]; [done..|].
  destruct (is_joiner j && ascii_letter c); [|done].
  pose proof (head_run_ends ascii_letter (c :: j :: b) s') as Hhead.
  destruct (run_ends ascii_letter (c :: j :: b) s') as [|[b1 s1] tl]; [done|].
  injection Hhead as -> ->. cbn [flat_map fst snd].
  pose proof (drop_while_length ascii_letter s') as Hdw.
  destruct (Nat.ltb_spec (length (drop_while ascii_letter s'))
              (length (j :: c :: s'))) as [_|Hge]; [|simpl in Hge; lia].
  rewrite <- !app_assoc.
  rewrite head_app_nonempty by apply star_ends_nonempty.
  apply IH. simpl in Hlen. lia.
Qed.

Lemma head_token_re b s :
  head (re_ends U token_re b s)
  = match s with
    | c :: s0 =>
        if ascii_letter c
        then Some (token_tail (length (drop_while ascii_letter s0))
                     (rev (take_while ascii_letter s0) ++ c :: b)
                     (drop_while ascii_letter s0))
        else None
    | [] => None
    end.
Proof.
  unfold token_re.
  change (re_ends U (Seq ?r1 ?r2) b s)
    with (flat_map (λ p : str * str, re_ends U r2 p.1 p.2) (re_ends U r1 b s)).
  rewrite re_ends_plus_chr. destruct s as [|c s0]; [done|].
  destruct (ascii_letter c); [|done].
  pose proof (head_run_ends ascii_letter (c :: b) s0) as Hhead.
  destruct (run_ends ascii_letter (c :: b) s0) as [|[b1 s1] tl]; [done|].
  injection Hhead as -> ->. cbn [flat_map fst snd re_ends].
  rewrite head_app_nonempty by apply star_ends_nonempty.
  by apply head_star_joined.
Qed.

(** The text before the position only grows. *)
Lemma token_tail_base fuel b s :
  token_tail fuel b s
  = ((token_tail fuel [] s).1 ++ b, (token_tail fuel [] s).2).
Proof.
  revert b s. induction fuel as [|fuel IH]; intros b s; [done|].
  cbn [token_tail]. destruct s as [|j [|c s']]; [done..|].
  destruct (is_joiner j && ascii_letter c); [|done].
  rewrite (IH (rev (take_while ascii_letter s') ++ c :: j :: b)).
  rewrite (IH (rev (take_while ascii_letter s') ++ [c; j])).
  cbn [fst snd]. by rewrite <- !app_assoc.
Qed.

Lemma token_tail_shape fuel s :
  ∃ m, s = m ++ (token_tail fuel [] s).2 ∧ (token_tail fuel [] s).1 = rev m.
Proof.
  revert s. induction fuel as [|fuel IH]; intros s; [by exists []|].
  cbn [token_tail]. destruct s as [|j [|c s']]; [by exists []..|].
  destruct (is_joiner j && ascii_letter c); [|by exists []].
  rewrite token_tail_base. cbn [fst snd].
  destruct (IH (drop_while ascii_letter s')) as (m & Hs & Hm).
  exists (j :: c :: take_while ascii_letter s' ++ m). split.
  - cbn [app]. do 2 f_equal. rewrite <- app_assoc, <- Hs.
    by rewrite take_drop_while.
  - rewrite Hm. simpl. rewrite rev_app_distr, <- !app_assoc. done.
Qed.

Lemma findall_tokens_letters acc s :
  re_findall_tokens (InToken acc) s
  = re_findall_tokens (InToken (rev (take_while ascii_letter s) ++ acc))
      (drop_while ascii_letter s).
Proof.
  revert acc. induction s as [|c s IH]; intros acc; simpl; [done|].
  destruct (ascii_letter c) eqn:Hc; [|simpl; by rewrite Hc].
  rewrite IH. simpl. by rewrite <- app_assoc.
Qed.

Lemma findall_tokens_tail fuel acc s :
  (length s ≤ fuel)%nat →
  match s with c :: _ => ascii_letter c = false | [] => True end →
  re_findall_tokens (InToken acc) s
  = rev (token_tail fuel acc s).1
      :: re_findall_tokens Outside (token_tail fuel acc s).2.
Proof.
  revert acc s. induction fuel as [|fuel IH]; intros acc s Hlen Hhead.
  - destruct s; [done|simpl in Hlen; lia].
  - destruct s as [|j [|c s']]; cbn [token_tail].
    + done.
    + simpl. rewrite Hhead. by destruct (is_joiner j).
    + cbn [re_findall_tokens]. rewrite Hhead.
      destruct (is_joiner j) eqn:Hj; cbn [andb].
      * destruct (ascii_letter c) eqn:Hc.
        -- rewrite findall_tokens_letters.
           pose proof (drop_while_length ascii_letter s').
           apply IH; [simpl in Hlen; lia|].
           apply (drop_while_head ascii_letter s').
        -- cbn [fst snd re_findall_tokens]. by rewrite Hhead, Hc.
      * cbn [fst snd re_findall_tokens]. by rewrite Hhead.
Qed.

Lemma tokens_search s b :
  match re_search U token_re b s with
  | None => re_findall_tokens Outside s = []
  | Some (gap, m, (b', s')) =>
      m ≠ [] ∧ (length s' < length s)%nat ∧
      re_findall_tokens Outside s = m :: re_findall_tokens Outside s' ∧ True
  end.
Proof.
  revert b. induction s as [|c s IH]; intros b;
    rewrite re_search_unfold, head_token_re; [done|].
  destruct (ascii_letter c) eqn:Hc.
  - set (tw := take_while ascii_letter s).
    set (dw := drop_while ascii_letter s).
    rewrite (token_tail_base _ (rev tw ++ c :: b)).
    destruct (token_tail_shape (length dw) dw) as (m & Hdw & Hm).
    set (s' := (token_tail (length dw) [] dw).2) in *.
    assert (Hs : c :: s = (c :: tw ++ m) ++ s').
    { cbn [app]. rewrite <- app_assoc, <- Hdw. unfold tw, dw.
      by rewrite take_drop_while. }
    assert (Htake : take (length (c :: s) - length s') (c :: s) = c :: tw ++ m).
    { rewrite Hs. apply take_match. }
    rewrite Htake.
    split; [|split; [|split; [|done]]].
    + done.
    + rewrite Hs, length_app. simpl. lia.
    + cbn [re_findall_tokens]. rewrite Hc, findall_tokens_letters.
      fold tw dw.
      rewrite (findall_tokens_tail (length dw)); [|done|apply drop_while_head].
      rewrite (token_tail_base _ (rev tw ++ [c])). cbn [fst snd]. fold s'.
      rewrite Hm. f_equal.
      rewrite !rev_app_distr, !rev_involutive. done.
  - specialize (IH (c :: b)).
    destruct (re_search U token_re (c :: b) s) as [[[gap m] [b' s']]|].
    + destruct IH as (Hm & Hlt & HF & _).
      split; [done|]. split; [simpl; lia|]. simpl. by rewrite Hc.
    + simpl. by rewrite Hc.
Qed.

(** [re.findall(r"[A-Za-z]+(?:[-'][A-Za-z]+)*", s)] is the one-pass
    scan. *)
Lemma re_findall_token_re s :
  re_findall U token_re s = re_findall_tokens Outside s.
Proof.
  apply (re_pieces_findall token_re (λ _ _, True)); [|done].
  intros b s' _. apply tokens_search.
Qed.

(** *** The segmenter, in one pass *)

Lemma tokenize_scan text : tokenize U text = re_findall_tokens Outside text.
Proof. apply re_findall_token_re. Qed.

Lemma split_sentences_scan text :
  split_sentences U text
  = List.filter (λ s, match s with [] => false | _ => true end)
      match strip U text with
      | [] => []
      | _ => re_split_sentences U (strip U text)
      end.
Proof. unfold split_sentences. by rewrite re_split_sentence_boundary. Qed.

Lemma normalize_sentence_scan s :
  normalize_sentence U s
  = strip U (re_sub_runs (isspace U) false
               (re_sub_runs (is_separator U) false (lower U s))).
Proof.
  unfold normalize_sentence, spaces_re, separators_re.
  by rewrite !re_sub_plus_chr.
Qed.

(** *** Characters *)

Lemma isspace_not_letter c : isspace U c = true → ascii_letter c = false.
Proof. char_class. Qed.

(** *** Stripping *)

Lemma drop_while_all p s : forallb p s = true → drop_while p s = [].
Proof.
  induction s as [|c s IH]; simpl; [done|].
  intros [Hc Hs]%andb_true_iff. rewrite Hc. auto.
Qed.

Lemma drop_while_nil_all p s : drop_while p s = [] → forallb p s = true.
Proof.
  induction s as [|c s IH]; simpl; [done|].
  destruct (p c); simpl; [auto|done].
Qed.

Lemma strip_blank s : forallb (isspace U) s = true → strip U s = [].
Proof.
  intros H. unfold strip, rstrip, lstrip. by rewrite (drop_while_all _ _ H).
Qed.

Lemma strip_nil_blank s : strip U s = [] → forallb (isspace U) s = true.
Proof.
  unfold strip, rstrip, lstrip. intros H.
  apply (f_equal (@rev N)) in H. rewrite rev_involutive in H. simpl in H.
  apply drop_while_nil_all in H. rewrite forallb_forall in H.
  pose proof (drop_while_head (isspace U) s) as Hhead.
  destruct (drop_while (isspace U) s) as [|c y] eqn:E.
  - by apply drop_while_nil_all.
  - rewrite (H c) in Hhead; [done|]. apply in_rev. rewrite rev_involutive. by left.
Qed.

(** *** Tokenizing *)

Lemma tokenize_no_letter s :
  forallb (λ c, negb (ascii_letter c)) s = true → tokenize U s = [].
Proof.
  rewrite tokenize_scan. induction s as [|c s IH]; simpl; [done|].
  intros [Hc Hs]%andb_true_iff. apply negb_true_iff in Hc. rewrite Hc. auto.
Qed.

Lemma tokenize_blank s : forallb (isspace U) s = true → tokenize U s = [].
Proof.
  intros H. apply tokenize_no_letter.
  apply forallb_forall. intros c Hc.
  rewrite forallb_forall in H. apply negb_true_iff, isspace_not_letter. auto.
Qed.

(** C3. Text that is empty or all white space has no sentences and no
    tokens, and [analyze_readability] answers, without consulting
    [textstat], with every readability score absent and every count 0. *)
Theorem blank_text_degenerate (text : str) :
  forallb (isspace U) text = true →
  split_sentences U text = [] ∧
  tokenize U text = [] ∧
  let r := analyze_readability U textstat text in
  flesch_reading_ease r = None ∧
  flesch_kincaid_grade r = None ∧
  gunning_fog r = None ∧
  smog_index r = None ∧
  automated_readability_index r = None ∧
  coleman_liau_index r = None ∧
  dale_chall r = None ∧
  difficult_words r = Some 0%Z ∧
  polysyllables r = Some 0%Z ∧
  lexicon_count r = 0%Z ∧
  sentence_count r = 0%Z.
Proof.
  intros Hblank. split; [|split].
  - unfold split_sentences. by rewrite (strip_blank _ Hblank).
  - by apply tokenize_blank.
  - unfold analyze_readability. rewrite (strip_blank _ Hblank). simpl.
    repeat split.
Qed.

(** *** Normalizing a sentence *)

Lemma isspace_separator c : isspace U c = true → is_separator U c = true.
Proof. unfold is_separator. by intros ->. Qed.

(** After the first substitution the second one finds only single spaces. *)
Lemma re_sub_space_after_separator b x :
  re_sub_runs (isspace U) b (re_sub_runs (is_separator U) b x)
  = re_sub_runs (is_separator U) b x.
Proof.
  revert b. induction x as [|c x IH]; intros b; simpl; [done|].
  destruct (is_separator U c) eqn:Hsep.
  - destruct b; [apply IH|].
    simpl. f_equal. apply IH.
  - simpl. destruct (isspace U c) eqn:Hsp.
    + apply isspace_separator in Hsp. congruence.
    + f_equal. apply IH.
Qed.

(** C4, as the code has it.  [normalize_sentence] lower-cases, replaces
    every maximal run of white space, non-word characters or underscores
    with a single space, and trims: the underscore separates too. *)
Theorem normalize_sentence_runs (s : str) :
  normalize_sentence U s
  = strip U (re_sub U
               (Plus (Chr (λ c, isspace U c || negb (is_word U c) || (c =? c_underscore))))
               [c_space] (lower U s)).
Proof.
  rewrite normalize_sentence_scan, re_sub_space_after_separator.
  by rewrite re_sub_plus_chr.
Qed.

Lemma tidy_re_sub b x : tidy_from U b (re_sub_runs (is_separator U) b x) = true.
Proof.
  revert b. induction x as [|c x IH]; intros b; simpl; [done|].
  destruct (is_separator U c) eqn:Hsep.
  - destruct b; [apply IH|]. simpl.
    replace (is_separator U c_space) with true by done.
    rewrite IH. done.
  - simpl. rewrite Hsep. apply IH.
Qed.

Lemma tidy_weaken b t : tidy_from U b t = true → tidy_from U false t = true.
Proof.
  destruct t as [|c t]; simpl; [done|].
  destruct (is_separator U c); [|done].
  destruct b; simpl; [|done]. rewrite andb_false_r. done.
Qed.

Lemma tidy_tail b c t : tidy_from U b (c :: t) = true → tidy_from U false t = true.
Proof.
  simpl. destruct (is_separator U c).
  - intros [_ H]%andb_true_iff. by apply tidy_weaken in H.
  - done.
Qed.

Lemma tidy_drop_while p t :
  tidy_from U false t = true → tidy_from U false (drop_while p t) = true.
Proof.
  induction t as [|c t IH]; simpl; [done|].
  destruct (p c); [|done].
  intros H. apply IH. eapply (tidy_tail false c). exact H.
Qed.

Lemma tidy_prefix b t u : tidy_from U b (t ++ u) = true → tidy_from U b t = true.
Proof.
  revert b. induction t as [|c t IH]; intros b; simpl; [done|].
  destruct (is_separator U c).
  - intros [H1 H2]%andb_true_iff. rewrite H1. simpl. eauto.
  - eauto.
Qed.

Lemma tidy_fixed b t :
  tidy_from U b t = true → re_sub_runs (is_separator U) b t = t.
Proof.
  revert b. induction t as [|c t IH]; intros b; simpl; [done|].
  destruct (is_separator U c).
  - intros [[H1 H2]%andb_true_iff H3]%andb_true_iff.
    apply N.eqb_eq in H1. apply negb_true_iff in H2. subst.
    f_equal. auto.
  - intros H. f_equal. auto.
Qed.

(** What [rstrip] keeps is a prefix. *)
Lemma drop_while_suffix p s : ∃ u, s = u ++ drop_while p s.
Proof.
  induction s as [|c s [u IH]]; simpl; [by exists []|].
  destruct (p c).
  - exists (c :: u). simpl. by f_equal.
  - by exists [].
Qed.

Lemma rstrip_prefix s : ∃ u, s = rstrip U s ++ u.
Proof.
  unfold rstrip. destruct (drop_while_suffix (isspace U) (rev s)) as [u Hu].
  exists (rev u). rewrite <- rev_app_distr, <- Hu. by rewrite rev_involutive.
Qed.

Lemma tidy_strip t : tidy_from U false t = true → tidy_from U false (strip U t) = true.
Proof.
  intros H. unfold strip.
  destruct (rstrip_prefix (lstrip U t)) as [u Hu].
  apply (tidy_prefix false _ u). rewrite <- Hu. by apply tidy_drop_while.
Qed.

(** Stripping twice strips once. *)
Lemma drop_while_fixed p s :
  match s with [] => True | c :: _ => p c = false end → drop_while p s = s.
Proof. destruct s as [|c s]; simpl; [done|]. by intros ->. Qed.

Lemma rstrip_fixed s :
  match rev s with [] => True | c :: _ => isspace U c = false end →
  rstrip U s = s.
Proof.
  intros H. unfold rstrip. rewrite drop_while_fixed by done. apply rev_involutive.
Qed.

Lemma rstrip_last s :
  match rev (rstrip U s) with [] => True | c :: _ => isspace U c = false end.
Proof. unfold rstrip. rewrite rev_involutive. apply drop_while_head. Qed.

Lemma strip_strip s : strip U (strip U s) = strip U s.
Proof.
  unfold strip at 1.
  assert (Hl : lstrip U (strip U s) = strip U s).
  { unfold lstrip. apply drop_while_fixed. unfold strip.
    pose proof (drop_while_head (isspace U) s) as Hh. fold (lstrip U s) in Hh.
    destruct (rstrip_prefix (lstrip U s)) as [u Hu].
    destruct (rstrip U (lstrip U s)) as [|c r]; [done|].
    rewrite Hu in Hh. exact Hh. }
  rewrite Hl. apply rstrip_fixed. unfold strip. apply rstrip_last.
Qed.

Lemma lower_from_stable before t :
  Forall (lower_stable U) t → lower_from U before t = t.
Proof.
  intros H. revert before. induction H as [|c t [Hc1 Hc2] _ IH]; intros before; simpl; [done|].
  apply N.eqb_neq in Hc1. rewrite Hc1, Hc2. simpl. f_equal. apply IH.
Qed.

Lemma lower_from_is_stable before s : Forall (lower_stable U) (lower_from U before s).
Proof.
  revert before. induction s as [|c s IH]; intros before; simpl; [constructor|].
  apply Forall_app. split; [|apply IH].
  destruct (N.eqb_spec c c_capital_sigma) as [->|Hc].
  - destruct (u_sigma_stable U) as [H1 H2].
    constructor; [|constructor].
    destruct (u_final_sigma U before s); split; done.
  - apply Forall_forall. intros x Hx.
    apply (u_lower_stable U c x Hc Hx).
Qed.

Lemma Forall_re_sub (P : N → Prop) cls b x :
  P c_space → Forall P x → Forall P (re_sub_runs cls b x).
Proof.
  intros Hsp H. revert b. induction H as [|c x Hc _ IH]; intros b; simpl; [constructor|].
  destruct (cls c); [destruct b|]; eauto.
Qed.

Lemma Forall_drop_while (P : N → Prop) p s : Forall P s → Forall P (drop_while p s).
Proof.
  induction 1 as [|c s Hc Hs IH]; simpl; [constructor|].
  destruct (p c); [done|by constructor].
Qed.

Lemma Forall_strip (P : N → Prop) s : Forall P s → Forall P (strip U s).
Proof.
  intros H. unfold strip, rstrip, lstrip.
  apply Forall_rev, Forall_drop_while, Forall_rev, Forall_drop_while, H.
Qed.

(** C5. Normalizing a normalized sentence changes nothing. *)
Theorem normalize_sentence_idempotent (s : str) :
  normalize_sentence U (normalize_sentence U s) = normalize_sentence U s.
Proof.
  set (n := normalize_sentence U s).
  assert (Hstable : Forall (lower_stable U) n).
  { unfold n. rewrite normalize_sentence_scan.
    apply Forall_strip, Forall_re_sub; [by split|].
    apply Forall_re_sub; [by split|]. apply lower_from_is_stable. }
  assert (Htidy : tidy_from U false n = true).
  { unfold n. rewrite normalize_sentence_scan, re_sub_space_after_separator.
    apply tidy_strip, tidy_re_sub. }
  rewrite (normalize_sentence_scan n). unfold lower.
  rewrite (lower_from_stable _ _ Hstable), re_sub_space_after_separator.
  rewrite (tidy_fixed _ _ Htidy).
  unfold n. rewrite normalize_sentence_scan. apply strip_strip.
Qed.

(** *** Adverbs *)

(** C9. The adverb findings are the lower-cased tokens longer than three
    characters that end in "ly" and are not in the exclusion list, one
    entry per word with its number of occurrences, by descending count
    then ascending word; "quickly" is counted whenever it occurs, "family"
    and "only" never appear. *)
Theorem adverb_findings (text : str) (threshold : Z) :
  let ws := map (lower U) (tokenize U text) in
  let found := adverbs (analyze_style U text threshold) in
  (∀ w n, {| adv_word := w; adv_count := n |} ∈ found ↔
     w ∈ ws ∧ (3 < length w)%nat ∧ endswith w (s2l "ly") = true ∧
     (w ∉ skip) ∧ n = count_of w ws) ∧
  NoDup (map adv_word found) ∧
  StronglySorted (λ x y, count_word_order (adv_count x, adv_word x)
                                          (adv_count y, adv_word y)) found ∧
  (s2l "quickly" ∈ ws →
     {| adv_word := s2l "quickly"; adv_count := count_of (s2l "quickly") ws |} ∈ found) ∧
  (s2l "family" ∉ map adv_word found) ∧
  (s2l "only" ∉ map adv_word found).
Proof.
  intros ws found.
  set (is_adv := λ w : str, (3 <? length w)%nat && endswith w (s2l "ly")).
  assert (Helem : ∀ w n, {| adv_word := w; adv_count := n |} ∈ found ↔
     w ∈ ws ∧ (3 < length w)%nat ∧ endswith w (s2l "ly") = true ∧
     (w ∉ skip) ∧ n = count_of w ws).
  { intros w n. unfold found, analyze_style. cbn [adverbs].
    rewrite elem_of_sorted, elem_of_map. fold ws. fold is_adv.
    split.
    - intros ([w' n'] & [= -> ->] & Hin). simpl in Hin.
      apply elem_of_lfilter in Hin as [Hin Hskip]. simpl in Hskip.
      apply Counter_elem in Hin as [Hin ->].
      apply elem_of_lfilter in Hin as [Hin Hadv].
      rewrite (count_of_filter is_adv) by done.
      unfold is_adv in Hadv. apply andb_true_iff in Hadv as [Hlen Hly].
      apply Nat.ltb_lt in Hlen.
      apply negb_true_iff, bool_decide_eq_false in Hskip. done.
    - intros (Hin & Hlen & Hly & Hskip & ->).
      assert (Hadv : is_adv w = true).
      { unfold is_adv. apply andb_true_iff. split; [by apply Nat.ltb_lt|done]. }
      exists (w, count_of w ws). split; [done|].
      apply elem_of_lfilter. split.
      + apply Counter_elem. split; [by apply elem_of_lfilter|].
        by rewrite (count_of_filter is_adv).
      + simpl. by apply negb_true_iff, bool_decide_eq_false. }
  assert (Hnot : ∀ w, w ∈ skip → w ∉ map adv_word found).
  { intros w Hw [[w' n] [-> Hin]]%elem_of_map. simpl in Hw.
    apply Helem in Hin. naive_solver. }
  split; [exact Helem|]. split; [|split; [|split; [|split]]].
  - unfold found, analyze_style. cbn [adverbs].
    eapply NoDup_map_perm; [apply sorted_perm|].
    rewrite map_map. simpl. apply NoDup_map_filter, Counter_NoDup.
  - unfold found, analyze_style. cbn [adverbs].
    apply (sorted_count_word (λ x, (adv_count x, adv_word x))).
  - intros Hin. apply Helem. repeat split; try done.
    + simpl. lia.
    + unfold skip. rewrite list_elem_of_In. simpl.
      intros H. repeat destruct H as [H|H]; done.
  - apply Hnot. unfold skip. rewrite list_elem_of_In. simpl. auto.
  - apply Hnot. unfold skip. rewrite list_elem_of_In. simpl. auto 10.
Qed.

(** *** Repeated words *)

(** C6. The duplicate-word findings hold exactly the positions of the
    lower-cased tokens that equal the token before them, one entry per
    word with its positions in increasing order, by descending number of
    positions then ascending word; "the the cat sat sat." gives "sat" at
    [4] and "the" at [1]. *)
Theorem duplicate_word_findings (text : str) (max_dup : Z) :
  let ws := map (lower U) (tokenize U text) in
  let found := duplicate_words (analyze_repetition U text max_dup) in
  (∀ w i, (∃ f, f ∈ found ∧ dw_word f = w ∧ i ∈ dw_occurrences f)
          ↔ adjacent_dup ws i w) ∧
  (∀ f, f ∈ found →
        dw_occurrences f ≠ [] ∧ StronglySorted lt (dw_occurrences f)) ∧
  NoDup (map dw_word found) ∧
  StronglySorted (λ x y, count_word_order (length (dw_occurrences x), dw_word x)
                                          (length (dw_occurrences y), dw_word y)) found ∧
  duplicate_words (analyze_repetition U (s2l "the the cat sat sat.") max_dup)
  = [ {| dw_word := s2l "sat"; dw_occurrences := [4%nat] |};
      {| dw_word := s2l "the"; dw_occurrences := [1%nat] |} ].
Proof.
  intros ws found.
  destruct (duplicate_scan_spec ws) as (Hnd & Hne & Hsorted & Hpos).
  set (d := duplicate_scan None 0 ws []) in *.
  set (leb := λ x y : str * list nat,
         key_leb (- Z.of_nat (length x.2), x.1)%Z (- Z.of_nat (length y.2), y.1)%Z).
  set (nonempty := λ kv : str * list nat, match kv.2 with [] => false | _ => true end).
  assert (Hfound : found = map (λ kv, {| dw_word := kv.1; dw_occurrences := kv.2 |})
                    (List.filter nonempty (sorted leb d))) by reflexivity.
  assert (Helem : ∀ w pos, {| dw_word := w; dw_occurrences := pos |} ∈ found
                           ↔ (w, pos) ∈ d).
  { intros w pos. rewrite Hfound, elem_of_map. split.
    - intros ([w' pos'] & [= -> ->] & Hin).
      apply elem_of_lfilter in Hin as [Hin _]. by apply elem_of_sorted in Hin.
    - intros Hin. exists (w, pos). split; [done|].
      apply elem_of_lfilter. split; [by apply elem_of_sorted|].
      unfold nonempty. simpl. apply Hne in Hin. by destruct pos. }
  split; [|split; [|split; [|split]]].
  - intros w i. rewrite <- Hpos. split.
    + intros ([w' pos] & Hf & <- & Hi). simpl in *.
      apply Helem, dd_elem in Hf as [_ ->]; done.
    + intros Hi. exists {| dw_word := w; dw_occurrences := dd_get d w |}.
      split; [|done]. apply Helem, dd_elem; [done|]. split; [|done].
      apply dd_get_key. intros Hnil. rewrite Hnil in Hi. by apply elem_of_nil in Hi.
  - intros [w pos] Hf. simpl. apply Helem in Hf. split; [by apply (Hne w)|].
    apply dd_elem in Hf as [_ <-]; done.
  - rewrite Hfound, map_map. simpl.
    apply NoDup_map_filter. eapply NoDup_map_perm; [apply sorted_perm|done].
  - rewrite Hfound.
    assert (Hs : StronglySorted (λ x y : str * list nat,
                   count_word_order (length x.2, x.1) (length y.2, y.1))
                   (List.filter nonempty (sorted leb d))).
    { apply StronglySorted_filter.
      apply (sorted_count_word (λ x : str * list nat, (length x.2, x.1))). }
    clear -Hs. induction Hs as [|x l Hl IH Hx]; simpl; constructor; [done|].
    apply Forall_forall. intros y [z [-> Hz]]%elem_of_map.
    rewrite Forall_forall in Hx. by apply Hx.
  - reflexivity.
Qed.

(** *** Spelling *)

(** C8. When the language has a dictionary, the spelling issues are one
    entry per distinct unknown word among the candidate tokens, sorted by
    word.  A candidate is a run of word characters that is purely
    alphabetic and has no upper-case character in its original form; it is
    looked up lower-cased.  [known] is the dictionary behind
    [spell.unknown]: of the words it is given, the spell checker returns
    those that are not known (specification, 4.3). *)
Theorem spelling_issues_distinct_sorted
    (text language : str) (spell : SpellCheckerT) (known : str → bool) :
  SpellChecker language = Some spell →
  (∀ w, w ∈ spell_unknown spell (spelling_lower_tokens U text)
        ↔ w ∈ spelling_lower_tokens U text ∧ known w = false) →
  ∃ report,
    analyze_spelling U SpellChecker text language = Some report ∧
    let found := map si_word (issues report) in
    (∀ w, w ∈ found ↔
       (∃ t, t ∈ re_findall U (word_re U) text ∧
             str_isalpha U t = true ∧ existsb (isupper U) t = false ∧
             w = lower U t) ∧
       known w = false) ∧
    NoDup found ∧
    StronglySorted (λ a b, str_leb a b = true) found ∧
    (∀ i, i ∈ issues report → si_suggestion i = spell_correction spell (si_word i)) ∧
    total_unknown report = length found.
Proof.
  intros Hspell Hunknown. unfold analyze_spelling. rewrite Hspell. simpl.
  eexists. split; [reflexivity|]. cbn [issues total_unknown].
  rewrite map_map. simpl. rewrite map_id.
  split; [|split; [|split; [|split]]].
  - intros w. rewrite elem_of_sorted, elem_of_elements, Hunknown.
    unfold spelling_lower_tokens. rewrite elem_of_map.
    setoid_rewrite elem_of_lfilter.
    setoid_rewrite andb_true_iff. setoid_rewrite negb_true_iff.
    naive_solver.
  - rewrite sorted_perm. apply NoDup_elements.
  - apply sorted_sorted; [apply str_leb_total|apply str_leb_trans].
  - intros i [w [-> _]]%elem_of_map. done.
  - by rewrite !length_map.
Qed.

(** *** Repeated sentences *)

Section DuplicateSentences.

Context (sents_all : list str) (max_dup : Z).

#[local] Opaque normalize_sentence.

(** The test of the comprehension, on a sentence. *)
Let total (s : str) : nat :=
  count_of (normalize_sentence U s) (map (normalize_sentence U) sents_all).
Let qualifies (s : str) : bool :=
  match normalize_sentence U s with [] => false | _ => true end
  && (max_dup <? Z.of_nat (total s))%Z.
Let finding (s : str) : DuplicateSentence :=
  {| ds_sentence := s; ds_count := total s |}.

(** The sentences before [rest], the set of normalized sentences seen
    among them, and what the de-duplication loop makes of [rest]. *)
Lemma dedup_sentences_first (pre rest : list str) (seen : gset str) :
  (∀ n, n ∈ seen ↔ ∃ s, s ∈ pre ∧ normalize_sentence U s = n ∧ qualifies s = true) →
  let result :=
    dedup_sentences U seen
      (flat_map (λ s, if qualifies s then [finding s] else []) rest) in
  (∃ idx,
     StronglySorted lt idx ∧
     Forall (λ i, length pre ≤ i)%nat idx ∧
     Forall2 (λ i f,
        (pre ++ rest) !! i = Some (ds_sentence f) ∧
        f = finding (ds_sentence f) ∧
        qualifies (ds_sentence f) = true ∧
        ∀ j s, (j < i)%nat → (pre ++ rest) !! j = Some s →
               normalize_sentence U s ≠ normalize_sentence U (ds_sentence f))
       idx result) ∧
  (∀ s, s ∈ rest → qualifies s = true →
        normalize_sentence U s ∈ seen ∨
        ∃ f, f ∈ result ∧ normalize_sentence U (ds_sentence f) = normalize_sentence U s).
Proof.
  revert pre seen. induction rest as [|s rest IH]; intros pre seen Hseen; simpl.
  - split; [exists []; repeat constructor|]. by intros s ?%elem_of_nil.
  - assert (Happ : pre ++ s :: rest = (pre ++ [s]) ++ rest)
      by (by rewrite <- app_assoc).
    assert (Hlen : length (pre ++ [s]) = S (length pre))
      by (rewrite length_app; simpl; lia).
    assert (Hsame : ∀ s', normalize_sentence U s' = normalize_sentence U s →
                          qualifies s' = qualifies s).
    { intros s' Heq. unfold qualifies, total. by rewrite Heq. }
    destruct (qualifies s) eqn:Hq; simpl.
    + destruct (decide (normalize_sentence U s ∈ seen)) as [Hin|Hnotin].
      * (* seen before: dropped *)
        destruct (IH (pre ++ [s]) seen) as [(idx & Hsorted & Hge & Hall) Hcover].
        { intros n. rewrite Hseen. setoid_rewrite elem_of_app.
          setoid_rewrite list_elem_of_singleton. split; [naive_solver|].
          intros (s' & [Hs'| ->] & Hn & Hq'); [eauto|].
          subst n. by apply Hseen. }
        rewrite Happ. split.
        -- exists idx. split; [done|]. split; [|done].
           eapply Forall_impl; [exact Hge|]. simpl. intros; lia.
        -- intros s' [->|Hs']%elem_of_cons Hq'; [by left|]. by apply Hcover.
      * (* first occurrence: kept *)
        destruct (IH (pre ++ [s]) ({[normalize_sentence U s]} ∪ seen))
          as [(idx & Hsorted & Hge & Hall) Hcover].
        { intros n. rewrite elem_of_union, elem_of_singleton, Hseen.
          setoid_rewrite elem_of_app. setoid_rewrite list_elem_of_singleton.
          naive_solver. }
        rewrite Happ. split.
        -- exists (length pre :: idx). split; [|split].
           ++ constructor; [done|]. eapply Forall_impl; [exact Hge|].
              simpl. intros; lia.
           ++ constructor; [done|]. eapply Forall_impl; [exact Hge|].
              simpl. intros; lia.
           ++ constructor; [|done]. simpl.
              split; [by rewrite <- Happ; apply list_lookup_middle|].
              split; [done|]. split; [done|].
              intros j s' Hj Hlook Heq.
              rewrite <- Happ, lookup_app_l in Hlook by done.
              apply Hnotin, Hseen. exists s'.
              split; [by eapply list_elem_of_lookup_2|].
              split; [done|]. by rewrite (Hsame s' Heq).
        -- intros s' [->|Hs']%elem_of_cons Hq'.
           ++ right. exists (finding s). split; [by left|done].
           ++ destruct (Hcover s' Hs' Hq') as [[Heq|Hin]%elem_of_union|(f & Hf & Heq)].
              ** apply elem_of_singleton in Heq.
                 right. exists (finding s). split; [by left|done].
              ** by left.
              ** right. exists f. split; [by right|done].
    + (* below the threshold or empty once normalized *)
      destruct (IH (pre ++ [s]) seen) as [(idx & Hsorted & Hge & Hall) Hcover].
      { intros n. rewrite Hseen. setoid_rewrite elem_of_app.
        setoid_rewrite list_elem_of_singleton. split; [naive_solver|].
        intros (s' & [Hs'| ->] & Hn & Hq'); [eauto|congruence]. }
      rewrite Happ. split.
      * exists idx. split; [done|]. split; [|done].
        eapply Forall_impl; [exact Hge|]. simpl. intros; lia.
      * intros s' [->|Hs']%elem_of_cons Hq'; [congruence|]. by apply Hcover.
Qed.

End DuplicateSentences.

(** The comprehension over [range(len(sentences))] visits the sentences in
    order. *)
Lemma duplicate_sentences_unfold text max_dup :
  let sents := split_sentences U text in
  let total s := count_of (normalize_sentence U s) (map (normalize_sentence U) sents) in
  duplicate_sentences (analyze_repetition U text max_dup)
  = dedup_sentences U ∅
      (flat_map (λ s,
         if match normalize_sentence U s with [] => false | _ => true end
            && (max_dup <? Z.of_nat (total s))%Z
         then [{| ds_sentence := s; ds_count := total s |}] else []) sents).
Proof.
  intros sents total. unfold analyze_repetition. cbn [duplicate_sentences].
  fold sents. f_equal. apply flat_map_seq_lookup.
  intros i s Hi. simpl. rewrite Hi, lookup_map, Hi. simpl.
  assert (Hcount : ∀ n : str, n ≠ [] →
            counter_get (Counter (List.filter
              (λ n, match n with [] => false | _ => true end)
              (map (normalize_sentence U) sents))) n
            = count_of n (map (normalize_sentence U) sents)).
  { intros n Hn. rewrite Counter_get.
    apply (count_of_filter (λ n, match n with [] => false | _ => true end)).
    by destruct n. }
  unfold total. destruct (normalize_sentence U s) as [|c n] eqn:Hnorm; [done|].
  by rewrite Hcount.
Qed.

Lemma first_occurrences_NoDup {F} (l : list str) (key : str → str) (g : F → str)
    (idx : list nat) (found : list F) :
  StronglySorted lt idx →
  Forall2 (λ i f, l !! i = Some (g f) ∧
                  ∀ j s, (j < i)%nat → l !! j = Some s → key s ≠ key (g f))
          idx found →
  NoDup (map (λ f, key (g f)) found).
Proof.
  intros Hsorted Hall. induction Hall as [|i f idx found [Hi _] Hall IH]; simpl.
  - apply NoDup_nil_2.
  - apply StronglySorted_inv in Hsorted as [Hsorted Hlt].
    apply NoDup_cons. split; [|auto].
    intros (f' & Heq & Hf')%elem_of_map.
    apply list_elem_of_lookup in Hf' as [k Hk].
    destruct (Forall2_lookup_r _ _ _ _ _ Hall Hk) as (i' & Hi' & _ & Hfirst).
    rewrite Forall_forall in Hlt.
    apply (Hfirst i (g f)); [|done|done].
    apply Hlt. by eapply list_elem_of_lookup_2.
Qed.

(** C7, as the code has it.  A sentence is represented among the
    duplicate-sentence findings exactly when its normalized form is not
    empty and occurs more often than the threshold among the normalized
    sentences of the text.  A finding carries the original text of a
    sentence and that number of occurrences; the findings are the first
    sentences of their normalized form, in the order of the text, one per
    normalized form.  "Stop. Stop. Go." with threshold 1 gives the one
    finding "Stop." with count 2, "Stop. Go." gives none. *)
Theorem duplicate_sentence_findings (text : str) (max_dup : Z) :
  let sents := split_sentences U text in
  let norm := normalize_sentence U in
  let total s := count_of (norm s) (map norm sents) in
  let found := duplicate_sentences (analyze_repetition U text max_dup) in
  (∀ s, s ∈ sents →
     (∃ f, f ∈ found ∧ norm (ds_sentence f) = norm s)
     ↔ norm s ≠ [] ∧ (max_dup < Z.of_nat (total s))%Z) ∧
  (∀ f, f ∈ found →
     ds_sentence f ∈ sents ∧ ds_count f = total (ds_sentence f)) ∧
  (∃ idx, StronglySorted lt idx ∧
     Forall2 (λ i f, sents !! i = Some (ds_sentence f) ∧
                     ∀ j s, (j < i)%nat → sents !! j = Some s →
                            norm s ≠ norm (ds_sentence f))
             idx found) ∧
  NoDup (map (λ f, norm (ds_sentence f)) found) ∧
  duplicate_sentences (analyze_repetition U (s2l "Stop. Stop. Go.") 1)
  = [ {| ds_sentence := s2l "Stop."; ds_count := 2 |} ] ∧
  duplicate_sentences (analyze_repetition U (s2l "Stop. Go.") 1) = [].
Proof.
  intros sents norm total found.
  assert (Hq : ∀ s, match norm s with [] => false | _ => true end
                    && (max_dup <? Z.of_nat (total s))%Z = true
                    ↔ norm s ≠ [] ∧ (max_dup < Z.of_nat (total s))%Z).
  { intros s. rewrite andb_true_iff, Z.ltb_lt. destruct (norm s); naive_solver. }
  destruct (dedup_sentences_first sents max_dup [] sents ∅)
    as [(idx & Hsorted & _ & Hall) Hcover].
  { intros n. rewrite elem_of_empty. split; [done|].
    by intros (s & ?%elem_of_nil & _). }
  pose proof (duplicate_sentences_unfold text max_dup) as Hfound.
  cbv beta zeta in Hfound. fold sents in Hfound.
  rewrite <- Hfound in Hall, Hcover. clear Hfound.
  fold found in Hall, Hcover. change ([] ++ sents) with sents in Hall.
  assert (Hidx : Forall2 (λ i f, sents !! i = Some (ds_sentence f) ∧
                     ∀ j s, (j < i)%nat → sents !! j = Some s →
                            norm s ≠ norm (ds_sentence f)) idx found).
  { eapply Forall2_impl; [exact Hall|]. simpl. intros i f (? & _ & _ & ?). done. }
  split; [|split; [|split; [|split; [|split]]]].
  - intros s Hs. split.
    + intros (f & Hf & Heq).
      apply list_elem_of_lookup in Hf as [k Hk].
      destruct (Forall2_lookup_r _ _ _ _ _ Hall Hk) as (i & _ & _ & _ & Hqf & _).
      apply Hq. unfold total. rewrite <- Heq. exact Hqf.
    + intros Hs'. apply Hq in Hs'.
      destruct (Hcover s Hs Hs') as [[]%elem_of_empty|H]. exact H.
  - intros f Hf. apply list_elem_of_lookup in Hf as [k Hk].
    destruct (Forall2_lookup_r _ _ _ _ _ Hall Hk) as (i & _ & Hi & Hfind & _).
    split; [by eapply list_elem_of_lookup_2|]. by rewrite Hfind.
  - by exists idx.
  - by apply (first_occurrences_NoDup sents norm ds_sentence idx).
  - vm_compute. reflexivity.
  - vm_compute. reflexivity.
Qed.

(** *** The two word patterns *)

Lemma ascii_letter_word c : ascii_letter c = true → is_word U c = true.
Proof. char_class. Qed.

(** On plain text the word pattern of the spelling checker and the token
    pattern of [tokenize] read the same runs. *)
Lemma findall_words_tokens_plain acc s :
  forallb (plain_char U) s = true →
  re_findall_words U acc s
  = re_findall_tokens (match acc with [] => Outside | _ => InToken acc end) s.
Proof.
  revert acc. induction s as [|c s IH]; intros acc; simpl.
  - intros _. by destruct acc.
  - intros [Hc Hs]%andb_true_iff. unfold plain_char in Hc.
    destruct (ascii_letter c) eqn:Hletter.
    + rewrite (ascii_letter_word c Hletter), (IH _ Hs). by destruct acc.
    + simpl in Hc. apply andb_true_iff in Hc as [Hw Hj].
      apply negb_true_iff in Hw, Hj. rewrite Hw, Hj, (IH _ Hs).
      by destruct acc.
Qed.

Lemma long_sentences_elem (text : str) (threshold : Z) (f : LongSentence) :
  f ∈ long_sentences (analyze_style U text threshold)
  ↔ split_sentences U text !! ls_index f = Some (ls_text f) ∧
    ls_word_count f = length (tokenize U (ls_text f)) ∧
    (threshold < Z.of_nat (ls_word_count f))%Z.
Proof.
  unfold analyze_style. cbn [long_sentences].
  rewrite elem_of_lfilter, elem_of_lookup_imap, Z.ltb_lt. split.
  - intros [(i & s & -> & Hi) Hlt]. done.
  - intros (Hi & Hwc & Hlt). split; [|done].
    exists (ls_index f), (ls_text f). split; [|done].
    destruct f. simpl in *. by subst.
Qed.

(** *** The aggregator *)

Lemma analyze_text_returns text opts spell :
  SpellChecker (lang opts) = Some spell →
  is_Some (analyze_text U textstat SpellChecker text opts).
Proof.
  intros H. unfold analyze_text, analyze_spelling. rewrite H. simpl. eauto.
Qed.

(** C2. Whenever the spell checker has a dictionary for the language,
    [analyze_text] returns a report, and its summary counts the tokens of
    [tokenize] and the sentences of [split_sentences]; it returns nothing
    only when [SpellChecker] raises. *)
Theorem summary_words_sentences (text : str) (opts : CheckerOptions) :
  match analyze_text U textstat SpellChecker text opts with
  | Some report =>
      words (summary report) = length (tokenize U text) ∧
      sentences (summary report) = length (split_sentences U text)
  | None => SpellChecker (lang opts) = None
  end.
Proof.
  unfold analyze_text, analyze_spelling.
  destruct (SpellChecker (lang opts)) as [spell|]; simpl; [split|]; reflexivity.
Qed.

(** C10. The summary's character count is the length of the text as it
    was given, whatever the text segments into. *)
Theorem summary_characters (text : str) (opts : CheckerOptions) :
  match analyze_text U textstat SpellChecker text opts with
  | Some report => characters (summary report) = length text
  | None => SpellChecker (lang opts) = None
  end.
Proof.
  unfold analyze_text, analyze_spelling.
  destruct (SpellChecker (lang opts)) as [spell|]; simpl; reflexivity.
Qed.

(** * Further properties of the analyzer *)

(** *** Sentences *)

Lemma head_rev {A} (l : list A) : head (rev l) = last l.
Proof.
  induction l as [|x l IH] using rev_ind; [done|].
  by rewrite rev_app_distr, last_snoc.
Qed.

Lemma last_rev {A} (l : list A) : last (rev l) = head l.
Proof. by rewrite <- head_rev, rev_involutive. Qed.

Lemma is_terminator_not_space c : is_terminator c = true → isspace U c = false.
Proof. char_class. Qed.

Lemma all_but_last_cons {A} (P : A → Prop) (x : A) (l : list A) :
  (l ≠ [] → P x) → all_but_last P l → all_but_last P (x :: l).
Proof.
  intros Hx Hl [|i] y Hi Hlen; simpl in *.
  - injection Hi as <-. apply Hx. destruct l; [simpl in Hlen; lia|done].
  - apply (Hl i y Hi). lia.
Qed.

Lemma re_split_from_nonempty st cur s : re_split_from U st cur s ≠ [].
Proof.
  revert st cur. induction s as [|c s IH]; intros st cur; simpl; [done|].
  destruct st as [t|]; [destruct (t && isspace U c)|destruct (isspace U c)];
    try done; apply IH.
Qed.

(** The pieces of a text that does not end in white space. *)
Lemma re_split_from_pieces s :
  (∀ t cur,
     cur ≠ [] → (∀ c, last cur = Some c → isspace U c = false) →
     t = is_terminator_at cur →
     (∃ c, last (rev cur ++ s) = Some c ∧ isspace U c = false) →
     Forall (trimmed U) (re_split_from U (InPiece t) cur s) ∧
     all_but_last terminated (re_split_from U (InPiece t) cur s)) ∧
  ((∃ c, last s = Some c ∧ isspace U c = false) →
   Forall (trimmed U) (re_split_from U InSeparator [] s) ∧
   all_but_last terminated (re_split_from U InSeparator [] s)).
Proof.
  induction s as [|c s [IHpiece IHsep]].
  - split.
    + intros t cur Hcur Hfirst _ (c & Hlast & Hc). rewrite app_nil_r in Hlast.
      simpl. split.
      * constructor; [|constructor]. split; [by destruct cur using rev_ind; [|rewrite rev_app_distr]|].
        split; [by rewrite head_rev|].
        intros c' Hc'. rewrite Hlast in Hc'. by injection Hc' as <-.
      * intros [|i] x Hi Hlen; simpl in Hlen; lia.
    + by intros (c & ? & _).
  - split.
    + intros t cur Hcur Hfirst Ht (cl & Hlast & Hcl). simpl.
      destruct (t && isspace U c) eqn:Hsplit.
      * apply andb_true_iff in Hsplit as [-> Hsp].
        assert (Hs : ∃ c', last s = Some c' ∧ isspace U c' = false).
        { exists cl. split; [|done]. destruct s as [|c1 s].
          - rewrite last_app in Hlast. simpl in Hlast. injection Hlast as <-.
            congruence.
          - rewrite last_app, last_cons_cons in Hlast.
            by destruct (last (c1 :: s)) eqn:E; [|apply last_None in E]. }
        destruct (IHsep Hs) as [Hall Hterm].
        assert (Hpiece : trimmed U (rev cur) ∧ terminated (rev cur)).
        { unfold trimmed, terminated. rewrite head_rev, last_rev.
          destruct cur as [|c0 cur]; [done|]. simpl in Ht. simpl head.
          split; [split|].
          - simpl. by destruct (rev cur).
          - split; [done|]. intros ? [= <-]. by apply is_terminator_not_space.
          - by exists c0. }
        destruct Hpiece as [Htrim Hend].
        split; [by constructor|].
        apply all_but_last_cons; [done|done].
      * apply (IHpiece (is_terminator c) (c :: cur)); [done| |done|].
        -- intros c'. rewrite last_cons. destruct (last cur) eqn:E; [auto|].
           by apply last_None in E.
        -- exists cl. split; [|done]. simpl. by rewrite <- app_assoc.
    + intros (cl & Hlast & Hcl). simpl. destruct (isspace U c) eqn:Hsp.
      * apply IHsep. exists cl. split; [|done]. destruct s as [|c1 s].
        -- simpl in Hlast. injection Hlast as <-. congruence.
        -- by rewrite last_cons_cons in Hlast.
      * apply (IHpiece (is_terminator c) [c]); [done| |done|].
        -- by intros ? [= <-].
        -- by exists cl.
Qed.

Lemma strip_head s c : head (strip U s) = Some c → isspace U c = false.
Proof.
  unfold strip. intros Hc.
  destruct (rstrip_prefix (lstrip U s)) as [u Hu].
  pose proof (drop_while_head (isspace U) s) as Hh. fold (lstrip U s) in Hh.
  rewrite Hu in Hh. destruct (rstrip U (lstrip U s)); [done|].
  by injection Hc as <-.
Qed.

Lemma strip_last s c : last (strip U s) = Some c → isspace U c = false.
Proof.
  unfold strip. intros Hc. pose proof (rstrip_last (lstrip U s)) as Hl.
  rewrite <- head_rev in Hc.
  destruct (rev (rstrip U (lstrip U s))); [done|]. by injection Hc as <-.
Qed.

Lemma trimmed_strip s : trimmed U s → strip U s = s.
Proof.
  intros (Hne & Hhead & Hlast). unfold strip.
  assert (Hl : lstrip U s = s).
  { apply drop_while_fixed. destruct s; [done|]. by apply Hhead. }
  rewrite Hl. apply rstrip_fixed.
  rewrite <- head_rev in Hlast. destruct (rev s); [done|]. by apply Hlast.
Qed.

Lemma re_split_sentences_trimmed s :
  (∀ c, head s = Some c → isspace U c = false) →
  re_split_sentences U s = re_split_from U InSeparator [] s.
Proof.
  intros Hhead. rewrite re_split_in_separator.
  rewrite drop_while_fixed; [done|]. destruct s; [done|]. by apply Hhead.
Qed.

Lemma filter_nonempty_trimmed (l : list str) :
  Forall (trimmed U) l →
  List.filter (λ s, match s with [] => false | _ => true end) l = l.
Proof.
  induction 1 as [|s l [Hs _] _ IH]; simpl; [done|].
  destruct s; [done|]. by rewrite IH.
Qed.

(** The sentences of a text that is not blank, before the empty ones are
    dropped: there is none to drop. *)
Lemma split_sentences_pieces text :
  strip U text ≠ [] →
  split_sentences U text = re_split_from U InSeparator [] (strip U text) ∧
  Forall (trimmed U) (split_sentences U text) ∧
  all_but_last terminated (split_sentences U text).
Proof.
  intros Hne. rewrite split_sentences_scan.
  destruct (strip U text) as [|c0 x] eqn:Hstrip; [done|].
  rewrite <- Hstrip in *.
  rewrite re_split_sentences_trimmed by apply strip_head.
  destruct (re_split_from_pieces (strip U text)) as [_ Hsep].
  destruct Hsep as [Hall Hterm].
  { destruct (last (strip U text)) as [cl|] eqn:Hlast.
    - exists cl. split; [done|]. by apply (strip_last text).
    - apply last_None in Hlast. congruence. }
  rewrite filter_nonempty_trimmed by done. done.
Qed.

(** X1. No sentence is empty or has white space at either end, and every
    sentence but the last ends in [.], [!] or [?]. *)
Theorem sentences_trimmed_terminated (text : str) :
  Forall (trimmed U) (split_sentences U text) ∧
  all_but_last terminated (split_sentences U text).
Proof.
  destruct (strip U text) as [|c0 x] eqn:Hstrip.
  - unfold split_sentences. rewrite Hstrip. simpl. split; [constructor|].
    by intros i x Hi.
  - apply split_sentences_pieces. congruence.
Qed.

(** X2. A text has no sentence exactly when it is blank. *)
Theorem no_sentence_iff_blank (text : str) :
  split_sentences U text = [] ↔ forallb (isspace U) text = true.
Proof.
  split.
  - intros Hnone. apply strip_nil_blank.
    destruct (strip U text) as [|c0 x] eqn:Hstrip; [done|].
    destruct (split_sentences_pieces text) as [Heq _]; [congruence|].
    rewrite Hnone in Heq. symmetry in Heq.
    by apply re_split_from_nonempty in Heq.
  - intros Hblank. unfold split_sentences. by rewrite (strip_blank _ Hblank).
Qed.

Lemma unsplit_fixed t cur p :
  unsplit U t p = true → re_split_from U (InPiece t) cur p = [rev cur ++ p].
Proof.
  revert t cur. induction p as [|c p IH]; intros t cur; simpl.
  - by rewrite app_nil_r.
  - intros [Hc Hp]%andb_true_iff. apply negb_true_iff in Hc. rewrite Hc.
    rewrite (IH _ _ Hp). simpl. by rewrite <- app_assoc.
Qed.

Lemma re_split_from_unsplit s :
  (∀ t cur,
     (∀ rest, unsplit U t rest = true → unsplit U false (rev cur ++ rest) = true) →
     Forall (λ p, unsplit U false p = true) (re_split_from U (InPiece t) cur s)) ∧
  Forall (λ p, unsplit U false p = true) (re_split_from U InSeparator [] s).
Proof.
  induction s as [|c s [IHpiece IHsep]].
  - split; [|by repeat constructor].
    intros t cur Hcur. simpl. constructor; [|constructor].
    rewrite <- (app_nil_r (rev cur)). by apply Hcur.
  - assert (Hstep : ∀ t cur,
      (∀ rest, unsplit U t rest = true → unsplit U false (rev cur ++ rest) = true) →
      t && isspace U c = false →
      Forall (λ p, unsplit U false p = true)
             (re_split_from U (InPiece (is_terminator c)) (c :: cur) s)).
    { intros t cur Hcur Hno. apply IHpiece. intros rest Hrest.
      simpl. rewrite <- app_assoc. apply Hcur. simpl. by rewrite Hno, Hrest. }
    split.
    + intros t cur Hcur. simpl. destruct (t && isspace U c) eqn:Hsplit.
      * constructor; [|done]. rewrite <- (app_nil_r (rev cur)). by apply Hcur.
      * by apply (Hstep t).
    + simpl. destruct (isspace U c) eqn:Hsp; [done|].
      apply (Hstep false []); [|done]. by intros rest.
Qed.

(** X3. Every sentence is one sentence: splitting it again gives it
    back. *)
Theorem sentences_split_once (text s : str) :
  s ∈ split_sentences U text → split_sentences U s = [s].
Proof.
  intros Hs.
  destruct (strip U text) as [|c0 x] eqn:Hstrip.
  { unfold split_sentences in Hs. rewrite Hstrip in Hs. by apply elem_of_nil in Hs. }
  destruct (split_sentences_pieces text) as (Heq & Hall & _); [congruence|].
  assert (Htrim : trimmed U s) by (rewrite Forall_forall in Hall; auto).
  assert (Hunsplit : unsplit U false s = true).
  { destruct (re_split_from_unsplit (strip U text)) as [_ Hsep].
    rewrite <- Heq, Forall_forall in Hsep. auto. }
  rewrite split_sentences_scan, (trimmed_strip _ Htrim).
  unfold re_split_sentences. rewrite (unsplit_fixed _ _ _ Hunsplit). simpl.
  destruct Htrim as [Hne _]. by destruct s.
Qed.

Lemma filter_nonspace_drop_while s :
  List.filter (λ c, negb (isspace U c)) (drop_while (isspace U) s)
  = List.filter (λ c, negb (isspace U c)) s.
Proof.
  induction s as [|c s IH]; simpl; [done|].
  destruct (isspace U c) eqn:E; simpl; [done|]. by rewrite E.
Qed.

Lemma filter_nonspace_strip s :
  List.filter (λ c, negb (isspace U c)) (strip U s)
  = List.filter (λ c, negb (isspace U c)) s.
Proof.
  unfold strip, rstrip, lstrip.
  rewrite filter_rev, filter_nonspace_drop_while, filter_rev, rev_involutive.
  apply filter_nonspace_drop_while.
Qed.

Lemma re_split_from_nonspace s :
  (∀ t cur,
     List.filter (λ c, negb (isspace U c)) (concat (re_split_from U (InPiece t) cur s))
     = List.filter (λ c, negb (isspace U c)) (rev cur ++ s)) ∧
  List.filter (λ c, negb (isspace U c)) (concat (re_split_from U InSeparator [] s))
  = List.filter (λ c, negb (isspace U c)) s.
Proof.
  induction s as [|c s [IHpiece IHsep]].
  - split; [|done]. intros t cur. simpl. by rewrite !app_nil_r.
  - split.
    + intros t cur. simpl. destruct (t && isspace U c) eqn:Hsplit.
      * apply andb_true_iff in Hsplit as [_ Hsp]. simpl.
        rewrite !List.filter_app, IHsep. simpl. by rewrite Hsp.
      * rewrite IHpiece. simpl. by rewrite <- app_assoc.
    + simpl. destruct (isspace U c) eqn:Hsp; simpl; [done|].
      rewrite IHpiece. simpl. by rewrite Hsp.
Qed.

(** X4. Splitting into sentences loses white space only: the other
    characters of the text are those of its sentences, in order. *)
Theorem sentences_keep_nonspace (text : str) :
  List.filter (λ c, negb (isspace U c)) (concat (split_sentences U text))
  = List.filter (λ c, negb (isspace U c)) text.
Proof.
  rewrite <- (filter_nonspace_strip text).
  destruct (strip U text) as [|c0 x] eqn:Hstrip.
  - unfold split_sentences. by rewrite Hstrip.
  - destruct (split_sentences_pieces text) as [-> _]; [congruence|].
    rewrite Hstrip. apply re_split_from_nonspace.
Qed.

(** *** Tokens *)

Lemma isspace_not_joiner c : isspace U c = true → is_joiner c = false.
Proof. char_class. Qed.

(** A character that is neither a letter nor a joiner ends a token. *)
Lemma findall_tokens_break c a b st :
  ascii_letter c = false → is_joiner c = false →
  re_findall_tokens st (a ++ c :: b)
  = re_findall_tokens st a ++ re_findall_tokens Outside b.
Proof.
  intros Hl Hj. revert st. induction a as [|x a IH]; intros st; simpl.
  - rewrite Hl. destruct st; simpl; [done| |done]. by rewrite Hj.
  - destruct st; destruct (ascii_letter x); try destruct (is_joiner x);
      simpl; by rewrite ?IH.
Qed.

Lemma findall_tokens_spaces ws :
  forallb (isspace U) ws = true → re_findall_tokens Outside ws = [].
Proof. intros H. rewrite <- (tokenize_scan ws). by apply tokenize_blank. Qed.

Lemma findall_tokens_drop_while s :
  re_findall_tokens Outside (drop_while (isspace U) s) = re_findall_tokens Outside s.
Proof.
  induction s as [|c s IH]; simpl; [done|].
  destruct (isspace U c) eqn:E; [|done].
  by rewrite (isspace_not_letter _ E).
Qed.

Lemma findall_tokens_trailing a ws :
  forallb (isspace U) ws = true →
  re_findall_tokens Outside (a ++ ws) = re_findall_tokens Outside a.
Proof.
  destruct ws as [|c ws]; [by rewrite app_nil_r|]. simpl.
  intros [Hc Hws]%andb_true_iff.
  rewrite findall_tokens_break
    by (by apply isspace_not_letter || by apply isspace_not_joiner).
  by rewrite (findall_tokens_spaces _ Hws), app_nil_r.
Qed.

Lemma findall_tokens_strip s :
  re_findall_tokens Outside (strip U s) = re_findall_tokens Outside s.
Proof.
  unfold strip, rstrip. rewrite <- (findall_tokens_drop_while s).
  fold (lstrip U s). set (y := lstrip U s).
  rewrite <- (rev_involutive y) at 2.
  rewrite <- (take_drop_while (isspace U) (rev y)) at 2.
  rewrite rev_app_distr. symmetry. apply findall_tokens_trailing.
  apply forallb_forall. intros c Hc. apply in_rev in Hc.
  pose proof (take_while_all (isspace U) (rev y)) as H.
  rewrite Forall_forall in H. apply H. by apply list_elem_of_In.
Qed.

Lemma re_split_from_tokens s :
  (∀ t cur,
     concat (map (re_findall_tokens Outside) (re_split_from U (InPiece t) cur s))
     = re_findall_tokens Outside (rev cur ++ s)) ∧
  concat (map (re_findall_tokens Outside) (re_split_from U InSeparator [] s))
  = re_findall_tokens Outside s.
Proof.
  induction s as [|c s [IHpiece IHsep]].
  - split; [|done]. intros t cur. simpl. by rewrite !app_nil_r.
  - split.
    + intros t cur. simpl. destruct (t && isspace U c) eqn:Hsplit.
      * apply andb_true_iff in Hsplit as [_ Hsp]. simpl.
        rewrite IHsep. symmetry. apply findall_tokens_break.
        -- by apply isspace_not_letter.
        -- by apply isspace_not_joiner.
      * rewrite IHpiece. simpl. by rewrite <- app_assoc.
    + cbn [re_split_from]. destruct (isspace U c) eqn:Hsp.
      * rewrite IHsep. simpl. by rewrite (isspace_not_letter _ Hsp).
      * rewrite IHpiece. done.
Qed.

(** X5. The tokens of a text are the tokens of its sentences, in order;
    so the word counts of the sentences add up to the word count of the
    text. *)
Theorem tokens_of_sentences (text : str) :
  concat (map (tokenize U) (split_sentences U text)) = tokenize U text ∧
  list_sum (map (λ s, length (tokenize U s)) (split_sentences U text))
  = length (tokenize U text).
Proof.
  assert (H : concat (map (tokenize U) (split_sentences U text)) = tokenize U text).
  { rewrite (map_ext _ _ tokenize_scan), tokenize_scan.
    rewrite <- (findall_tokens_strip text).
    destruct (strip U text) as [|c0 x] eqn:Hstrip.
    - unfold split_sentences. by rewrite Hstrip.
    - destruct (split_sentences_pieces text) as [-> _]; [congruence|].
      rewrite Hstrip. apply re_split_from_tokens. }
  split; [done|]. rewrite <- H. clear H.
  induction (split_sentences U text) as [|s l IH]; simpl; [done|].
  by rewrite length_app, IH.
Qed.

Lemma token_shaped_snoc t c :
  token_shaped t → ascii_letter c = true → token_shaped (t ++ [c]).
Proof.
  intros (Hne & Hhead & Hlast & Hall) Hc. split; [by destruct t|].
  split; [|split].
  - intros x. rewrite head_app. destruct t as [|y t]; [done|]. simpl. auto.
  - intros x. rewrite last_snoc. by intros [= <-].
  - apply Forall_app. split; [done|]. constructor; [by rewrite Hc|constructor].
Qed.

Lemma token_shaped_snoc_joined t j c :
  token_shaped t → is_joiner j = true → ascii_letter c = true →
  token_shaped (t ++ [j; c]).
Proof.
  intros (Hne & Hhead & Hlast & Hall) Hj Hc. split; [by destruct t|].
  split; [|split].
  - intros x. rewrite head_app. destruct t as [|y t]; [done|]. simpl. auto.
  - intros x. change [j; c] with ([j] ++ [c]). rewrite app_assoc, last_snoc.
    by intros [= <-].
  - apply Forall_app. split; [done|].
    constructor; [by rewrite Hj, orb_true_r|].
    constructor; [by rewrite Hc|constructor].
Qed.

Lemma findall_tokens_shaped s st :
  token_state_shaped st → Forall token_shaped (re_findall_tokens st s).
Proof.
  revert st. induction s as [|c s IH]; intros st Hst.
  - destruct st; simpl in *.
    + constructor.
    + constructor; [done|constructor].
    + destruct Hst. constructor; [done|constructor].
  - destruct st as [|acc|acc j]; simpl in *.
    + destruct (ascii_letter c) eqn:Hc; [|by apply IH].
      apply IH. simpl. split; [done|]. split; [by intros ? [= <-]|].
      split; [by intros ? [= <-]|].
      constructor; [by rewrite Hc|constructor].
    + destruct (ascii_letter c) eqn:Hc.
      * apply IH. simpl. by apply token_shaped_snoc.
      * destruct (is_joiner c) eqn:Hj.
        -- by apply IH.
        -- constructor; [done|]. by apply IH.
    + destruct Hst as [Hacc Hj]. destruct (ascii_letter c) eqn:Hc.
      * apply IH. simpl. rewrite <- app_assoc. simpl.
        by apply token_shaped_snoc_joined.
      * constructor; [done|]. by apply IH.
Qed.

Lemma findall_tokens_reached s st :
  token_state_reached st →
  Forall (λ p, re_findall_tokens Outside p = [p]) (re_findall_tokens st s).
Proof.
  revert st. induction s as [|c s IH]; intros st Hst.
  - destruct st as [|acc|acc j]; simpl in *; [constructor| |].
    + constructor; [|constructor]. rewrite <- (app_nil_r (rev acc)) at 1.
      by rewrite Hst.
    + destruct Hst as [Hacc _]. constructor; [|constructor].
      rewrite <- (app_nil_r (rev acc)) at 1. by rewrite Hacc.
  - destruct st as [|acc|acc j]; simpl in *.
    + destruct (ascii_letter c) eqn:Hc; [|by apply IH].
      apply IH. simpl. intros rest. by rewrite Hc.
    + destruct (ascii_letter c) eqn:Hc.
      * apply IH. simpl. intros rest. rewrite <- app_assoc, Hst. simpl.
        by rewrite Hc.
      * destruct (is_joiner c) eqn:Hj.
        -- apply IH. simpl. split; [done|]. intros rest. rewrite Hst.
           simpl. by rewrite Hc, Hj.
        -- constructor; [|by apply IH].
           rewrite <- (app_nil_r (rev acc)) at 1. by rewrite Hst.
    + destruct Hst as [Hacc Hj]. destruct (ascii_letter c) eqn:Hc.
      * apply IH. simpl. intros rest. rewrite <- !app_assoc. simpl.
        rewrite Hj. simpl. by rewrite Hc.
      * constructor; [|by apply IH].
        rewrite <- (app_nil_r (rev acc)) at 1. by rewrite Hacc.
Qed.

(** X6. A token is made of ASCII letters, hyphens and apostrophes, begins
    and ends with a letter, and is one token itself: tokenizing it gives
    it back. *)
Theorem tokens_shaped_and_stable (text t : str) :
  t ∈ tokenize U text → token_shaped t ∧ tokenize U t = [t].
Proof.
  rewrite !tokenize_scan. intros Ht. split.
  - pose proof (findall_tokens_shaped text Outside I) as H.
    rewrite Forall_forall in H. auto.
  - pose proof (findall_tokens_reached text Outside I) as H.
    rewrite Forall_forall in H. auto.
Qed.

(** Two tokens are at least one character apart. *)
Lemma findall_tokens_count s st :
  (2 * length (re_findall_tokens st s)
   ≤ length s + match st with Outside => 1 | _ => 2 end)%nat.
Proof.
  revert st. induction s as [|c s IH]; intros st.
  - destruct st; simpl; lia.
  - destruct st as [|acc|acc j]; simpl.
    + destruct (ascii_letter c).
      * specialize (IH (InToken [c])). simpl in IH. lia.
      * specialize (IH Outside). simpl in IH. lia.
    + destruct (ascii_letter c); [|destruct (is_joiner c)].
      * specialize (IH (InToken (c :: acc))). simpl in IH. lia.
      * specialize (IH (AfterJoiner acc c)). simpl in IH. lia.
      * specialize (IH Outside). simpl in *. lia.
    + destruct (ascii_letter c).
      * specialize (IH (InToken (c :: j :: acc))). simpl in IH. lia.
      * specialize (IH Outside). simpl in *. lia.
Qed.

(** Two sentences are at least one character apart. *)
Lemma re_split_from_count s st cur :
  (2 * length (List.filter (λ p : str, match p with [] => false | _ => true end)
                 (re_split_from U st cur s))
   ≤ length s + match st, cur with
                | InSeparator, [] => 1
                | _, _ => 2
                end)%nat.
Proof.
  revert st cur. induction s as [|c s IH]; intros st cur.
  - destruct cur as [|x cur]; [destruct st; simpl; lia|].
    cbn [re_split_from]. destruct (rev (x :: cur)); destruct st; simpl; lia.
  - destruct st as [t|]; simpl.
    + destruct (t && isspace U c).
      * simpl. specialize (IH InSeparator []). simpl in IH.
        destruct (rev cur); simpl; lia.
      * specialize (IH (InPiece (is_terminator c)) (c :: cur)). simpl in IH. lia.
    + destruct (isspace U c).
      * specialize (IH InSeparator cur). destruct cur; simpl in IH; lia.
      * specialize (IH (InPiece (is_terminator c)) (c :: cur)). simpl in IH.
        destruct cur; lia.
Qed.

Lemma strip_length s : (length (strip U s) ≤ length s)%nat.
Proof.
  unfold strip, rstrip, lstrip. rewrite length_rev.
  etransitivity; [apply drop_while_length|]. rewrite length_rev.
  apply drop_while_length.
Qed.

(** X7. In the summary of a report, twice the number of words and twice
    the number of sentences are at most the number of characters plus
    one. *)
Theorem summary_counts_bounded (text : str) (opts : CheckerOptions) :
  match analyze_text U textstat SpellChecker text opts with
  | Some report =>
      (2 * words (summary report) ≤ characters (summary report) + 1)%nat ∧
      (2 * sentences (summary report) ≤ characters (summary report) + 1)%nat
  | None => SpellChecker (lang opts) = None
  end.
Proof.
  unfold analyze_text, analyze_spelling.
  destruct (SpellChecker (lang opts)) as [spell|]; simpl; [|done]. split.
  - rewrite tokenize_scan. pose proof (findall_tokens_count text Outside) as H.
    cbn match in H. lia.
  - rewrite split_sentences_scan. pose proof (strip_length text) as Hlen.
    destruct (strip U text) as [|c0 x] eqn:Hstrip; [simpl; lia|].
    rewrite <- Hstrip in *.
    rewrite re_split_sentences_trimmed by apply strip_head.
    pose proof (re_split_from_count (strip U text) InSeparator []) as H.
    cbn match in H. lia.
Qed.

(** *** Findings and the text *)

Lemma elem_of_concat {A} (x : A) (ls : list (list A)) :
  x ∈ concat ls ↔ ∃ l, l ∈ ls ∧ x ∈ l.
Proof.
  rewrite list_elem_of_In, in_concat. setoid_rewrite list_elem_of_In. done.
Qed.

Lemma passive_voice_elem (text : str) (threshold : Z) (h : PassiveHit) :
  h ∈ passive_voice (analyze_style U text threshold)
  ↔ split_sentences U text !! pv_index h = Some (pv_sentence h) ∧
    pv_match h ∈ passive_finditer U (pv_sentence h).
Proof.
  unfold analyze_style. cbn [passive_voice]. rewrite elem_of_concat. split.
  - intros (l & Hl & Hh). apply elem_of_lookup_imap in Hl as (i & s & -> & Hi).
    apply elem_of_map in Hh as (m & -> & Hm). done.
  - intros [Hi Hm]. eexists. split.
    + apply elem_of_lookup_imap. by exists (pv_index h), (pv_sentence h).
    + apply elem_of_map. exists (pv_match h). split; [by destruct h|done].
Qed.

Lemma duplicate_words_elem (text : str) (max_dup : Z) (d : DuplicateWord) :
  d ∈ duplicate_words (analyze_repetition U text max_dup)
  ↔ (dw_word d, dw_occurrences d)
    ∈ duplicate_scan None 0 (map (lower U) (tokenize U text)) [].
Proof.
  destruct (duplicate_scan_spec (map (lower U) (tokenize U text)))
    as (_ & Hne & _).
  unfold analyze_repetition. cbn [duplicate_words]. rewrite elem_of_map. split.
  - intros ([w pos] & -> & Hin). apply elem_of_lfilter in Hin as [Hin _].
    by apply elem_of_sorted in Hin.
  - intros Hin. exists (dw_word d, dw_occurrences d). split; [by destruct d|].
    apply elem_of_lfilter. split; [by apply elem_of_sorted|].
    apply Hne in Hin. simpl. by destruct (dw_occurrences d).
Qed.

(** X8. Every index in a report points into the text: a long sentence
    or a passive-voice hit carries the index of its sentence among the
    sentences that the summary counts, and a position of a repeated word
    is at least 1 and less than the number of words of the summary. *)
Theorem report_indices_valid (text : str) (opts : CheckerOptions) :
  match analyze_text U textstat SpellChecker text opts with
  | Some report =>
      (∀ f, f ∈ long_sentences (style report) →
         (ls_index f < sentences (summary report))%nat ∧
         split_sentences U text !! ls_index f = Some (ls_text f)) ∧
      (∀ h, h ∈ passive_voice (style report) →
         (pv_index h < sentences (summary report))%nat ∧
         split_sentences U text !! pv_index h = Some (pv_sentence h)) ∧
      (∀ d i, d ∈ duplicate_words (repetition report) → i ∈ dw_occurrences d →
         (1 ≤ i < words (summary report))%nat)
  | None => SpellChecker (lang opts) = None
  end.
Proof.
  unfold analyze_text, analyze_spelling.
  destruct (SpellChecker (lang opts)) as [spell|]; [|done].
  cbn [mbind option_bind summary style repetition sentences words
       long_sentences passive_voice duplicate_words].
  split; [|split].
  - intros f [Hi _]%long_sentences_elem. split; [|done].
    by apply lookup_lt_Some in Hi.
  - intros h [Hi _]%passive_voice_elem. split; [|done].
    by apply lookup_lt_Some in Hi.
  - intros d i Hd%duplicate_words_elem Hi.
    destruct (duplicate_scan_spec (map (lower U) (tokenize U text)))
      as (Hnd & _ & _ & Hpos).
    apply dd_elem in Hd as [_ Hget]; [|done].
    rewrite <- Hget in Hi. apply Hpos in Hi.
    pose proof (adjacent_dup_lt _ _ _ Hi) as Hlt. rewrite length_map in Hlt.
    destruct Hi as [_ (j & -> & _)]. lia.
Qed.

Lemma imap_sorted {A B} (key : B → nat) (g : nat → A → B) (l : list A) (k : nat) :
  (∀ i x, key (g i x) = (k + i)%nat) →
  StronglySorted (λ a b, (key a < key b)%nat) (imap g l).
Proof.
  revert g k. induction l as [|x l IH]; intros g k Hkey; simpl; constructor.
  - apply (IH _ (S k)). intros i y. simpl. rewrite Hkey. lia.
  - apply Forall_forall. intros b (i & y & -> & Hi)%elem_of_lookup_imap.
    simpl. rewrite !Hkey. lia.
Qed.

Lemma concat_imap_sorted {A B} (key : B → nat) (g : nat → A → list B)
    (l : list A) (k : nat) :
  (∀ i x b, b ∈ g i x → key b = (k + i)%nat) →
  StronglySorted (λ a b, (key a ≤ key b)%nat) (concat (imap g l)).
Proof.
  revert g k. induction l as [|x l IH]; intros g k Hkey; simpl; [constructor|].
  apply StronglySorted_app. split; [|split].
  - intros a b Ha (bl & (i & y & -> & Hi)%elem_of_lookup_imap & Hb)%elem_of_concat.
    simpl in Hb. rewrite (Hkey _ _ _ Ha), (Hkey _ _ _ Hb). lia.
  - assert (H : ∀ bl : list B, (∀ b, b ∈ bl → key b = (k + 0)%nat) →
               StronglySorted (λ a b, (key a ≤ key b)%nat) bl).
    { induction bl as [|b bl IHbl]; intros Hbl; constructor.
      - apply IHbl. intros b' Hb'. apply Hbl. by right.
      - apply Forall_forall. intros b' Hb'.
        rewrite (Hbl b) by (by left). rewrite (Hbl b') by (by right). done. }
    apply H. intros b Hb. by apply (Hkey 0%nat x).
  - apply (IH _ (S k)). intros i y b Hb. simpl in Hb.
    rewrite (Hkey _ _ _ Hb). lia.
Qed.

Lemma StronglySorted_map {A} (key : A → nat) (R : nat → nat → Prop) (l : list A) :
  StronglySorted (λ a b, R (key a) (key b)) l → StronglySorted R (map key l).
Proof.
  induction 1 as [|x l Hl IH Hx]; simpl; constructor; [done|].
  apply Forall_forall. intros k (y & -> & Hy)%elem_of_map.
  rewrite Forall_forall in Hx. auto.
Qed.

(** X9. The style findings come in the order of the text: the indices
    of the long-sentence findings increase strictly, those of the
    passive-voice hits never decrease. *)
Theorem style_findings_in_text_order (text : str) (threshold : Z) :
  StronglySorted lt (map ls_index (long_sentences (analyze_style U text threshold))) ∧
  StronglySorted le (map pv_index (passive_voice (analyze_style U text threshold))).
Proof.
  unfold analyze_style. cbn [long_sentences passive_voice]. split.
  - apply (StronglySorted_map ls_index lt), StronglySorted_filter.
    by apply (imap_sorted ls_index _ _ 0).
  - apply (StronglySorted_map pv_index le).
    apply (concat_imap_sorted pv_index _ _ 0).
    intros i s h (m & -> & _)%elem_of_map. done.
Qed.

Lemma filter_sublist {A} (p q : A → bool) (l : list A) :
  (∀ x, q x = true → p x = true) → List.filter q l `sublist_of` List.filter p l.
Proof.
  intros Hqp. induction l as [|x l IH]; simpl; [done|].
  destruct (q x) eqn:Hq.
  - rewrite (Hqp x Hq). by constructor.
  - destruct (p x); [by constructor|done].
Qed.

(** X10. Raising the threshold only removes long-sentence findings. *)
Theorem long_sentences_threshold (text : str) (t1 t2 : Z) :
  (t1 ≤ t2)%Z →
  long_sentences (analyze_style U text t2)
    `sublist_of` long_sentences (analyze_style U text t1).
Proof.
  intros Hle. unfold analyze_style. cbn [long_sentences].
  apply filter_sublist. intros f Hf. apply Z.ltb_lt in Hf. apply Z.ltb_lt. lia.
Qed.

(** *** The normal form of a sentence *)

Lemma normalize_sentence_stable s : Forall (lower_stable U) (normalize_sentence U s).
Proof.
  rewrite normalize_sentence_scan.
  apply Forall_strip, Forall_re_sub; [by split|].
  apply Forall_re_sub; [by split|]. apply lower_from_is_stable.
Qed.

Lemma normalize_sentence_tidy s : tidy_from U false (normalize_sentence U s) = true.
Proof.
  rewrite normalize_sentence_scan, re_sub_space_after_separator.
  apply tidy_strip, tidy_re_sub.
Qed.

Lemma tidy_chars b t :
  tidy_from U b t = true → Forall (λ c, c = c_space ∨ is_separator U c = false) t.
Proof.
  revert b. induction t as [|c t IH]; intros b; simpl; [constructor|].
  destruct (is_separator U c) eqn:Hsep.
  - intros [[Hc%N.eqb_eq _]%andb_true_iff Ht]%andb_true_iff.
    constructor; [by left|by apply (IH true)].
  - intros Ht. constructor; [by right|by apply (IH false)].
Qed.

Lemma tidy_single_spaces b t i :
  tidy_from U b t = true → t !! i = Some c_space → t !! S i ≠ Some c_space.
Proof.
  revert b i. induction t as [|c t IH]; intros b i; simpl; [done|].
  destruct i as [|i]; simpl.
  - intros Ht [= ->]. replace (is_separator U c_space) with true in Ht by done.
    apply andb_true_iff in Ht as [_ Ht].
    destruct t as [|c' t]; simpl; [done|]. intros [= ->]. simpl in Ht.
    replace (is_separator U c_space) with true in Ht by done. done.
  - destruct (is_separator U c).
    + intros [_ Ht]%andb_true_iff. by apply (IH true).
    + apply (IH false).
Qed.

Lemma lower_stable_not_upper c : lower_stable U c → ascii_upper c = false.
Proof.
  intros [_ Hc]. unfold lower_char, lower_char_with in Hc.
  destruct (N.ltb_spec c 128) as [Hlt|Hge].
  - unfold ascii_tolower in Hc. destruct (ascii_upper c); [|done].
    injection Hc. lia.
  - unfold ascii_upper. char_class.
Qed.

(** X11. The normal form of a sentence: apart from single spaces there
    are only word characters other than the underscore, no two spaces are
    adjacent, there is no space at either end, and no ASCII capital is
    left. *)
Theorem normalize_sentence_normal_form (s : str) :
  Forall (λ c, c = c_space ∨ is_separator U c = false) (normalize_sentence U s) ∧
  (∀ i, normalize_sentence U s !! i = Some c_space →
        normalize_sentence U s !! S i ≠ Some c_space) ∧
  head (normalize_sentence U s) ≠ Some c_space ∧
  last (normalize_sentence U s) ≠ Some c_space ∧
  Forall (λ c, ascii_upper c = false) (normalize_sentence U s).
Proof.
  pose proof (normalize_sentence_tidy s) as Htidy.
  pose proof (normalize_sentence_stable s) as Hstable.
  repeat split.
  - by apply (tidy_chars false).
  - intros i. by apply (tidy_single_spaces false).
  - rewrite normalize_sentence_scan. by intros Hh%strip_head.
  - rewrite normalize_sentence_scan. by intros Hl%strip_last.
  - eapply Forall_impl; [exact Hstable|]. apply lower_stable_not_upper.
Qed.

Lemma re_sub_runs_blank b x :
  forallb (is_separator U) x = true →
  forallb (isspace U) (re_sub_runs (is_separator U) b x) = true.
Proof.
  revert b. induction x as [|c x IH]; intros b; simpl; [done|].
  intros [Hc Hx]%andb_true_iff. rewrite Hc.
  destruct b; simpl; [by apply IH|].
  replace (isspace U c_space) with true by done. by apply IH.
Qed.

Lemma re_sub_runs_blank_inv b x :
  forallb (isspace U) (re_sub_runs (is_separator U) b x) = true →
  forallb (is_separator U) x = true.
Proof.
  revert b. induction x as [|c x IH]; intros b; simpl; [done|].
  destruct (is_separator U c) eqn:Hsep; simpl.
  - destruct b; simpl; apply IH.
  - intros [Hc _]%andb_true_iff. apply isspace_separator in Hc. congruence.
Qed.

(** X12. A sentence has the empty normal form exactly when its
    lower-cased text has no word character other than the underscore. *)
Theorem normalize_sentence_empty_iff (s : str) :
  normalize_sentence U s = [] ↔ forallb (is_separator U) (lower U s) = true.
Proof.
  rewrite normalize_sentence_scan, re_sub_space_after_separator. split.
  - intros H%strip_nil_blank. by apply re_sub_runs_blank_inv in H.
  - intros H. apply strip_blank. by apply re_sub_runs_blank.
Qed.

(** *** Readability: all scores or none *)

Lemma readability_textstat_answers text :
  is_Some (readability_textstat textstat text) ↔ textstat_answers textstat text.
Proof.
  unfold readability_textstat, textstat_answers.
  repeat match goal with
  | |- context [mbind _ ?x] =>
      destruct x; cbn [mbind option_bind];
      [|split; [by intros [? ?]|intros H; decompose [and] H; exfalso; eapply is_Some_None; eassumption]]
  end.
  split; [intros _; repeat split; eauto|eauto].
Qed.

Lemma readability_textstat_fields text r :
  readability_textstat textstat text = Some r →
  is_Some (flesch_reading_ease r) ∧ is_Some (flesch_kincaid_grade r) ∧
  is_Some (gunning_fog r) ∧ is_Some (smog_index r) ∧
  is_Some (automated_readability_index r) ∧ is_Some (coleman_liau_index r) ∧
  is_Some (dale_chall r) ∧ is_Some (difficult_words r) ∧ is_Some (polysyllables r).
Proof.
  unfold readability_textstat.
  repeat match goal with
  | |- context [mbind _ ?x] => destruct x; cbn [mbind option_bind]; [|done]
  end.
  intros [= <-]. cbn. repeat split; eauto.
Qed.

(** X13. The seven readability scores come together: each of them is
    present exactly when the text is not blank and every call of textstat
    returns.  The two counts of difficult words and polysyllables are
    absent only when the text is not blank and a call raises. *)
Theorem readability_scores_together (text : str) :
  let r := analyze_readability U textstat text in
  let scored := strip U text ≠ [] ∧ textstat_answers textstat text in
  (is_Some (flesch_reading_ease r) ↔ scored) ∧
  (is_Some (flesch_kincaid_grade r) ↔ scored) ∧
  (is_Some (gunning_fog r) ↔ scored) ∧
  (is_Some (smog_index r) ↔ scored) ∧
  (is_Some (automated_readability_index r) ↔ scored) ∧
  (is_Some (coleman_liau_index r) ↔ scored) ∧
  (is_Some (dale_chall r) ↔ scored) ∧
  (is_Some (difficult_words r) ↔ strip U text = [] ∨ textstat_answers textstat text) ∧
  (is_Some (polysyllables r) ↔ strip U text = [] ∨ textstat_answers textstat text).
Proof.
  cbv zeta. rewrite <- readability_textstat_answers. unfold analyze_readability.
  destruct (strip U text) as [|c s] eqn:Hstrip;
    [|destruct (readability_textstat textstat text) as [r|] eqn:Htry;
      [destruct (readability_textstat_fields _ _ Htry)
         as (H1 & H2 & H3 & H4 & H5 & H6 & H7 & H8 & H9)|]];
    cbn; repeat split; intros;
    repeat match goal with
    | H : is_Some None |- _ => by destruct H
    | H : ?x ≠ ?x |- _ => by destruct H
    | H : _ ∧ _ |- _ => destruct H
    | H : _ ∨ _ |- _ => destruct H
    end; eauto; done.
Qed.

(** *** Words and the case of ASCII letters *)

Lemma ascii_tolower_letter c : ascii_letter (ascii_tolower c) = ascii_letter c.
Proof. unfold ascii_tolower. char_class. Qed.

Lemma ascii_tolower_joiner c : is_joiner (ascii_tolower c) = is_joiner c.
Proof. unfold ascii_tolower. char_class. Qed.

Lemma findall_tokens_tolower s :
  re_findall_tokens Outside (map ascii_tolower s)
  = map (map ascii_tolower) (re_findall_tokens Outside s) ∧
  (∀ acc, re_findall_tokens (InToken (map ascii_tolower acc)) (map ascii_tolower s)
          = map (map ascii_tolower) (re_findall_tokens (InToken acc) s)) ∧
  (∀ acc j, re_findall_tokens (AfterJoiner (map ascii_tolower acc) (ascii_tolower j))
              (map ascii_tolower s)
            = map (map ascii_tolower) (re_findall_tokens (AfterJoiner acc j) s)).
Proof.
  induction s as [|c s (IH1 & IH2 & IH3)]; simpl.
  - repeat split; intros; by rewrite map_rev.
  - rewrite ascii_tolower_letter, ascii_tolower_joiner. repeat split.
    + destruct (ascii_letter c); [apply (IH2 [c])|apply IH1].
    + intros acc. destruct (ascii_letter c); [apply (IH2 (c :: acc))|].
      destruct (is_joiner c); [apply IH3|].
      simpl. by rewrite map_rev, IH1.
    + intros acc j. destruct (ascii_letter c); [apply (IH2 (c :: j :: acc))|].
      simpl. by rewrite map_rev, IH1.
Qed.

Lemma lower_from_ascii before s :
  Forall (λ c, c < 128) s → lower_from U before s = map ascii_tolower s.
Proof.
  intros H. revert before. induction H as [|c s Hc _ IH]; intros before; simpl; [done|].
  destruct (N.eqb_spec c c_capital_sigma) as [->|_]; [unfold c_capital_sigma in Hc; lia|].
  unfold lower_char, lower_char_with. apply N.ltb_lt in Hc. rewrite Hc.
  simpl. f_equal. apply IH.
Qed.

Lemma token_shaped_ascii t : token_shaped t → Forall (λ c, c < 128) t.
Proof.
  intros (_ & _ & _ & H). eapply Forall_impl; [exact H|].
  intros c Hc. simpl in Hc. char_class.
Qed.

(** The words of the style and repetition checks, read off the text with
    its ASCII capitals lowered. *)
Lemma lower_tokens_tolower text :
  map (lower U) (tokenize U text) = tokenize U (map ascii_tolower text).
Proof.
  rewrite !tokenize_scan. destruct (findall_tokens_tolower text) as [-> _].
  apply map_ext_Forall.
  eapply Forall_impl; [apply (findall_tokens_shaped text Outside I)|].
  intros t Ht. apply lower_from_ascii. by apply token_shaped_ascii.
Qed.

(** X14. The word findings ignore the case of ASCII letters: two texts
    that differ only there have the same repeated words, at the same
    positions, and the same adverbs with the same counts. *)
Theorem word_findings_ignore_case (text1 text2 : str) (max_dup threshold : Z) :
  map ascii_tolower text1 = map ascii_tolower text2 →
  duplicate_words (analyze_repetition U text1 max_dup)
  = duplicate_words (analyze_repetition U text2 max_dup) ∧
  adverbs (analyze_style U text1 threshold)
  = adverbs (analyze_style U text2 threshold).
Proof.
  intros Heq. unfold analyze_repetition, analyze_style.
  cbn [duplicate_words adverbs].
  by rewrite !lower_tokens_tolower, Heq.
Qed.

(** *** What the matcher finds *)

Lemma elem_of_flat_map {A B} (f : A → list B) (l : list A) (y : B) :
  y ∈ flat_map f l ↔ ∃ x, x ∈ l ∧ y ∈ f x.
Proof.
  rewrite list_elem_of_In, in_flat_map. setoid_rewrite list_elem_of_In. done.
Qed.

Lemma star_ends_sound r fuel :
  (∀ b s b' s', (b', s') ∈ re_ends U r b s →
     ∃ m, s = m ++ s' ∧ b' = rev m ++ b ∧ re_match U r b m s') →
  ∀ b s b' s', (b', s') ∈ star_ends (re_ends U r) fuel b s →
     ∃ m, s = m ++ s' ∧ b' = rev m ++ b ∧ re_match U (Star r) b m s'.
Proof.
  intros Hr. induction fuel as [|fuel IH]; intros b s b' s'; simpl.
  - intros [= -> ->]%list_elem_of_singleton. exists []. repeat split. constructor.
  - rewrite elem_of_app, elem_of_flat_map.
    intros [([b1 s1] & H1 & H2)|[= -> ->]%list_elem_of_singleton].
    + simpl in H2. destruct (length s1 <? length s)%nat; [|by apply elem_of_nil in H2].
      apply Hr in H1 as (m1 & -> & -> & Hm1).
      apply IH in H2 as (m2 & -> & -> & Hm2).
      exists (m1 ++ m2). rewrite rev_app_distr, <- !app_assoc.
      repeat split. by constructor.
    + exists []. repeat split. constructor.
Qed.

Lemma re_ends_sound r b s b' s' :
  (b', s') ∈ re_ends U r b s →
  ∃ m, s = m ++ s' ∧ b' = rev m ++ b ∧ re_match U r b m s'.
Proof.
  revert b s b' s'. induction r as [|p|r1 IH1 r2 IH2|r1 IH1 r2 IH2|r IH|p|];
    intros b s b' s'; simpl.
  - intros [= -> ->]%list_elem_of_singleton. exists []. repeat split. constructor.
  - destruct s as [|c s]; [by intros ?%elem_of_nil|].
    destruct (p c) eqn:Hc; [|by intros ?%elem_of_nil].
    intros [= -> ->]%list_elem_of_singleton. exists [c]. repeat split. by constructor.
  - rewrite elem_of_flat_map. intros ([b1 s1] & H1 & H2). simpl in H2.
    apply IH1 in H1 as (m1 & -> & -> & Hm1).
    apply IH2 in H2 as (m2 & -> & -> & Hm2).
    exists (m1 ++ m2). rewrite rev_app_distr, <- !app_assoc.
    repeat split. by constructor.
  - rewrite elem_of_app. intros [H|H].
    + apply IH1 in H as (m & -> & -> & Hm). exists m. repeat split. by apply match_Alt_l.
    + apply IH2 in H as (m & -> & -> & Hm). exists m. repeat split. by apply match_Alt_r.
  - by apply star_ends_sound.
  - destruct b as [|c b]; [by intros ?%elem_of_nil|].
    destruct (p c) eqn:Hc; [|by intros ?%elem_of_nil].
    intros [= -> ->]%list_elem_of_singleton. exists []. repeat split. by constructor.
  - destruct (xorb _ _) eqn:Hx; [|by intros ?%elem_of_nil].
    intros [= -> ->]%list_elem_of_singleton. exists []. repeat split. by constructor.
Qed.

Lemma re_search_sound r b s gap m b' s' :
  re_search U r b s = Some (gap, m, (b', s')) →
  s = gap ++ m ++ s' ∧ b' = rev m ++ rev gap ++ b ∧
  re_match U r (rev gap ++ b) m s'.
Proof.
  revert b gap. induction s as [|c s IH]; intros b gap; rewrite re_search_unfold.
  - destruct (re_ends U r b []) as [|[b1 s1] l] eqn:Hends; simpl; [done|].
    intros [= <- <- <- <-].
    destruct (re_ends_sound r b [] b1 s1) as (m0 & Hs & -> & Hm);
      [rewrite Hends; by left|].
    symmetry in Hs. apply app_eq_nil in Hs as [-> ->]. done.
  - destruct (re_ends U r b (c :: s)) as [|[b1 s1] l] eqn:Hends; simpl.
    + destruct (re_search U r (c :: b) s) as [[[gap0 m0] [b0 s0]]|] eqn:Hsearch; [|done].
      intros [= <- <- <- <-].
      apply IH in Hsearch as (-> & -> & Hm).
      simpl. rewrite <- !app_assoc. done.
    + intros [= <- <- <- <-].
      destruct (re_ends_sound r b (c :: s) b1 s1) as (m0 & Hs & -> & Hm);
        [rewrite Hends; by left|].
      assert (Htake : take (length (c :: s) - length s1) (c :: s) = m0).
      { rewrite Hs, length_app.
        replace (length m0 + length s1 - length s1)%nat with (length m0) by lia.
        by rewrite take_app_length. }
      cbn [length] in Htake. rewrite Htake. done.
Qed.

Lemma re_pieces_sound r fuel b s m :
  m ∈ map snd (re_pieces U r fuel b s).1 →
  ∃ pre post, s = pre ++ m ++ post ∧ re_match U r (rev pre ++ b) m post.
Proof.
  revert b s. induction fuel as [|fuel IH]; intros b s; simpl;
    [by intros ?%elem_of_nil|].
  destruct (re_search U r b s) as [[[gap m0] [b' s']]|] eqn:Hsearch;
    [|by intros ?%elem_of_nil].
  destruct m0 as [|c m0]; [by intros ?%elem_of_nil|].
  apply re_search_sound in Hsearch as (-> & -> & Hm0).
  simpl. intros [->|Hin]%elem_of_cons.
  - by exists gap, s'.
  - apply IH in Hin as (pre & post & -> & Hm).
    exists (gap ++ (c :: m0) ++ pre), post. split; [by rewrite <- !app_assoc|].
    by rewrite !rev_app_distr, <- !app_assoc.
Qed.

Lemma re_findall_sound r s m :
  m ∈ re_findall U r s →
  ∃ pre post, s = pre ++ m ++ post ∧ re_match U r (rev pre) m post.
Proof.
  intros (pre & post & Hs & Hm)%re_pieces_sound.
  exists pre, post. by rewrite app_nil_r in Hm.
Qed.

Lemma re_match_star_chr p b m s :
  re_match U (Star (Chr p)) b m s → Forall (λ c, p c = true) m.
Proof.
  remember (Star (Chr p)) as r eqn:Hr. intros H. revert Hr.
  induction H as [| | | | | |r1 b m1 m2 s H1 _ H2 IH| |]; intros Hr; try done.
  injection Hr as ->. inversion H1; subst. constructor; [done|by apply IH].
Qed.

Lemma re_match_plus_chr p b m s :
  re_match U (Plus (Chr p)) b m s → m ≠ [] ∧ Forall (λ c, p c = true) m.
Proof.
  unfold Plus. intros H. inversion H as [| |r1 r2 b0 m1 m2 s0 H1 H2| | | | | |]; subst.
  inversion H1; subst. apply re_match_star_chr in H2. split; [done|by constructor].
Qed.

Lemma re_match_literal_ci w b m s :
  re_match U (literal_ci U w) b m s → matches_ci U w m.
Proof.
  unfold literal_ci, matches_ci. revert b m.
  induction (s2l w) as [|p l IH]; intros b m H; simpl in H.
  - inversion H. constructor.
  - inversion H as [| |r1 r2 b0 m1 m2 s0 H1 H2| | | | | |]; subst.
    inversion H1; subst. simpl. constructor; [done|]. by eapply IH.
Qed.

Lemma re_match_word_boundary b m s :
  re_match U WordBoundary b m s →
  m = [] ∧ xorb (is_word_at U b) (is_word_at U s) = true.
Proof. by inversion 1. Qed.

Lemma re_match_be_verbs b m s :
  re_match U (be_verbs_re U) b m s →
  ∃ w, w ∈ ["am"; "is"; "are"; "was"; "were"; "be"; "been"; "being"]%string ∧
       matches_ci U w m.
Proof.
  unfold be_verbs_re. intros H.
  repeat match goal with
  | H : re_match _ (Alt _ _) _ _ _ |- _ => inversion H; subst; clear H
  end;
  match goal with
  | H : re_match _ (literal_ci _ ?w) _ _ _ |- _ =>
      exists w; split;
        [repeat first [apply list_elem_of_here|apply list_elem_of_further]
        |by apply re_match_literal_ci in H]
  end.
Qed.

(** X15. What a passive-voice hit is: a part of its sentence that
    consists of a form of "to be", white space, and a run of word
    characters followed by "ed", letters compared without case; there is
    a word boundary before and after it. *)
Theorem passive_hit_shape (text : str) (threshold : Z) (h : PassiveHit) :
  h ∈ passive_voice (analyze_style U text threshold) →
  ∃ pre post verb spaces stem ed,
    pv_sentence h = pre ++ pv_match h ++ post ∧
    pv_match h = verb ++ spaces ++ stem ++ ed ∧
    (∃ w, w ∈ ["am"; "is"; "are"; "was"; "were"; "be"; "been"; "being"]%string ∧
          matches_ci U w verb) ∧
    spaces ≠ [] ∧ Forall (λ c, isspace U c = true) spaces ∧
    stem ≠ [] ∧ Forall (λ c, is_word U c = true) stem ∧
    matches_ci U "ed" ed ∧
    xorb (is_word_at U (rev pre)) (is_word_at U (pv_match h ++ post)) = true ∧
    xorb (is_word_at U (rev (pv_match h) ++ rev pre)) (is_word_at U post) = true.
Proof.
  intros [_ Hm]%passive_voice_elem. unfold passive_finditer in Hm.
  apply re_findall_sound in Hm as (pre & post & Hs & Hm).
  exists pre, post. destruct h as [i m sent]. cbn [pv_match pv_sentence] in *.
  unfold passive_re in Hm.
  repeat match goal with
  | H : re_match _ (Seq _ _) _ _ _ |- _ => inversion H; subst; clear H
  | H : re_match _ WordBoundary _ _ _ |- _ =>
      apply re_match_word_boundary in H as [-> ?]
  | H : re_match _ (be_verbs_re _) _ _ _ |- _ => apply re_match_be_verbs in H
  | H : re_match _ (Plus _) _ _ _ |- _ => apply re_match_plus_chr in H as [? ?]
  | H : re_match _ (literal_ci _ _) _ _ _ |- _ => apply re_match_literal_ci in H
  end.
  cbn [app rev] in *. rewrite ?app_nil_r in *.
  match goal with
  | Hv : ∃ w, _ ∧ matches_ci _ w ?verb,
    Hsp : Forall (λ c, isspace _ c = true) ?spaces,
    Hst : Forall (λ c, is_word _ c = true) ?stem,
    Hed : matches_ci _ "ed" ?ed |- _ => exists verb, spaces, stem, ed
  end.
  rewrite <- !app_assoc in *. repeat split; try done.
  rewrite !rev_app_distr, <- !app_assoc.
  rewrite !rev_app_distr, <- !app_assoc in *. done.
Qed.

(** *** One segmenter? *)

Lemma is_word_at_rev (m x : str) :
  m ≠ [] → Forall (λ c, is_word U c = true) m → is_word_at U (rev m ++ x) = true.
Proof.
  intros Hne Hm. destruct (rev m) as [|c r] eqn:Hrev.
  - apply (f_equal (@rev N)) in Hrev. rewrite rev_involutive in Hrev. done.
  - simpl. rewrite Forall_forall in Hm. apply Hm.
    rewrite list_elem_of_In, (in_rev m), Hrev. by left.
Qed.

Lemma dedup_sentences_elem (seen : gset str) (items : list DuplicateSentence) f :
  f ∈ dedup_sentences U seen items → f ∈ items.
Proof.
  revert seen. induction items as [|item items IH]; intros seen; simpl; [done|].
  case_decide.
  - intros Hf. right. by eapply IH.
  - intros [->|Hf]%elem_of_cons; [by left|]. right. by eapply IH.
Qed.

(** A match of [\b\w+\b] is a maximal run of word characters. *)
Lemma word_re_maximal_run (text t : str) :
  t ∈ re_findall U (word_re U) text →
  t ≠ [] ∧ Forall (λ c, is_word U c = true) t ∧
  ∃ pre post, text = pre ++ t ++ post ∧
              is_word_at U (rev pre) = false ∧ is_word_at U post = false.
Proof.
  intros (pre & post & -> & Hm)%re_findall_sound. unfold word_re in Hm.
  inversion Hm as [| |r1 r2 b0 m1 m2 s0 H1 H2| | | | | |]; subst. clear Hm.
  apply re_match_word_boundary in H1 as [-> Hbefore].
  inversion H2 as [| |r1 r2 b0 m1 m3 s0 H3 H4| | | | | |]; subst. clear H2.
  apply re_match_plus_chr in H3 as [Hne Hword].
  apply re_match_word_boundary in H4 as [-> Hafter].
  cbn [app rev] in Hbefore, Hafter |- *. rewrite !app_nil_r in *.
  split; [done|]. split; [done|]. exists pre, post. split; [done|].
  rewrite (is_word_at_rev m1 (rev pre) Hne Hword) in Hafter.
  assert (Hfirst : is_word_at U (m1 ++ post) = true).
  { destruct m1 as [|c m1]; [done|]. simpl. by inversion Hword. }
  rewrite Hfirst in Hbefore.
  split; [by destruct (is_word_at U (rev pre))|by destruct (is_word_at U post)].
Qed.

(** C1, as the code has it.  The style and repetition analyses segment
    with [split_sentences] and [tokenize] and with nothing else: the
    long-sentence and passive-voice findings index the sentences of
    [split_sentences], a long sentence counts the tokens of [tokenize],
    the adverb counts and the positions of repeated words are taken over
    the lower-cased tokens of [tokenize], the repeated sentences are
    sentences of [split_sentences] counted among their normal forms, and
    two texts with the same sentences and the same tokens have the same
    style and repetition findings.  The counts that [analyze_readability]
    computes itself, on blank text or after a failure of [textstat], are
    those of [tokenize] and [split_sentences]; otherwise they are what
    [textstat] returns.  The spelling checker has a pattern of its own:
    it takes the maximal runs of word characters, and on plain text
    (ASCII letters, and non-word characters other than hyphen and
    apostrophe) the words it considers are the lower-cased alphabetic
    tokens of [tokenize] that have no upper-case letter. *)
Theorem segmentation_shared (text : str) (threshold max_dup : Z) :
  let sents := split_sentences U text in
  let ws := map (lower U) (tokenize U text) in
  let norm := normalize_sentence U in
  (∀ f, f ∈ long_sentences (analyze_style U text threshold) ↔
        sents !! ls_index f = Some (ls_text f) ∧
        ls_word_count f = length (tokenize U (ls_text f)) ∧
        (threshold < Z.of_nat (ls_word_count f))%Z) ∧
  (∀ h, h ∈ passive_voice (analyze_style U text threshold) ↔
        sents !! pv_index h = Some (pv_sentence h) ∧
        pv_match h ∈ passive_finditer U (pv_sentence h)) ∧
  (∀ a, a ∈ adverbs (analyze_style U text threshold) →
        adv_word a ∈ ws ∧ adv_count a = count_of (adv_word a) ws) ∧
  (∀ d i, d ∈ duplicate_words (analyze_repetition U text max_dup) →
          i ∈ dw_occurrences d → adjacent_dup ws i (dw_word d)) ∧
  (∀ f, f ∈ duplicate_sentences (analyze_repetition U text max_dup) →
        ds_sentence f ∈ sents ∧
        ds_count f = count_of (norm (ds_sentence f)) (map norm sents)) ∧
  (∀ text', split_sentences U text' = sents →
            tokenize U text' = tokenize U text →
            analyze_style U text' threshold = analyze_style U text threshold ∧
            analyze_repetition U text' max_dup
            = analyze_repetition U text max_dup) ∧
  (strip U text = [] ∨ readability_textstat textstat text = None →
     lexicon_count (analyze_readability U textstat text)
       = Z.of_nat (length (tokenize U text)) ∧
     sentence_count (analyze_readability U textstat text)
       = Z.of_nat (length sents)) ∧
  (strip U text ≠ [] → is_Some (readability_textstat textstat text) →
     textstat_lexicon_count textstat text true
       = Some (lexicon_count (analyze_readability U textstat text)) ∧
     textstat_sentence_count textstat text
       = Some (sentence_count (analyze_readability U textstat text))) ∧
  (re_findall U (word_re U) text = re_findall_words U [] text ∧
   (∀ t, t ∈ re_findall U (word_re U) text →
         t ≠ [] ∧ Forall (λ c, is_word U c = true) t ∧
         ∃ pre post, text = pre ++ t ++ post ∧
                     is_word_at U (rev pre) = false ∧
                     is_word_at U post = false) ∧
   spelling_lower_tokens U text
   = map (lower U)
       (List.filter (λ t, str_isalpha U t && negb (existsb (isupper U) t))
          (re_findall_words U [] text))) ∧
  (forallb (plain_char U) text = true →
     re_findall U (word_re U) text = tokenize U text ∧
     spelling_lower_tokens U text
     = map (lower U)
         (List.filter (λ t, str_isalpha U t && negb (existsb (isupper U) t))
            (tokenize U text))).
Proof.
  intros sents ws norm.
  split; [|split; [|split; [|split; [|split; [|split; [|split; [|split; [|split]]]]]]]].
  - intros f. apply long_sentences_elem.
  - intros h. apply passive_voice_elem.
  - intros a. unfold analyze_style. cbn [adverbs].
    rewrite elem_of_sorted, elem_of_map. fold ws.
    intros ([w n] & -> & Hin). cbn [adv_word adv_count fst snd].
    apply elem_of_lfilter in Hin as [Hin _].
    apply Counter_elem in Hin as [Hin ->].
    apply elem_of_lfilter in Hin as [Hin Hadv].
    split; [done|].
    by apply (count_of_filter
                (λ w, (3 <? length w)%nat && endswith w (s2l "ly"))).
  - intros d i Hd%duplicate_words_elem Hi.
    destruct (duplicate_scan_spec ws) as (Hnd & _ & _ & Hpos).
    apply dd_elem in Hd as [_ Hget]; [|done].
    rewrite <- Hget in Hi. by apply Hpos.
  - intros f Hf. rewrite duplicate_sentences_unfold in Hf.
    apply dedup_sentences_elem, elem_of_flat_map in Hf as (s & Hs & Hf).
    fold sents norm in Hf.
    destruct (_ && _); [|by apply elem_of_nil in Hf].
    apply list_elem_of_singleton in Hf as ->. done.
  - intros text' Hsents Htokens.
    unfold analyze_style, analyze_repetition. fold sents.
    by rewrite Hsents, Htokens.
  - unfold analyze_readability. destruct (strip U text) as [|c t] eqn:Hstrip.
    + intros _. pose proof (strip_nil_blank _ Hstrip) as Hblank.
      rewrite (tokenize_blank _ Hblank). unfold sents, split_sentences.
      by rewrite Hstrip.
    + intros [?| ->]; [done|]. done.
  - intros Hstrip [r Hr]. unfold analyze_readability.
    destruct (strip U text) as [|c t]; [done|]. rewrite Hr. cbn [default].
    unfold readability_textstat in Hr.
    repeat match type of Hr with
    | context [mbind _ ?x] => destruct x; cbn [mbind option_bind] in Hr; [|done]
    end.
    by injection Hr as <-.
  - split; [apply re_findall_word_re|]. split; [apply word_re_maximal_run|].
    unfold spelling_lower_tokens. by rewrite re_findall_word_re.
  - intros Hplain. unfold spelling_lower_tokens.
    by rewrite re_findall_word_re, tokenize_scan,
         (findall_words_tokens_plain [] text Hplain).
Qed.

(** *** Errors of the aggregator *)


(** X16. The one exception that leaves [analyze_text] is that of the
    spell checker's constructor: a call of textstat that raises does not
    stop the analysis. *)
Theorem analyze_text_raises_iff (text : str) (opts : CheckerOptions) :
  analyze_text U textstat SpellChecker text opts = None
  ↔ SpellChecker (lang opts) = None.
Proof.
  unfold analyze_text, analyze_spelling.
  by destruct (SpellChecker (lang opts)) as [spell|].
Qed.

(** * Properties of the command line *)

Section CommandLineProperties.

Context (format_2f : float → str).
Context (json_dumps : Report → str).
Context (parse_args : list str → option Namespace).
Context (format_help : str).

Lemma split_sentences_nonblank text :
  strip U text ≠ [] → split_sentences U text ≠ [].
Proof.
  intros Hstrip Hnone.
  destruct (split_sentences_pieces text) as [Heq _]; [done|].
  rewrite Hnone in Heq. symmetry in Heq.
  by apply re_split_from_nonempty in Heq.
Qed.

Lemma capped_section_length {A} header cap (line : A → str) items :
  (length (capped_section header cap line items) ≤ S cap)%nat.
Proof.
  unfold capped_section. destruct items as [|x items]; [simpl; lia|].
  cbn [length]. rewrite length_map, length_take. lia.
Qed.

Lemma flat_map_length_le {A B} (f : A → list B) (l : list A) :
  (∀ x, (length (f x) ≤ 1)%nat) → (length (flat_map f l) ≤ length l)%nat.
Proof.
  intros Hf. induction l as [|x l IH]; simpl; [done|].
  rewrite length_app. specialize (Hf x). lia.
Qed.

(** X17. The human-readable report has at least three and at most 79
    lines in its list, however many findings the report holds. *)
Theorem format_human_lines_bounded (result : Report) :
  (3 ≤ length (format_human_lines format_2f result) ≤ 79)%nat.
Proof.
  unfold format_human_lines. cbv zeta. rewrite !length_app.
  rewrite length_map, length_take.
  pose proof (capped_section_length "Style: Long sentences" 10
    (λ item, s2l "  - #" ++ str_int (ls_index item) ++ s2l " ("
               ++ str_int (ls_word_count item) ++ s2l " words): " ++ ls_text item)
    (long_sentences (style result))) as H1.
  pose proof (capped_section_length "Style: Possible passive voice" 10
    (λ item, s2l "  - #" ++ str_int (pv_index item) ++ s2l ": " ++ pv_match item)
    (passive_voice (style result))) as H2.
  pose proof (capped_section_length "Style: Adverbs (-ly)" 10
    (λ item, s2l "  - " ++ adv_word item ++ s2l " x" ++ str_int (adv_count item))
    (adverbs (style result))) as H3.
  pose proof (capped_section_length "Repetition: Immediate duplicate words" 10
    (λ item, s2l "  - '" ++ dw_word item ++ s2l "' at positions "
               ++ str_int_list (take 5 (dw_occurrences item)))
    (duplicate_words (repetition result))) as H4.
  pose proof (capped_section_length "Repetition: Duplicate sentences" 5
    (λ item, s2l "  - x" ++ str_int (ds_count item) ++ s2l ": " ++ ds_sentence item)
    (duplicate_sentences (repetition result))) as H5.
  match goal with
  | |- context [length (flat_map ?f shown_scores)] =>
      assert (H6 : (length (flat_map f shown_scores) ≤ length shown_scores)%nat)
        by (apply flat_map_length_le; intros [k get]; cbn [snd];
            destruct (get (readability result)); simpl; lia)
  end.
  change (length shown_scores) with 5%nat in H6.
  destruct (20 <? total_unknown (spelling result))%nat; cbn [length]; lia.
Qed.

Lemma readability_nonblank text :
  strip U text ≠ [] →
  is_Some (difficult_words (analyze_readability U textstat text))
  ↔ is_Some (flesch_reading_ease (analyze_readability U textstat text)).
Proof.
  intros Hstrip. unfold analyze_readability.
  destruct (strip U text) as [|c s]; [done|].
  destruct (readability_textstat textstat text) as [r|] eqn:Htry.
  - destruct (readability_textstat_fields _ _ Htry)
      as (H1 & _ & _ & _ & _ & _ & _ & H8 & _). done.
  - cbn. split; by intros [? ?].
Qed.


(** X19. A report that [main] prints is the report of a text that is not
    blank: it counts at least one character and one sentence, and its
    readability part has the two counts of textstat exactly when it has
    the scores. *)
Theorem main_report_not_blank (argv : list str) (w : World) (out err : list str) :
  main U textstat SpellChecker format_2f json_dumps parse_args format_help argv w
    = Returns 0 out err →
  ∃ args text result,
    parse_args argv = Some args ∧
    read_input_text (args_file args) w = Some text ∧
    analyze_text U textstat SpellChecker text
      {| lang := args_lang args;
         long_sentence_threshold := args_long_sentence_threshold args;
         max_duplicate_sentences := args_max_duplicates args |} = Some result ∧
    out = [if args_json args then json_dumps result
           else format_human format_2f result] ∧
    err = [] ∧
    (1 ≤ characters (summary result))%nat ∧
    (1 ≤ sentences (summary result))%nat ∧
    (is_Some (difficult_words (readability result))
     ↔ is_Some (flesch_reading_ease (readability result))).
Proof.
  unfold main. destruct (parse_args argv) as [args|]; [|done].
  case_bool_decide as Hcmd; cbn [negb]; [|done].
  destruct (read_input_text (args_file args) w) as [text|] eqn:Hread; [|done].
  destruct (strip U text) as [|c s] eqn:Hstrip; [done|].
  assert (Hnonblank : strip U text ≠ []) by congruence.
  match goal with
  | |- context [analyze_text _ _ _ _ ?o] =>
      destruct (analyze_text U textstat SpellChecker text o) as [result|] eqn:Hres
  end; [|done].
  cbv zeta. destruct (stdout_encodes w _); [|done].
  intros [= <- <-]. exists args, text, result.
  repeat (split; [done|]).
  unfold analyze_text, analyze_spelling in Hres. cbn [lang] in Hres.
  destruct (SpellChecker (args_lang args)) as [spell|]; [|done].
  cbn [mbind option_bind] in Hres. injection Hres as <-.
  cbn [summary readability characters sentences].
  pose proof (split_sentences_nonblank text Hnonblank) as Hsent.
  pose proof (strip_length text) as Hlen. rewrite Hstrip in Hlen.
  split; [cbn [length] in Hlen; lia|].
  split; [destruct (split_sentences U text); [done|simpl; lia]|].
  by apply readability_nonblank.
Qed.

(** X20. Blank input ends [main] with status 2 and the message, before
    the analyzer is called: the language is not looked at, nothing goes
    to the standard output. *)
Theorem main_blank_input (argv : list str) (w : World) (args : Namespace) (text : str) :
  parse_args argv = Some args →
  args_command args = Some (s2l "check") →
  read_input_text (args_file args) w = Some text →
  forallb (isspace U) text = true →
  main U textstat SpellChecker format_2f json_dumps parse_args format_help argv w
  = Returns 2 [] [no_input_message].
Proof.
  intros Hparse Hcmd Hread Hblank. unfold main. rewrite Hparse.
  rewrite bool_decide_true by done. cbn [negb]. rewrite Hread.
  by rewrite (strip_blank _ Hblank).
Qed.

(** X21. Without a file, or with the empty path, [check] reads the
    standard input, and on a terminal it reads nothing: [main] ends with
    status 2. *)
Theorem main_on_terminal (argv : list str) (w : World) (args : Namespace) :
  parse_args argv = Some args →
  args_command args = Some (s2l "check") →
  args_file args = None ∨ args_file args = Some [] →
  stdin_isatty w = true →
  read_input_text (args_file args) w = Some [] ∧
  main U textstat SpellChecker format_2f json_dumps parse_args format_help argv w
  = Returns 2 [] [no_input_message].
Proof.
  intros Hparse Hcmd Hfile Htty.
  assert (Hread : read_input_text (args_file args) w = Some []).
  { unfold read_input_text. destruct Hfile as [-> | ->]; by rewrite Htty. }
  split; [done|]. unfold main. rewrite Hparse.
  rewrite bool_decide_true by done. cbn [negb]. by rewrite Hread.
Qed.

End CommandLineProperties.

End Properties.

Lemma blank_text_degenerate_witness :
  forallb (isspace ascii_only) (s2l "  ") = true ∧
  split_sentences ascii_only (s2l "  ") = [].
Proof.
  split; [reflexivity|].
  apply (blank_text_degenerate ascii_only textstat_zero (s2l "  ")). reflexivity.
Defined.

(** C4, as the specification words it, fails: on "a_b" the code separates
    at the underscore, the specification's normalization keeps it. *)
Lemma normalize_sentence_underscore :
  normalize_sentence ascii_only (s2l "a_b") = s2l "a b" ∧
  normalize_sentence_spec ascii_only (s2l "a_b") = s2l "a_b" ∧
  normalize_sentence ascii_only (s2l "a_b")
  ≠ normalize_sentence_spec ascii_only (s2l "a_b").
Proof. split; [reflexivity|]. split; [reflexivity|]. vm_compute. discriminate. Qed.

Lemma toy_spell_unknown dict ws w :
  w ∈ spell_unknown (toy_spell dict) ws ↔ w ∈ ws ∧ toy_known dict w = false.
Proof.
  simpl. rewrite elem_of_list_to_set, elem_of_lfilter, negb_true_iff. done.
Qed.

Lemma spelling_issues_distinct_sorted_witness :
  ∃ report,
    analyze_spelling ascii_only toy_SpellChecker
      (s2l "teh cat Sat on a mat, teh end") (s2l "en") = Some report ∧
    map si_word (issues report) = [s2l "end"; s2l "mat"; s2l "on"; s2l "teh"].
Proof.
  destruct (spelling_issues_distinct_sorted ascii_only toy_SpellChecker
              (s2l "teh cat Sat on a mat, teh end") (s2l "en")
              (toy_spell (map s2l ["the"; "cat"; "sat"; "a"]%string))
              (toy_known (map s2l ["the"; "cat"; "sat"; "a"]%string))
              eq_refl (toy_spell_unknown _ _))
    as (report & Hreport & _).
  exists report. split; [exact Hreport|].
  vm_compute in Hreport. injection Hreport as <-. vm_compute. reflexivity.
Defined.

(** C7, as the specification words it, fails: in "... ..." both
    sentences normalize to the empty string, which so occurs twice, more
    than the threshold 1, and yet nothing is reported. *)
Lemma duplicate_sentences_empty_normal_form :
  let text := s2l "... ..." in
  let sents := split_sentences ascii_only text in
  let total := count_of (normalize_sentence ascii_only (s2l "..."))
                        (map (normalize_sentence ascii_only) sents) in
  sents = [s2l "..."; s2l "..."] ∧
  normalize_sentence ascii_only (s2l "...") = [] ∧
  total = 2%nat ∧
  (1 < Z.of_nat total)%Z ∧
  duplicate_sentences (analyze_repetition ascii_only text 1) = [].
Proof. vm_compute. done. Qed.

(** C1, as the specification words it, fails: on "don't" the spelling
    checker considers "don" and "t", while [tokenize] has the single token
    "don't", which is not alphabetic. *)
Lemma spelling_segments_differently :
  let text := s2l "don't" in
  spelling_lower_tokens ascii_only text = [s2l "don"; s2l "t"] ∧
  tokenize ascii_only text = [s2l "don't"] ∧
  List.filter (str_isalpha ascii_only) (tokenize ascii_only text) = [] ∧
  ¬ (∀ w, w ∈ spelling_lower_tokens ascii_only text
          ↔ w ∈ map (lower ascii_only)
                  (List.filter (str_isalpha ascii_only) (tokenize ascii_only text))).
Proof.
  split; [reflexivity|]. split; [reflexivity|]. split; [reflexivity|].
  intros H. specialize (H (s2l "t")). vm_compute in H.
  destruct H as [H _]. eapply elem_of_nil, H. right. left.
Qed.

Lemma segmentation_shared_witness :
  let text := s2l "The cat sat. The end" in
  let text' := s2l "The cat sat.   The end" in
  forallb (plain_char ascii_only) text = true ∧
  split_sentences ascii_only text' = split_sentences ascii_only text ∧
  tokenize ascii_only text' = tokenize ascii_only text ∧
  readability_textstat textstat_raising text = None ∧
  is_Some (readability_textstat textstat_zero text) ∧
  re_findall ascii_only (word_re ascii_only) text = tokenize ascii_only text ∧
  analyze_style ascii_only text' 30 = analyze_style ascii_only text 30 ∧
  lexicon_count (analyze_readability ascii_only textstat_raising text) = 5%Z ∧
  textstat_lexicon_count textstat_zero text true
  = Some (lexicon_count (analyze_readability ascii_only textstat_zero text)).
Proof.
  intros text text'.
  assert (Hsome : is_Some (readability_textstat textstat_zero text))
    by (eexists; reflexivity).
  destruct (segmentation_shared ascii_only textstat_raising text 30 1)
    as (_ & _ & _ & _ & _ & Hsame & Hcounts & _ & _ & Hspelling).
  destruct (segmentation_shared ascii_only textstat_zero text 30 1)
    as (_ & _ & _ & _ & _ & _ & _ & Htextstat & _).
  destruct (Hspelling eq_refl) as [Hwords _].
  destruct (Hcounts (or_intror eq_refl)) as [Hlexicon _].
  assert (Hsents : split_sentences ascii_only text' = split_sentences ascii_only text)
    by (vm_compute; reflexivity).
  assert (Htokens : tokenize ascii_only text' = tokenize ascii_only text)
    by (vm_compute; reflexivity).
  assert (Hstrip : strip ascii_only text ≠ []) by (vm_compute; discriminate).
  destruct (Hsame text' Hsents Htokens) as [Hstyle _].
  destruct (Htextstat Hstrip Hsome) as [Hown _].
  split; [reflexivity|]. split; [exact Hsents|]. split; [exact Htokens|].
  split; [reflexivity|]. split; [exact Hsome|]. split; [exact Hwords|].
  split; [exact Hstyle|]. split; [|exact Hown].
  rewrite Hlexicon. reflexivity.
Defined.

(** The summary of a blank text: three characters, no word, no
    sentence. *)
Example summary_of_blank_text :
  summary <$> analyze_text ascii_only textstat_zero toy_SpellChecker
                (s2l "   ") default_options
  = Some {| characters := 3; words := 0; sentences := 0 |}.
Proof. vm_compute. reflexivity. Qed.

(** A language without dictionary: [SpellChecker] raises, and so does
    [analyze_text]. *)
Example analyze_text_unsupported_language :
  analyze_text ascii_only textstat_zero toy_SpellChecker (s2l "The cat.")
    {| lang := s2l "xx"; long_sentence_threshold := 30; max_duplicate_sentences := 1 |}
  = None.
Proof. vm_compute. reflexivity. Qed.

Example tokenize_joined_words :
  tokenize ascii_only (s2l "mother-in-law can't stop- 'now' 42nd")
  = map s2l ["mother-in-law"; "can't"; "stop"; "now"; "nd"]%string.
Proof. reflexivity. Qed.

Example split_sentences_example :
  split_sentences ascii_only (s2l "  Stop.  Go now! Really?yes. ")
  = map s2l ["Stop."; "Go now!"; "Really?yes."]%string.
Proof. reflexivity. Qed.

Example passive_voice_example :
  passive_finditer ascii_only (s2l "It was needed and IS  Wanted, been ed, this is red.")
  = map s2l ["was needed"; "IS  Wanted"; "is red"]%string.
Proof. reflexivity. Qed.

(** ** Closed instances of the further properties *)

Lemma sentences_split_once_witness :
  s2l "Go now!" ∈ split_sentences ascii_only (s2l "Stop. Go now! Yes.") ∧
  split_sentences ascii_only (s2l "Go now!") = [s2l "Go now!"].
Proof.
  assert (H : s2l "Go now!" ∈ split_sentences ascii_only (s2l "Stop. Go now! Yes."))
    by (vm_compute; right; left).
  split; [exact H|]. exact (sentences_split_once ascii_only _ _ H).
Defined.

Lemma tokens_shaped_and_stable_witness :
  s2l "can't" ∈ tokenize ascii_only (s2l "I can't go") ∧
  tokenize ascii_only (s2l "can't") = [s2l "can't"].
Proof.
  assert (H : s2l "can't" ∈ tokenize ascii_only (s2l "I can't go"))
    by (vm_compute; right; left).
  split; [exact H|].
  exact (proj2 (tokens_shaped_and_stable ascii_only _ _ H)).
Defined.

Lemma long_sentences_threshold_witness :
  (1 ≤ 3)%Z ∧
  long_sentences (analyze_style ascii_only (s2l "We all go home now. Stop it.") 3)
    `sublist_of`
  long_sentences (analyze_style ascii_only (s2l "We all go home now. Stop it.") 1).
Proof.
  split; [lia|].
  apply (long_sentences_threshold ascii_only
           (s2l "We all go home now. Stop it.") 1 3). lia.
Defined.

Lemma word_findings_ignore_case_witness :
  map ascii_tolower (s2l "The THE dog ran Quickly")
  = map ascii_tolower (s2l "the the Dog ran quickly") ∧
  duplicate_words (analyze_repetition ascii_only (s2l "The THE dog ran Quickly") 1)
  = duplicate_words (analyze_repetition ascii_only (s2l "the the Dog ran quickly") 1).
Proof.
  split; [reflexivity|].
  apply (word_findings_ignore_case ascii_only
           (s2l "The THE dog ran Quickly") (s2l "the the Dog ran quickly") 1 30).
  reflexivity.
Defined.

Lemma passive_hit_shape_witness :
  let h := {| pv_index := 1; pv_match := s2l "was needed";
              pv_sentence := s2l "It was needed." |} in
  h ∈ passive_voice (analyze_style ascii_only (s2l "Go. It was needed.") 30) ∧
  ∃ pre post, pv_sentence h = pre ++ pv_match h ++ post.
Proof.
  intros h.
  assert (H : h ∈ passive_voice (analyze_style ascii_only (s2l "Go. It was needed.") 30))
    by (vm_compute; left).
  split; [exact H|].
  destruct (passive_hit_shape ascii_only _ _ h H) as (pre & post & _ & _ & _ & _ & Hs & _).
  by exists pre, post.
Defined.

Lemma main_report_not_blank_witness :
  ∃ out result,
    main ascii_only textstat_zero toy_SpellChecker (λ _, s2l "0.00") (λ _, s2l "{}")
      toy_parse_args (s2l "usage") [s2l "check"] (toy_pipe (s2l "A cat sat."))
    = Returns 0 out [] ∧
    analyze_text ascii_only textstat_zero toy_SpellChecker (s2l "A cat sat.")
      default_options = Some result ∧
    (1 ≤ sentences (summary result))%nat.
Proof.
  assert (H : ∃ out,
    main ascii_only textstat_zero toy_SpellChecker (λ _, s2l "0.00") (λ _, s2l "{}")
      toy_parse_args (s2l "usage") [s2l "check"] (toy_pipe (s2l "A cat sat."))
    = Returns 0 out []) by (eexists; vm_compute; reflexivity).
  destruct H as [out H]. exists out.
  destruct (main_report_not_blank _ _ _ _ _ _ _ _ _ _ _ H)
    as (args & text & result & Hparse & Hread & Hres & _ & _ & _ & Hsent & _).
  injection Hparse as <-. injection Hread as <-.
  exists result. split; [exact H|]. split; [exact Hres|exact Hsent].
Defined.

Lemma main_blank_input_witness :
  forallb (isspace ascii_only) (s2l "   ") = true ∧
  main ascii_only textstat_zero (λ _, None) (λ _, s2l "0.00") (λ _, s2l "{}")
    toy_parse_args (s2l "usage") [s2l "check"] (toy_pipe (s2l "   "))
  = Returns 2 [] [no_input_message].
Proof.
  split; [reflexivity|].
  by apply (main_blank_input ascii_only textstat_zero (λ _, None) (λ _, s2l "0.00")
              (λ _, s2l "{}") toy_parse_args (s2l "usage") [s2l "check"]
              (toy_pipe (s2l "   "))
              {| args_command := Some (s2l "check"); args_file := None;
                 args_json := false; args_lang := s2l "en";
                 args_long_sentence_threshold := 30; args_max_duplicates := 1 |}
              (s2l "   ")).
Defined.

Lemma main_on_terminal_witness :
  stdin_isatty toy_terminal = true ∧
  main ascii_only textstat_zero toy_SpellChecker (λ _, s2l "0.00") (λ _, s2l "{}")
    toy_parse_args (s2l "usage") [s2l "check"; s2l "--file"; []] toy_terminal
  = Returns 2 [] [no_input_message].
Proof.
  split; [reflexivity|].
  apply (main_on_terminal ascii_only textstat_zero toy_SpellChecker (λ _, s2l "0.00")
           (λ _, s2l "{}") toy_parse_args (s2l "usage")
           [s2l "check"; s2l "--file"; []] toy_terminal
           {| args_command := Some (s2l "check"); args_file := Some [];
              args_json := false; args_lang := s2l "en";
              args_long_sentence_threshold := 30; args_max_duplicates := 1 |});
    [reflexivity|reflexivity|by right|reflexivity].
Defined.

(** The report of the command line on a short text. *)
Example format_human_example :
  format_human_lines (λ _, s2l "0.00") <$>
    analyze_text ascii_only textstat_zero toy_SpellChecker
      (s2l "The the cat was kicked quickly. Zorg sat. Zorg sat.") default_options
  = Some (map s2l
      ["Summary: 10 words, 3 sentences, 51 chars"; "Readability:";
       "  - Flesch Reading Ease: 0.00"; "  - Flesch Kincaid Grade: 0.00";
       "  - Gunning Fog: 0.00"; "  - Smog Index: 0.00";
       "  - Automated Readability Index: 0.00";
       "Spelling: 3 potential issue(s)"; "  - 'kicked' -> suggestion: None";
       "  - 'quickly' -> suggestion: None"; "  - 'was' -> suggestion: None";
       "Style: Possible passive voice"; "  - #0: was kicked";
       "Style: Adverbs (-ly)"; "  - quickly x1";
       "Repetition: Immediate duplicate words";
       "  - 'the' at positions [1]"; "Repetition: Duplicate sentences";
       "  - x2: Zorg sat."]%string).
Proof. vm_compute. reflexivity. Qed.

(** A report with a character that the standard output cannot encode:
    [print] raises. *)
Example main_unencodable_report :
  main ascii_only textstat_zero toy_SpellChecker (λ _, s2l "0.00") (λ _, s2l "{}")
    toy_parse_args (s2l "usage") [s2l "check"]
    (toy_ascii_pipe (s2l "Caf" ++ [233] ++ s2l ". Caf" ++ [233] ++ s2l "."))
  = Raises.
Proof. vm_compute. reflexivity. Qed.
